(** * Eye-width measurement filter (scopeprotocols/EyeWidthMeasurement.cpp)

    A shallow embedding of [EyeWidthMeasurement::ValidateChannel] and
    [EyeWidthMeasurement::Refresh].  The C++ [float] and [double] types are
    IEEE 754 binary32 and binary64; they are represented by [spec_float]
    together with the parameterised operations of the standard library's
    [SpecFloat].  Conversions whose behaviour the C++ standard leaves
    undefined (a floating value whose truncation does not fit the integer
    type, a read outside the raster buffer, signed overflow) make the model
    return [None]. *)

From Stdlib Require Import ZArith List Bool Lia SpecFloat.
Import ListNotations.
Local Open Scope Z_scope.

(** ** A small error monad for undefined behaviour *)

Definition bind {A B : Type} (m : option A) (k : A -> option B) : option B :=
  match m with
  | Some a => k a
  | None => None
  end.

Notation "x <- m ;; k" := (bind m (fun x => k))
  (at level 61, m at next level, right associativity).
Notation "' p <- m ;; k" := (bind m (fun p => k))
  (at level 61, p pattern, m at next level, right associativity).

(** ** Machine integers *)

Definition SIZE_MAX : Z := 2 ^ 64 - 1.
Definition INT64_MAX : Z := 2 ^ 63 - 1.
Definition INT64_MIN : Z := - 2 ^ 63.

Definition in_int64 (z : Z) : bool := (INT64_MIN <=? z) && (z <=? INT64_MAX).

(** Unsigned 64-bit arithmetic wraps around. *)
Definition wrap_size_t (z : Z) : Z := z mod 2 ^ 64.

(** [size_t] to [int64_t]: the value is kept modulo 2^64. *)
Definition int64_of_size_t (z : Z) : Z :=
  if z <=? INT64_MAX then z else z - 2 ^ 64.

(** Signed subtraction; overflow is undefined. *)
Definition sub_int64 (a b : Z) : option Z :=
  if in_int64 (a - b) then Some (a - b) else None.

(** ** Floating point *)

Definition float := spec_float.   (* binary32 *)
Definition double := spec_float.  (* binary64 *)

Module F32.
Definition prec : Z := 24.
Definition emax : Z := 128.
Definition add : float -> float -> float := SFadd prec emax.
Definition sub : float -> float -> float := SFsub prec emax.
Definition mul : float -> float -> float := SFmul prec emax.
Definition div : float -> float -> float := SFdiv prec emax.
(** Conversion of an integer, rounding to nearest even. *)
Definition of_Z (z : Z) : float := binary_normalize prec emax z 0 false.
(** The value [m * 2^e], rounded; used for literals. *)
Definition lit (m e : Z) : float := binary_normalize prec emax m e false.
(** [a > b] *)
Definition gt (a b : float) : bool := SFltb b a.
End F32.

Module F64.
Definition prec : Z := 53.
Definition emax : Z := 1024.
Definition mul : double -> double -> double := SFmul prec emax.
Definition div : double -> double -> double := SFdiv prec emax.
Definition of_Z (z : Z) : double := binary_normalize prec emax z 0 false.
Definition lit (m e : Z) : double := binary_normalize prec emax m e false.
Definition leb (a b : double) : bool := SFleb a b.
End F64.

(** [double] to [float]: round to nearest even in the narrower format. *)
Definition narrow (x : double) : float :=
  match x with
  | S754_finite s m e => binary_round F32.prec F32.emax s m e
  | _ => x
  end.

(** [float] to [double]: exact. *)
Definition widen (x : float) : double :=
  match x with
  | S754_finite s m e => binary_round F64.prec F64.emax s m e
  | _ => x
  end.

(** [std::round]: nearest integer, halfway cases away from zero; the
    result is still a floating value and keeps the sign of its argument. *)
Definition round (x : float) : float :=
  match x with
  | S754_finite s m e =>
      if 0 <=? e then x
      else
        let n := (Z.pos m + 2 ^ (- e - 1)) / 2 ^ (- e) in
        binary_normalize F32.prec F32.emax (cond_Zopp s n) 0 s
  | _ => x
  end.

(** The integer part of a finite value (truncation toward zero). *)
Definition trunc (x : spec_float) : option Z :=
  match x with
  | S754_zero _ => Some 0
  | S754_finite s m e =>
      let t := if 0 <=? e then Z.pos m * 2 ^ e else Z.pos m / 2 ^ (- e) in
      Some (cond_Zopp s t)
  | _ => None
  end.

(** Floating to [size_t]: undefined unless the truncated value fits. *)
Definition to_size_t (x : spec_float) : option Z :=
  t <- trunc x ;;
  if (0 <=? t) && (t <=? SIZE_MAX) then Some t else None.

(** Floating to [int64_t]: undefined unless the truncated value fits. *)
Definition to_int64 (x : spec_float) : option Z :=
  t <- trunc x ;;
  if in_int64 t then Some t else None.

Definition NAN : spec_float := S754_nan.

(** [FLT_EPSILON] = 2^-23. *)
Definition FLT_EPSILON : float := F32.lit 1 (-23).

(** ** Streams and stream descriptors *)

(** Modelled from the spec: the stream kinds of Stream.h (not part of the
    sources at hand): "kind ∈ {Analog, AnalogScalar, Eye}". *)
Inductive StreamType :=
  | STREAM_TYPE_ANALOG
  | STREAM_TYPE_ANALOG_SCALAR
  | STREAM_TYPE_EYE.

Definition StreamType_eqb (a b : StreamType) : bool :=
  match a, b with
  | STREAM_TYPE_ANALOG, STREAM_TYPE_ANALOG => true
  | STREAM_TYPE_ANALOG_SCALAR, STREAM_TYPE_ANALOG_SCALAR => true
  | STREAM_TYPE_EYE, STREAM_TYPE_EYE => true
  | _, _ => false
  end.

(** A channel owns an ordered list of output streams; only their kinds
    matter here. *)
Record Channel := { m_streams : list StreamType }.

(** Modelled from the spec: "Channel descriptor — (owning-node reference,
    stream index) pair"; a null owning node is [None]. *)
Record StreamDescriptor := {
  m_channel : option Channel;
  m_stream : nat
}.

(** Modelled from the spec: [StreamDescriptor::GetType] (StreamDescriptor.h
    is not part of the sources at hand) yields the kind of the referenced
    stream; there is none for a null channel or a stale index. *)
Definition GetType (stream : StreamDescriptor) : option StreamType :=
  c <- m_channel stream ;; nth_error (m_streams c) (m_stream stream).

Definition is_type (t : option StreamType) (k : StreamType) : bool :=
  match t with
  | Some t' => StreamType_eqb t' k
  | None => false
  end.

Definition ValidateChannel (i : Z) (stream : StreamDescriptor) : bool :=
  match m_channel stream with
  | None => false
  | Some _ =>
      if (i =? 0) && is_type (GetType stream) STREAM_TYPE_EYE then true
      else false
  end.

(** ** Waveforms *)

(** The eye raster: [GetHeight] rows of [GetWidth] columns, stored row by
    row in [GetData].  [m_uiWidth] is declared in EyePattern.h, which is
    not part of the sources at hand; it is kept at the precision of the
    [double] it is multiplied into. *)
Record EyeWaveform := {
  GetWidth : Z;
  GetHeight : Z;
  GetCenterVoltage : float;
  m_uiWidth : double;
  GetData : list float
}.

Record SparseAnalogWaveform := {
  m_timescale : Z;
  m_offsets : list Z;
  m_durations : list Z;
  m_samples : list float
}.

(** What [SetupEmptySparseAnalogOutputWaveform] hands back: the three
    sequences are cleared on every cycle. *)
Definition SetupEmptySparseAnalogOutputWaveform : SparseAnalogWaveform :=
  {| m_timescale := 0; m_offsets := []; m_durations := []; m_samples := [] |}.

(** The filter: its bound input (the waveform behind input 0, null when
    there is none, and the voltage range of that input) and the two
    parameters. *)
Record EyeWidthMeasurement := {
  GetInputWaveform : option EyeWaveform;
  GetVoltageRange : float;
  m_startname : float;   (* m_parameters["Start Voltage"] *)
  m_endname : float      (* m_parameters["End Voltage"] *)
}.

(** Modelled from the spec: the scalar of a stream, [Stream::m_value], is
    declared in Stream.h, which is not part of the sources at hand; an
    AnalogScalar stream holds a "single float" ([SCALAR_FLOAT]).  The type
    decides what the assignment of line 164 does to the [double] product: a
    [float] narrows it, a [double] would keep it.  It is a parameter of
    [Refresh], and what does not depend on it is stated for both. *)
Inductive ScalarType := SCALAR_FLOAT | SCALAR_DOUBLE.

Definition to_m_value (t : ScalarType) (x : double) : spec_float :=
  match t with
  | SCALAR_FLOAT => narrow x
  | SCALAR_DOUBLE => x
  end.

(** The two output streams: "widthslice" (stream 0, a waveform pointer)
    and "minwidth" (stream 1, the scalar [m_value]). *)
Record Streams := {
  widthslice : option SparseAnalogWaveform;
  minwidth : spec_float
}.

(** ** Refresh *)

Definition ber_max : float := FLT_EPSILON.

(** A column is occupied when its value exceeds [ber_max]. *)
Definition occupied (v : float) : bool := F32.gt v ber_max.

(** Lines 102-110: make sure the voltages are in the right order. *)
Definition order_voltages (vstart vend : float) : float * float :=
  if F32.gt vstart vend then (vend, vstart) else (vstart, vend).

Definition volts_per_row (vrange : float) (din : EyeWaveform) : float :=
  F32.div vrange (F32.of_Z (GetHeight din)).

Definition volts_at_bottom (vrange : float) (din : EyeWaveform) : float :=
  F32.sub (GetCenterVoltage din) (F32.div vrange (F32.of_Z 2)).

(** Lines 117-120 for one threshold: round to the nearest row, convert to
    [size_t], take the minimum with [GetHeight()-1]. *)
Definition bin_of_voltage (vrange : float) (din : EyeWaveform) (v : float)
  : option Z :=
  b <- to_size_t (round (F32.div (F32.sub v (volts_at_bottom vrange din))
                                 (volts_per_row vrange din))) ;;
  Some (Z.min b (wrap_size_t (GetHeight din - 1))).

Definition bins (f : EyeWidthMeasurement) (din : EyeWaveform)
  : option (Z * Z) :=
  let '(vstart, vend) := order_voltages (m_startname f) (m_endname f) in
  start_bin <- bin_of_voltage (GetVoltageRange f) din vstart ;;
  end_bin <- bin_of_voltage (GetVoltageRange f) din vend ;;
  Some (start_bin, end_bin).

(** [row[x]] where [row = data + base]. *)
Definition read (data : list float) (base x : Z) : option float :=
  if base + x <? 0 then None else nth_error data (Z.to_nat (base + x)).

(** One iteration of the loop of lines 140-151. *)
Definition scan_step (data : list float) (base xcenter dx : Z) (c : Z * Z)
  : option (Z * Z) :=
  let '(cleft, cright) := c in
  (* left of center *)
  let x := xcenter - dx in
  v <- read data base x ;;
  let cleft := if F32.gt v ber_max then Z.max cleft x else cleft in
  (* right of center *)
  let x := xcenter + dx in
  v <- read data base x ;;
  let cright := if F32.gt v ber_max then Z.min cright x else cright in
  Some (cleft, cright).

(** [n] more iterations, starting at [dx]. *)
Fixpoint scan_loop (data : list float) (base xcenter : Z) (n : nat) (dx : Z)
  (c : Z * Z) : option (Z * Z) :=
  match n with
  | O => Some c
  | S n' =>
      c' <- scan_step data base xcenter dx c ;;
      scan_loop data base xcenter n' (dx + 1) c'
  end.

(** Lines 134-151: the edges [(cleft, cright)] of the eye in scanline [i]. *)
Definition scan_row (din : EyeWaveform) (i : Z) : option (Z * Z) :=
  let w := int64_of_size_t (GetWidth din) in
  let xcenter := Z.quot w 2 in
  cright <- sub_int64 w 1 ;;
  scan_loop (GetData din) (wrap_size_t (i * w)) xcenter (Z.to_nat xcenter) 0
    (0, cright).

Definition width_fs (din : EyeWaveform) : double :=
  F64.mul (F64.of_Z 2) (m_uiWidth din).

Definition fs_per_pixel (din : EyeWaveform) : double :=
  F64.div (width_fs din) (F64.of_Z (int64_of_size_t (GetWidth din))).

Definition duration_mv (vrange : float) (din : EyeWaveform) : float :=
  F32.mul (volts_per_row vrange din) (F32.of_Z 1000).

Definition base_mv (vrange : float) (din : EyeWaveform) : float :=
  F32.mul (volts_at_bottom vrange din) (F32.of_Z 1000).

(** Line 156. *)
Definition row_value (din : EyeWaveform) (c : Z * Z) : option float :=
  d <- sub_int64 (snd c) (fst c) ;;
  Some (narrow (F64.mul (fs_per_pixel din) (F64.of_Z d))).

(** Line 159. *)
Definition row_offset (vrange : float) (din : EyeWaveform) (i : Z) : option Z :=
  to_int64 (round (F32.add (F32.mul (F32.of_Z i) (duration_mv vrange din))
                           (base_mv vrange din))).

(** Line 160. *)
Definition row_duration (vrange : float) (din : EyeWaveform) : option Z :=
  to_int64 (round (duration_mv vrange din)).

(** The variables the loop over the rows updates. *)
Record LoopState := {
  far_left : Z;
  far_right : Z;
  cap : SparseAnalogWaveform
}.

Definition push_back {A : Type} (l : list A) (a : A) : list A := l ++ [a].

(** The body of the loop of lines 132-162. *)
Definition row_body (vrange : float) (din : EyeWaveform) (i : Z)
  (st : LoopState) : option LoopState :=
  c <- scan_row din i ;;
  value <- row_value din c ;;
  off <- row_offset vrange din i ;;
  dur <- row_duration vrange din ;;
  Some {| far_left := Z.min (far_left st) (fst c);
          far_right := Z.max (far_right st) (snd c);
          cap := {| m_timescale := m_timescale (cap st);
                    m_offsets := push_back (m_offsets (cap st)) off;
                    m_durations := push_back (m_durations (cap st)) dur;
                    m_samples := push_back (m_samples (cap st)) value |} |}.

(** [n] more rows, starting at row [i]. *)
Fixpoint rows_loop (vrange : float) (din : EyeWaveform) (n : nat) (i : Z)
  (st : LoopState) : option LoopState :=
  match n with
  | O => Some st
  | S n' =>
      st' <- row_body vrange din i st ;;
      rows_loop vrange din n' (i + 1) st'
  end.

(** [for(size_t i=start_bin; i <= end_bin; i++)]: with [end_bin = SIZE_MAX]
    the condition never fails and there is no result. *)
Definition for_rows (vrange : float) (din : EyeWaveform)
  (start_bin end_bin : Z) (st : LoopState) : option LoopState :=
  if end_bin =? SIZE_MAX then None
  else rows_loop vrange din (Z.to_nat (end_bin + 1 - start_bin)) start_bin st.

(** [Refresh], given the type [t] of [m_value] and what
    [VerifyAllInputsOK(true)] answered. *)
Definition Refresh (t : ScalarType) (VerifyAllInputsOK : bool)
  (f : EyeWidthMeasurement) : option Streams :=
  if negb VerifyAllInputsOK then
    Some {| widthslice := None; minwidth := NAN |}
  else
    din <- GetInputWaveform f ;;
    let cap0 := {| m_timescale := 1;
                   m_offsets := m_offsets SetupEmptySparseAnalogOutputWaveform;
                   m_durations := m_durations SetupEmptySparseAnalogOutputWaveform;
                   m_samples := m_samples SetupEmptySparseAnalogOutputWaveform |} in
    '(start_bin, end_bin) <- bins f din ;;
    st <- for_rows (GetVoltageRange f) din start_bin end_bin
            {| far_left := INT64_MAX; far_right := INT64_MIN; cap := cap0 |} ;;
    d <- sub_int64 (far_right st) (far_left st) ;;
    Some {| widthslice := Some (cap st);
            minwidth :=
              to_m_value t (F64.mul (fs_per_pixel din) (F64.of_Z d)) |}.

(** ** Notions used to reason about rounding *)

(** [SpecFloat] rounds a mantissa [M] by shifting it right by [k] bits and
    looking at what was shifted out: [loc_of M k] is where the exact
    quotient lies between the two neighbouring integers, [rne M k] the
    quotient rounded to nearest, ties to even. *)
Definition loc_of (M k : Z) : location :=
  if M mod 2 ^ k =? 0 then loc_Exact
  else loc_Inexact (2 * (M mod 2 ^ k) ?= 2 ^ k).

Definition rne (M k : Z) : Z := round_nearest_even (M / 2 ^ k) (loc_of M k).

Definition enough_digits (prec emax : Z) (m : positive) (e : Z) : Prop :=
  e <= fexp prec emax (Z.pos (digits2_pos m) + e).

(** The float made of the rounded mantissa [q] at exponent [E]. *)
Definition build (prec emax : Z) (sx : bool) (q E : Z) : spec_float :=
  if q =? 0 then S754_zero sx
  else if q <? 2 ^ prec then
    if E <=? emax - prec then S754_finite sx (Z.to_pos q) E
    else S754_infinity sx
  else
    if E + 1 <=? emax - prec then S754_finite sx (Z.to_pos (2 ^ (prec - 1))) (E + 1)
    else S754_infinity sx.

(** [m1 * 2^e1 <= m2 * 2^e2], over the integers. *)
Definition vle (m1 : positive) (e1 : Z) (m2 : positive) (e2 : Z) : Prop :=
  Z.pos m1 * 2 ^ (e1 - Z.min e1 e2) <= Z.pos m2 * 2 ^ (e2 - Z.min e1 e2).

(** Zero, a positive finite value in canonical form, or +infinity. *)
Definition nonneg_valid (prec emax : Z) (x : spec_float) : bool :=
  match x with
  | S754_zero _ => true
  | S754_infinity s => negb s
  | S754_nan => false
  | S754_finite s m e => negb s && bounded prec emax m e
  end.

(** Zero or a positive finite value in canonical form. *)
Definition nonneg_finite (prec emax : Z) (x : spec_float) : bool :=
  match x with
  | S754_zero _ => true
  | S754_finite s m e => negb s && bounded prec emax m e
  | _ => false
  end.

(** Zero or a finite value in canonical form, of either sign. *)
Definition finite_valid (prec emax : Z) (x : spec_float) : bool :=
  match x with
  | S754_zero _ => true
  | S754_finite _ m e => bounded prec emax m e
  | _ => false
  end.

(** The magnitude [std::round] yields on [m * 2^e]: halfway cases go away
    from zero. *)
Definition round_mag (m : positive) (e : Z) : Z :=
  if 0 <=? e then Z.pos m * 2 ^ e
  else (Z.pos m + 2 ^ (- e - 1)) / 2 ^ (- e).

(** The integer [std::round] yields on a finite value. *)
Definition round_int (x : spec_float) : Z :=
  match x with
  | S754_finite s m e => cond_Zopp s (round_mag m e)
  | _ => 0
  end.

(** ** Notions used to state the properties *)

(** A well-formed raster: positive dimensions and a buffer holding exactly
    [GetWidth * GetHeight] values. *)
Definition valid_eye (din : EyeWaveform) : Prop :=
  0 < GetWidth din /\ 0 < GetHeight din /\
  GetWidth din * GetHeight din <= INT64_MAX /\
  Z.of_nat (length (GetData din)) = GetWidth din * GetHeight din.

(** The center column, [w / 2]. *)
Definition xcenter (din : EyeWaveform) : Z :=
  Z.quot (int64_of_size_t (GetWidth din)) 2.

Definition occupied_at (data : list float) (base x : Z) : bool :=
  match read data base x with
  | Some v => occupied v
  | None => false
  end.

(** Column [x] of row [i] holds a value above the threshold. *)
Definition column_occupied (din : EyeWaveform) (i x : Z) : bool :=
  occupied_at (GetData din) (i * GetWidth din) x.

(** What the scan of a row leaves in [cleft]: the rightmost occupied column
    among columns 1 to [xcenter] (the center included), column 0 when
    there is none. *)
Definition is_cleft (din : EyeWaveform) (i cleft : Z) : Prop :=
  (cleft = 0 \/
   (1 <= cleft <= xcenter din /\ column_occupied din i cleft = true)) /\
  (forall x, 1 <= x <= xcenter din -> column_occupied din i x = true ->
             x <= cleft).

(** What the scan of a row leaves in [cright]: the leftmost occupied column
    among columns [xcenter] to [2 * xcenter - 1] (the center included), the
    last column when there is none. *)
Definition is_cright (din : EyeWaveform) (i cright : Z) : Prop :=
  (cright = GetWidth din - 1 \/
   (xcenter din <= cright <= 2 * xcenter din - 1 /\
    column_occupied din i cright = true)) /\
  (forall x, xcenter din <= x <= 2 * xcenter din - 1 ->
             column_occupied din i x = true -> cright <= x).

(** Everything one iteration of the loop over the rows computes. *)
Record RowResult := {
  r_cleft : Z;
  r_cright : Z;
  r_value : float;
  r_offset : Z;
  r_duration : Z
}.

Definition row_result (vrange : float) (din : EyeWaveform) (i : Z)
  : option RowResult :=
  c <- scan_row din i ;;
  value <- row_value din c ;;
  off <- row_offset vrange din i ;;
  dur <- row_duration vrange din ;;
  Some {| r_cleft := fst c; r_cright := snd c; r_value := value;
          r_offset := off; r_duration := dur |}.

(** The results of rows [i], [i+1], ..., [i+n-1]. *)
Fixpoint rows_results (vrange : float) (din : EyeWaveform) (n : nat) (i : Z)
  : option (list RowResult) :=
  match n with
  | O => Some []
  | S n' =>
      r <- row_result vrange din i ;;
      rs <- rows_results vrange din n' (i + 1) ;;
      Some (r :: rs)
  end.

(** The state after the rows [rs] have been processed from [st]. *)
Definition after_rows (st : LoopState) (rs : list RowResult) : LoopState :=
  {| far_left := fold_left Z.min (map r_cleft rs) (far_left st);
     far_right := fold_left Z.max (map r_cright rs) (far_right st);
     cap := {| m_timescale := m_timescale (cap st);
               m_offsets := m_offsets (cap st) ++ map r_offset rs;
               m_durations := m_durations (cap st) ++ map r_duration rs;
               m_samples := m_samples (cap st) ++ map r_value rs |} |}.

(** [m] is the least element of the non-empty list [l]. *)
Definition is_min (m : Z) (l : list Z) : Prop :=
  In m l /\ forall z, In z l -> m <= z.

(** [m] is the greatest element of the non-empty list [l]. *)
Definition is_max (m : Z) (l : list Z) : Prop :=
  In m l /\ forall z, In z l -> z <= m.

Definition strictly_increasing (l : list Z) : Prop :=
  forall j k a b, (j < k)%nat -> nth_error l j = Some a ->
                  nth_error l k = Some b -> a < b.

Definition non_decreasing (l : list Z) : Prop :=
  forall j k a b, (j <= k)%nat -> nth_error l j = Some a ->
                  nth_error l k = Some b -> a <= b.

(** The filter with its two parameters exchanged. *)
Definition swap_voltages (f : EyeWidthMeasurement) : EyeWidthMeasurement :=
  {| GetInputWaveform := GetInputWaveform f;
     GetVoltageRange := GetVoltageRange f;
     m_startname := m_endname f;
     m_endname := m_startname f |}.

(** The scalar at the precision of the samples, which are [float]: a
    [double] scalar is rounded as line 156 rounds a sample. *)
Definition scalar_as_sample (t : ScalarType) (x : spec_float) : float :=
  match t with
  | SCALAR_FLOAT => x
  | SCALAR_DOUBLE => narrow x
  end.

(** The samples of the waveform output, when there is one. *)
Definition samples_of (out : option Streams) : option (list float) :=
  s <- out ;; cap <- widthslice s ;; Some (m_samples cap).

Definition offsets_of (out : option Streams) : option (list Z) :=
  s <- out ;; cap <- widthslice s ;; Some (m_offsets cap).

Definition minwidth_of (out : option Streams) : option double :=
  s <- out ;; Some (minwidth s).

(** The specification's wording of the two edges, for comparison with the
    scan: the rightmost occupied column strictly left of the center
    (column 0 when there is none) and the leftmost occupied column strictly
    right of the center (the last column when there is none). *)
Definition Zseq (a : Z) (n : nat) : list Z :=
  map (fun k => a + Z.of_nat k) (seq 0 n).

Definition closure_left_spec (din : EyeWaveform) (i : Z) : Z :=
  fold_left (fun acc x => if column_occupied din i x then Z.max acc x else acc)
    (Zseq 0 (Z.to_nat (xcenter din))) 0.

Definition closure_right_spec (din : EyeWaveform) (i : Z) : Z :=
  fold_left (fun acc x => if column_occupied din i x then Z.min acc x else acc)
    (Zseq (xcenter din + 1) (Z.to_nat (GetWidth din - 1 - xcenter din)))
    (GetWidth din - 1).

Definition time_per_column_spec (din : EyeWaveform) : double :=
  F64.div (F64.mul (F64.of_Z 2) (m_uiWidth din)) (F64.of_Z (GetWidth din)).

Definition row_width_spec (din : EyeWaveform) (i : Z) : float :=
  narrow (F64.mul (time_per_column_spec din)
            (F64.of_Z (closure_right_spec din i - closure_left_spec din i))).

(** ** Concrete rasters *)

Definition zero : float := S754_zero false.
Definition one : float := F32.of_Z 1.

(** Two rows of four columns, 2 V around 0 V, unit interval 500000 fs. *)
Definition eye_2x4 (data : list float) : EyeWaveform :=
  {| GetWidth := 4; GetHeight := 2; GetCenterVoltage := zero;
     m_uiWidth := F64.of_Z 500000; GetData := data |}.

Definition filter_on (din : EyeWaveform) (vrange vstart vend : float)
  : EyeWidthMeasurement :=
  {| GetInputWaveform := Some din; GetVoltageRange := vrange;
     m_startname := vstart; m_endname := vend |}.

(** Two rows of six columns: a hit at column 2 in row 0 and at column 4 in
    row 1. *)
Definition eye_demo : EyeWaveform :=
  {| GetWidth := 6; GetHeight := 2; GetCenterVoltage := zero;
     m_uiWidth := F64.of_Z 500000;
     GetData := [zero; zero; one; zero; zero; zero;
                 zero; zero; zero; zero; one; zero] |}.

Definition filter_demo : EyeWidthMeasurement :=
  filter_on eye_demo (F32.of_Z 2) (F32.of_Z (-1)) (F32.of_Z 1).

(** Hits in the center column only. *)
Definition eye_center_hit : EyeWaveform :=
  eye_2x4 [zero; zero; one; zero;  zero; zero; one; zero].

Definition filter_center_hit : EyeWidthMeasurement :=
  filter_on eye_center_hit (F32.of_Z 2) (F32.of_Z (-1)) (F32.of_Z 1).

(** Every column occupied except the center one. *)
Definition eye_closed : EyeWaveform :=
  eye_2x4 [one; one; zero; one;  one; one; zero; one].

Definition filter_closed : EyeWidthMeasurement :=
  filter_on eye_closed (F32.of_Z 2) (F32.of_Z (-1)) (F32.of_Z 1).

(** Scenario A: 64 rows, 2 V around 0 V (31.25 mV per row). *)
Definition eye_scenario_A : EyeWaveform :=
  {| GetWidth := 4; GetHeight := 64; GetCenterVoltage := zero;
     m_uiWidth := F64.of_Z 500000; GetData := repeat zero 256 |}.

(** Four rows of 2^-11 V (0.48828125 mV) each. *)
Definition eye_fine : EyeWaveform :=
  {| GetWidth := 4; GetHeight := 4; GetCenterVoltage := zero;
     m_uiWidth := F64.of_Z 500000; GetData := repeat zero 16 |}.

Definition filter_fine : EyeWidthMeasurement :=
  filter_on eye_fine (F32.lit 1 (-9)) (F32.lit (-1) (-10)) (F32.lit 1 (-10)).

(** One empty row of three columns: a column lasts 1000000/3 fs. *)
Definition eye_thirds : EyeWaveform :=
  {| GetWidth := 3; GetHeight := 1; GetCenterVoltage := zero;
     m_uiWidth := F64.of_Z 500000; GetData := [zero; zero; zero] |}.

Definition filter_thirds : EyeWidthMeasurement :=
  filter_on eye_thirds (F32.of_Z 2) (F32.of_Z (-1)) (F32.of_Z 1).

(** The raster of [eye_demo] with a unit interval of -500000 fs. *)
Definition eye_negative_ui : EyeWaveform :=
  {| GetWidth := GetWidth eye_demo; GetHeight := GetHeight eye_demo;
     GetCenterVoltage := GetCenterVoltage eye_demo;
     m_uiWidth := F64.of_Z (-500000); GetData := GetData eye_demo |}.

Definition filter_negative_ui : EyeWidthMeasurement :=
  filter_on eye_negative_ui (F32.of_Z 2) (F32.of_Z (-1)) (F32.of_Z 1).

(** What [Refresh] leaves on the two streams for [filter_demo]: row 0
    opens from column 2 to column 5 (500000 fs), row 1 from column 0 to
    column 4 (4/6 of 1000000 fs, rounded to single precision); the scalar
    spans columns 0 to 5 (5/6 of 1000000 fs, rounded likewise). *)
Definition cap_demo : SparseAnalogWaveform :=
  {| m_timescale := 1; m_offsets := [-1000; 0]; m_durations := [1000; 1000];
     m_samples := [F32.of_Z 500000; F32.lit 10666667 (-4)] |}.

Definition streams_demo : Streams :=
  {| widthslice := Some cap_demo;
     minwidth := F32.lit 13333333 (-4) |}.

(** The same for [filter_closed]: both rows open from column 1 to
    column 3. *)
Definition cap_closed : SparseAnalogWaveform :=
  {| m_timescale := 1; m_offsets := [-1000; 0]; m_durations := [1000; 1000];
     m_samples := [F32.of_Z 500000; F32.of_Z 500000] |}.

Definition streams_closed : Streams :=
  {| widthslice := Some cap_closed; minwidth := F32.of_Z 500000 |}.

(** Scenario A with thresholds -0.5 V and 0.5 V, and with a Start Voltage
    of -2 V, one volt below the bottom of the raster (-1 V). *)
Definition filter_scenario_A : EyeWidthMeasurement :=
  filter_on eye_scenario_A (F32.of_Z 2) (F32.lit (-1) (-1)) (F32.lit 1 (-1)).

Definition filter_below : EyeWidthMeasurement :=
  filter_on eye_scenario_A (F32.of_Z 2) (F32.of_Z (-2)) (F32.lit 1 (-1)).

(** Scenario B: 100 columns over two unit intervals of 500000 fs. *)
Definition eye_scenario_B : EyeWaveform :=
  {| GetWidth := 100; GetHeight := 1; GetCenterVoltage := zero;
     m_uiWidth := F64.of_Z 500000; GetData := repeat zero 100 |}.

(** ** Construction *)

(** Modelled from the spec: [AddStream] is a member of the channel base
    class, which is not part of the sources at hand; a filter holds an
    "ordered list of owned output streams" and is "constructed once with
    its static input/output/parameter declarations", so [AddStream]
    appends one stream to the list. *)
Definition AddStream (c : Channel) (k : StreamType) : Channel :=
  {| m_streams := push_back (m_streams c) k |}.

(** Lines 44-45: the streams the constructor declares, "widthslice" and
    "minwidth".  They are the first two of the channel: [Refresh] writes
    the waveform to stream 0 and the scalar to [m_streams[1]]. *)
Definition EyeWidthMeasurement_streams : Channel :=
  AddStream (AddStream {| m_streams := [] |} STREAM_TYPE_ANALOG)
            STREAM_TYPE_ANALOG_SCALAR.

(** ** Notions used to state further properties *)

(** The raster [din] with another sample buffer. *)
Definition with_data (din : EyeWaveform) (data : list float) : EyeWaveform :=
  {| GetWidth := GetWidth din; GetHeight := GetHeight din;
     GetCenterVoltage := GetCenterVoltage din; m_uiWidth := m_uiWidth din;
     GetData := data |}.

(** The filter [f] with another waveform behind its input. *)
Definition with_input (f : EyeWidthMeasurement) (din : EyeWaveform)
  : EyeWidthMeasurement :=
  {| GetInputWaveform := Some din; GetVoltageRange := GetVoltageRange f;
     m_startname := m_startname f; m_endname := m_endname f |}.

Definition is_zero (x : spec_float) : bool :=
  match x with
  | S754_zero _ => true
  | _ => false
  end.

(** Neither an infinity nor a NaN. *)
Definition is_finite (x : spec_float) : bool :=
  match x with
  | S754_zero _ | S754_finite _ _ _ => true
  | _ => false
  end.

(** +infinity or a positive finite value. *)
Definition is_positive (x : spec_float) : bool :=
  match x with
  | S754_infinity false | S754_finite false _ _ => true
  | _ => false
  end.

(** * Properties *)

(** ** The floating-point model on known values *)

Example FLT_EPSILON_canonical :
  FLT_EPSILON = S754_finite false 8388608 (-46).
Proof. reflexivity. Qed.

Example round_half_up : round (F32.lit 5 (-1)) = F32.of_Z 3.
Proof. reflexivity. Qed.

Example round_half_down : round (F32.lit (-5) (-1)) = F32.of_Z (-3).
Proof. reflexivity. Qed.

Example round_small : round (F32.lit (-3) (-3)) = S754_zero true.
Proof. reflexivity. Qed.

Example to_size_t_negative : to_size_t (F32.of_Z (-32)) = None.
Proof. reflexivity. Qed.

Example to_size_t_minus_zero : to_size_t (S754_zero true) = Some 0.
Proof. reflexivity. Qed.

Example narrow_rounds_up :
  narrow (F64.div (F64.of_Z 2000000) (F64.of_Z 3)) = F32.lit 10666667 (-4).
Proof. reflexivity. Qed.

Example div_one_third :
  F32.div (F32.of_Z 1) (F32.of_Z 3) = S754_finite false 11184811 (-25).
Proof. reflexivity. Qed.

Example to_int64_round : to_int64 (round (F32.lit (-3) (-1))) = Some (-2).
Proof. reflexivity. Qed.

Example to_int64_nan : to_int64 (round NAN) = None.
Proof. reflexivity. Qed.

(** Scenario B: 10000 fs per column; a row open from column 40 to column
    60 is 200000 fs wide. *)
Example scenario_B :
  fs_per_pixel eye_scenario_B = F64.of_Z 10000 /\
  row_value eye_scenario_B (40, 60) = Some (F32.of_Z 200000).
Proof. vm_compute. split; reflexivity. Qed.

(** ** Rounding to nearest even is monotone *)

Lemma digits2_pos_bounds (m : positive) :
  2 ^ (Z.pos (digits2_pos m) - 1) <= Z.pos m < 2 ^ Z.pos (digits2_pos m).
Proof.
  induction m as [p IH|p IH|]; cbn [digits2_pos].
  - rewrite Pos2Z.inj_succ.
    replace (Z.succ (Z.pos (digits2_pos p)) - 1) with (Z.succ (Z.pos (digits2_pos p) - 1)) by lia.
    rewrite !Z.pow_succ_r by lia. lia.
  - rewrite Pos2Z.inj_succ.
    replace (Z.succ (Z.pos (digits2_pos p)) - 1) with (Z.succ (Z.pos (digits2_pos p) - 1)) by lia.
    rewrite !Z.pow_succ_r by lia. lia.
  - simpl. lia.
Qed.

Lemma digits2_pos_le (m : positive) (k : Z) :
  Z.pos m < 2 ^ k -> Z.pos (digits2_pos m) <= k.
Proof.
  intros H. destruct (digits2_pos_bounds m) as (Hlo & _).
  destruct (Z.le_gt_cases (Z.pos (digits2_pos m)) k) as [|Hgt]; [assumption|].
  exfalso.
  assert (0 <= k).
  { destruct (Z.le_gt_cases 0 k); [assumption|].
    rewrite Z.pow_neg_r in H by lia. lia. }
  assert (2 ^ k <= 2 ^ (Z.pos (digits2_pos m) - 1))
    by (apply Z.pow_le_mono_r; lia).
  lia.
Qed.

Lemma digits2_pos_ge (m : positive) (k : Z) :
  2 ^ (k - 1) <= Z.pos m -> k <= Z.pos (digits2_pos m).
Proof.
  intros H. destruct (digits2_pos_bounds m) as (_ & Hhi).
  destruct (Z.le_gt_cases k (Z.pos (digits2_pos m))) as [|Hgt]; [assumption|].
  exfalso.
  assert (2 ^ Z.pos (digits2_pos m) <= 2 ^ (k - 1))
    by (apply Z.pow_le_mono_r; lia).
  lia.
Qed.

Lemma iter_pos_nat {A : Type} (f : A -> A) (p : positive) :
  forall x, iter_pos f p x = Nat.iter (Pos.to_nat p) f x.
Proof.
  induction p as [p IH|p IH|]; intros x; cbn [iter_pos].
  - rewrite !IH. rewrite Pos2Nat.inj_xI.
    replace (S (2 * Pos.to_nat p)) with (Pos.to_nat p + (Pos.to_nat p + 1))%nat by lia.
    rewrite !Nat.iter_add. simpl. reflexivity.
  - rewrite !IH. rewrite Pos2Nat.inj_xO.
    replace (2 * Pos.to_nat p)%nat with (Pos.to_nat p + Pos.to_nat p)%nat by lia.
    rewrite Nat.iter_add. reflexivity.
  - reflexivity.
Qed.

Lemma shr_1_m (mrs : shr_record) :
  0 <= shr_m mrs ->
  shr_1 mrs = {| shr_m := shr_m mrs / 2; shr_r := Z.odd (shr_m mrs);
                 shr_s := shr_r mrs || shr_s mrs |}.
Proof.
  destruct mrs as [m r s]. simpl. intros Hm.
  rewrite <- Z.div2_div.
  destruct m as [|[p|p|]|p]; try reflexivity; lia.
Qed.

Lemma loc_of_shr_record_sticky (mrs : shr_record) (M k : Z) :
  loc_of_shr_record mrs = loc_of M k ->
  shr_r mrs || shr_s mrs = negb (M mod 2 ^ k =? 0).
Proof.
  unfold loc_of. destruct mrs as [m [|] [|]]; simpl;
    destruct (M mod 2 ^ k =? 0); simpl; intros H;
    try reflexivity; try discriminate.
Qed.

Lemma shr_iter (M : Z) :
  0 <= M ->
  forall k : nat,
    shr_m (Nat.iter k shr_1 {| shr_m := M; shr_r := false; shr_s := false |})
      = M / 2 ^ Z.of_nat k /\
    loc_of_shr_record
      (Nat.iter k shr_1 {| shr_m := M; shr_r := false; shr_s := false |})
      = loc_of M (Z.of_nat k).
Proof.
  intros HM. induction k as [|k (IHm & IHl)].
  - simpl. rewrite Z.div_1_r. unfold loc_of. rewrite Z.mod_1_r. auto.
  - rewrite !Nat.iter_succ.
    set (mrs := Nat.iter k shr_1 {| shr_m := M; shr_r := false; shr_s := false |}) in *.
    assert (Hpow : 0 < 2 ^ Z.of_nat k) by (apply Z.pow_pos_nonneg; lia).
    assert (Hm0 : 0 <= shr_m mrs).
    { rewrite IHm. apply Z.div_pos; lia. }
    rewrite (shr_1_m mrs Hm0). cbn [shr_m].
    rewrite Nat2Z.inj_succ, Z.pow_succ_r by lia.
    split.
    + rewrite IHm. rewrite Z.div_div by lia. f_equal. lia.
    + rewrite (loc_of_shr_record_sticky _ _ _ IHl).
      unfold loc_of. rewrite Z.pow_succ_r by lia.
      rewrite (Z.mul_comm 2 (2 ^ Z.of_nat k)).
      rewrite Z.rem_mul_r by lia.
      rewrite <- IHm.
      pose proof (Z.mod_pos_bound M (2 ^ Z.of_nat k) Hpow) as HR.
      rewrite Zodd_mod.
      pose proof (Z.mod_pos_bound (shr_m mrs) 2 ltac:(lia)) as Hb.
      destruct (Z.eqb_spec (shr_m mrs mod 2) 1) as [H1|H1];
        destruct (Z.eqb_spec (M mod 2 ^ Z.of_nat k) 0) as [H0|H0];
        cbn [negb loc_of_shr_record].
      * rewrite H1, H0.
        destruct (Z.eqb_spec (0 + 2 ^ Z.of_nat k * 1) 0); [lia|].
        f_equal. symmetry. apply Z.compare_eq_iff. lia.
      * rewrite H1.
        destruct (Z.eqb_spec (M mod 2 ^ Z.of_nat k + 2 ^ Z.of_nat k * 1) 0); [lia|].
        f_equal. symmetry. apply Z.compare_gt_iff. lia.
      * assert (H2 : shr_m mrs mod 2 = 0) by lia. rewrite H2, H0.
        rewrite Z.mul_0_r. reflexivity.
      * assert (H2 : shr_m mrs mod 2 = 0) by lia. rewrite H2.
        destruct (Z.eqb_spec (M mod 2 ^ Z.of_nat k + 2 ^ Z.of_nat k * 0) 0); [lia|].
        f_equal. symmetry. apply Z.compare_lt_iff. lia.
Qed.

Lemma shr_spec (M e n : Z) :
  0 <= M ->
  shr_m (fst (shr {| shr_m := M; shr_r := false; shr_s := false |} e n))
    = M / 2 ^ Z.max 0 n /\
  loc_of_shr_record
    (fst (shr {| shr_m := M; shr_r := false; shr_s := false |} e n))
    = loc_of M (Z.max 0 n) /\
  snd (shr {| shr_m := M; shr_r := false; shr_s := false |} e n)
    = e + Z.max 0 n.
Proof.
  intros HM. destruct n as [|p|p]; cbn [shr fst snd].
  - simpl Z.max. rewrite Z.div_1_r, Z.add_0_r. unfold loc_of.
    rewrite Z.mod_1_r. auto.
  - rewrite iter_pos_nat.
    destruct (shr_iter M HM (Pos.to_nat p)) as (Hm & Hl).
    rewrite positive_nat_Z in Hm, Hl.
    replace (Z.max 0 (Z.pos p)) with (Z.pos p) by lia. auto.
  - replace (Z.max 0 (Z.neg p)) with 0 by lia.
    rewrite Z.div_1_r, Z.add_0_r. unfold loc_of.
    rewrite Z.mod_1_r. auto.
Qed.

Lemma rne_bounds (M k : Z) :
  M / 2 ^ k <= rne M k <= M / 2 ^ k + 1.
Proof.
  unfold rne, loc_of, round_nearest_even.
  destruct (M mod 2 ^ k =? 0); [lia|].
  destruct (2 * (M mod 2 ^ k) ?= 2 ^ k); try lia.
  destruct (Z.even (M / 2 ^ k)); lia.
Qed.

Lemma rne_0 (M : Z) : rne M 0 = M.
Proof.
  unfold rne, loc_of. rewrite Z.pow_0_r, Z.mod_1_r, Z.div_1_r. reflexivity.
Qed.

Lemma rne_mono_aux (M1 M2 A B : Z) :
  0 <= M1 -> 0 <= M2 -> 0 < A -> 0 < B ->
  M1 * B <= M2 * A ->
  round_nearest_even (M1 / A)
    (if M1 mod A =? 0 then loc_Exact else loc_Inexact (2 * (M1 mod A) ?= A))
  <= round_nearest_even (M2 / B)
    (if M2 mod B =? 0 then loc_Exact else loc_Inexact (2 * (M2 mod B) ?= B)).
Proof.
  intros H1 H2 HA HB Hle.
  pose proof (Z.div_mod M1 A ltac:(lia)) as E1.
  pose proof (Z.div_mod M2 B ltac:(lia)) as E2.
  pose proof (Z.mod_pos_bound M1 A HA) as R1.
  pose proof (Z.mod_pos_bound M2 B HB) as R2.
  set (q1 := M1 / A) in *. set (r1 := M1 mod A) in *.
  set (q2 := M2 / B) in *. set (r2 := M2 mod B) in *.
  assert (Hq : q1 <= q2).
  { destruct (Z.le_gt_cases q1 q2) as [|Hgt]; [assumption|exfalso].
    assert (M2 * A < (q2 + 1) * B * A) by nia.
    assert ((q2 + 1) * A * B <= M1 * B) by nia.
    lia. }
  destruct (Z.eq_dec q1 q2) as [Heq|Hne].
  - assert (Hr : r1 * B <= r2 * A) by nia.
    rewrite <- Heq. unfold round_nearest_even.
    destruct (Z.eqb_spec r1 0) as [Hr1|Hr1];
      destruct (Z.eqb_spec r2 0) as [Hr2|Hr2].
    + lia.
    + destruct (2 * r2 ?= B); try lia. destruct (Z.even q1); lia.
    + exfalso. nia.
    + destruct (Z.compare_spec (2 * r1) A) as [C1|C1|C1];
        destruct (Z.compare_spec (2 * r2) B) as [C2|C2|C2];
        try lia; try (destruct (Z.even q1); lia); exfalso; nia.
  - assert (Hlt : q1 + 1 <= q2) by lia.
    transitivity (q1 + 1); [|transitivity q2; [assumption|]].
    + unfold round_nearest_even.
      destruct (r1 =? 0); [lia|].
      destruct (2 * r1 ?= A); try lia. destruct (Z.even q1); lia.
    + unfold round_nearest_even.
      destruct (r2 =? 0); [lia|].
      destruct (2 * r2 ?= B); try lia. destruct (Z.even q2); lia.
Qed.

Lemma rne_mono (M1 k1 M2 k2 : Z) :
  0 <= M1 -> 0 <= M2 -> 0 <= k1 -> 0 <= k2 ->
  M1 * 2 ^ k2 <= M2 * 2 ^ k1 -> rne M1 k1 <= rne M2 k2.
Proof.
  intros H1 H2 K1 K2 Hle. unfold rne, loc_of.
  apply rne_mono_aux; try assumption; apply Z.pow_pos_nonneg; lia.
Qed.

Lemma rne_upper (M k p : Z) :
  0 <= M -> 0 <= k -> 0 <= p -> M < 2 ^ (k + p) -> rne M k <= 2 ^ p.
Proof.
  intros HM Hk Hp H. destruct (rne_bounds M k) as (_ & Hu).
  assert (M / 2 ^ k < 2 ^ p).
  { apply Z.div_lt_upper_bound; [apply Z.pow_pos_nonneg; lia|].
    rewrite <- Z.pow_add_r by lia. assumption. }
  lia.
Qed.

Lemma rne_lower (M k p : Z) :
  0 <= k -> 0 <= p -> 2 ^ (k + p) <= M -> 2 ^ p <= rne M k.
Proof.
  intros Hk Hp H. destruct (rne_bounds M k) as (Hl & _).
  assert (2 ^ p <= M / 2 ^ k).
  { apply Z.div_le_lower_bound; [apply Z.pow_pos_nonneg; lia|].
    rewrite <- Z.pow_add_r by lia. assumption. }
  lia.
Qed.

Lemma rne_nonneg (M k : Z) : 0 <= M -> 0 <= k -> 0 <= rne M k.
Proof.
  intros HM Hk. destruct (rne_bounds M k) as (Hl & _).
  assert (0 <= M / 2 ^ k) by (apply Z.div_pos; [lia|apply Z.pow_pos_nonneg; lia]).
  lia.
Qed.

Section RoundingSpec.
Variables prec emax : Z.
Hypothesis Hprec : 0 < prec.
Hypothesis Hemax : prec < emax.

Lemma fexp_ge_emin (e : Z) : emin prec emax <= fexp prec emax e.
Proof. unfold fexp. lia. Qed.

Lemma fexp_mono (e1 e2 : Z) : e1 <= e2 -> fexp prec emax e1 <= fexp prec emax e2.
Proof. unfold fexp. lia. Qed.

Lemma digits2_pow2 (p : Z) :
  0 <= p -> Z.pos (digits2_pos (Z.to_pos (2 ^ p))) = p + 1.
Proof.
  intros Hp.
  assert (H0 : 0 < 2 ^ p) by (apply Z.pow_pos_nonneg; lia).
  apply Z.le_antisymm.
  - apply digits2_pos_le. rewrite Z2Pos.id by assumption.
    apply Z.pow_lt_mono_r; lia.
  - apply digits2_pos_ge. rewrite Z2Pos.id by assumption.
    replace (p + 1 - 1) with p by lia. lia.
Qed.

Lemma binary_round_aux_spec (sx : bool) (m : positive) (e : Z) :
  enough_digits prec emax m e ->
  binary_round_aux prec emax sx (Z.pos m) e loc_Exact =
  build prec emax sx
    (rne (Z.pos m) (fexp prec emax (Z.pos (digits2_pos m) + e) - e))
    (fexp prec emax (Z.pos (digits2_pos m) + e)).
Proof.
  unfold enough_digits. intros Hen.
  set (E := fexp prec emax (Z.pos (digits2_pos m) + e)) in *.
  set (n := E - e). assert (Hn : 0 <= n) by (unfold n; lia).
  unfold binary_round_aux, shr_fexp.
  cbn [shr_record_of_loc Zdigits2]. fold E. fold n.
  destruct (shr_spec (Z.pos m) e n ltac:(lia)) as (Hm1 & Hl1 & He1).
  destruct (shr {| shr_m := Z.pos m; shr_r := false; shr_s := false |} e n)
    as [mrs' e'] eqn:Hs1.
  cbn [fst snd] in Hm1, Hl1, He1.
  replace (Z.max 0 n) with n in * by lia.
  assert (Hq : round_nearest_even (shr_m mrs') (loc_of_shr_record mrs')
               = rne (Z.pos m) n).
  { rewrite Hm1, Hl1. reflexivity. }
  rewrite Hq. set (q := rne (Z.pos m) n) in *.
  rewrite He1. replace (e + n) with E by (unfold n; lia). clear He1.
  assert (Hq0 : 0 <= q) by (apply rne_nonneg; lia).
  assert (HqU : q <= 2 ^ prec).
  { apply rne_upper; try lia.
    destruct (digits2_pos_bounds m) as (_ & Hhi).
    eapply Z.lt_le_trans; [exact Hhi|].
    apply Z.pow_le_mono_r; [lia|]. unfold n, E, fexp. lia. }
  assert (HEmin : emin prec emax <= E) by apply fexp_ge_emin.
  assert (Hpp : 0 < 2 ^ prec) by (apply Z.pow_pos_nonneg; lia).
  destruct (shr_spec q E (fexp prec emax (Zdigits2 q + E) - E) Hq0)
    as (Hm2 & _ & He2).
  destruct (shr {| shr_m := q; shr_r := false; shr_s := false |} E
              (fexp prec emax (Zdigits2 q + E) - E)) as [mrs'' e''] eqn:Hs2.
  cbn [fst snd] in Hm2, He2.
  cbv beta iota.
  unfold build.
  destruct (Z.eqb_spec q 0) as [Hz|Hnz].
  - rewrite Hz in Hm2. rewrite Z.div_0_l in Hm2
      by (apply Z.pow_nonzero; lia).
    rewrite Hm2. reflexivity.
  - destruct (Z.ltb_spec q (2 ^ prec)) as [Hlt|Hge].
    + assert (Hd : Zdigits2 q <= prec).
      { destruct q as [|p|p]; try lia. cbn [Zdigits2].
        apply digits2_pos_le. assumption. }
      assert (Hn2 : Z.max 0 (fexp prec emax (Zdigits2 q + E) - E) = 0)
        by (unfold fexp; lia).
      rewrite Hn2 in Hm2, He2. rewrite Z.pow_0_r, Z.div_1_r in Hm2.
      rewrite Z.add_0_r in He2. rewrite Hm2, He2.
      destruct q as [|p|p]; try lia. reflexivity.
    + assert (Hq2 : q = 2 ^ prec) by lia.
      assert (Hd : Zdigits2 q = prec + 1).
      { rewrite Hq2. destruct (2 ^ prec) as [|p|p] eqn:Hp2; try lia.
        cbn [Zdigits2]. rewrite <- (digits2_pow2 prec) by lia.
        rewrite Hp2. reflexivity. }
      assert (Hn2 : Z.max 0 (fexp prec emax (Zdigits2 q + E) - E) = 1)
        by (rewrite Hd; unfold fexp; lia).
      rewrite Hn2 in Hm2, He2. rewrite Z.pow_1_r in Hm2.
      assert (Hhalf : q / 2 = 2 ^ (prec - 1)).
      { rewrite Hq2. replace prec with (Z.succ (prec - 1)) at 1 by lia.
        rewrite Z.pow_succ_r by lia. rewrite Z.mul_comm, Z.div_mul; lia. }
      rewrite Hhalf in Hm2. rewrite Hm2, He2.
      assert (0 < 2 ^ (prec - 1)) by (apply Z.pow_pos_nonneg; lia).
      destruct (2 ^ (prec - 1)) as [|p|p]; try lia. reflexivity.
Qed.

End RoundingSpec.

Lemma SFleb_pos_finite (p1 : positive) (x1 : Z) (p2 : positive) (x2 : Z) :
  SFleb (S754_finite false p1 x1) (S754_finite false p2 x2) = true <->
  x1 < x2 \/ (x1 = x2 /\ Z.pos p1 <= Z.pos p2).
Proof.
  unfold SFleb, SFcompare.
  destruct (Z.compare_spec x1 x2) as [He|He|He].
  - change (Pos.compare_cont Eq p1 p2) with (Pos.compare p1 p2).
    destruct (Pos.compare_spec p1 p2) as [Hp|Hp|Hp]; split; intros H;
      try discriminate; try reflexivity; try lia.
  - split; intros _; [lia|reflexivity].
  - split; intros H; [discriminate|lia].
Qed.

Lemma SFleb_zero_l (prec emax : Z) (s : bool) (x : spec_float) :
  nonneg_valid prec emax x = true -> SFleb (S754_zero s) x = true.
Proof.
  destruct x as [sx|sx| |sx m e]; simpl; try discriminate; try reflexivity.
  - destruct sx; [discriminate|reflexivity].
  - destruct sx; [discriminate|reflexivity].
Qed.

Lemma SFleb_inf_r (prec emax : Z) (x : spec_float) :
  nonneg_valid prec emax x = true -> SFleb x (S754_infinity false) = true.
Proof.
  destruct x as [sx|sx| |sx m e]; simpl; try discriminate; try reflexivity.
  destruct sx; [discriminate|reflexivity].
Qed.

Section RoundingMonotone.
Variables prec emax : Z.
Hypothesis Hprec : 0 < prec.
Hypothesis Hemax : prec < emax.

Lemma pow2_prec : 2 ^ prec = 2 * 2 ^ (prec - 1) /\ 0 < 2 ^ (prec - 1).
Proof.
  split; [|apply Z.pow_pos_nonneg; lia].
  replace prec with (Z.succ (prec - 1)) at 1 by lia.
  rewrite Z.pow_succ_r by lia. reflexivity.
Qed.

Lemma build_mono (q1 E1 q2 E2 : Z) :
  0 <= q1 <= 2 ^ prec -> 0 <= q2 <= 2 ^ prec ->
  (E1 = E2 /\ q1 <= q2) \/ (E1 < E2 /\ 2 ^ (prec - 1) <= q2) ->
  SFleb (build prec emax false q1 E1) (build prec emax false q2 E2) = true.
Proof.
  intros H1 H2 H. destruct pow2_prec as (Hp & Hp0). unfold build.
  destruct (Z.eqb_spec q1 0) as [Z1|Z1]; destruct (Z.eqb_spec q2 0) as [Z2|Z2];
    destruct (Z.ltb_spec q1 (2 ^ prec)) as [L1|L1];
    destruct (Z.ltb_spec q2 (2 ^ prec)) as [L2|L2];
    destruct (Z.leb_spec E1 (emax - prec)) as [B1|B1];
    destruct (Z.leb_spec E2 (emax - prec)) as [B2|B2];
    destruct (Z.leb_spec (E1 + 1) (emax - prec)) as [C1|C1];
    destruct (Z.leb_spec (E2 + 1) (emax - prec)) as [C2|C2];
    try reflexivity; try (exfalso; lia);
    try (apply SFleb_pos_finite; rewrite !Z2Pos.id by lia; lia).
Qed.

Lemma build_nonneg_valid (q E : Z) :
  emin prec emax <= E -> 0 <= q <= 2 ^ prec ->
  (emin prec emax < E -> 2 ^ (prec - 1) <= q) ->
  nonneg_valid prec emax (build prec emax false q E) = true.
Proof.
  intros HE Hq Hn. destruct pow2_prec as (Hp & Hp0). unfold build.
  destruct (Z.eqb_spec q 0) as [Z1|Z1]; [reflexivity|].
  destruct (Z.ltb_spec q (2 ^ prec)) as [L1|L1].
  - destruct (Z.leb_spec E (emax - prec)) as [B1|B1]; [|reflexivity].
    cbn [nonneg_valid negb andb]. unfold bounded, canonical_mantissa.
    apply andb_true_intro; split; [|apply Z.leb_le; assumption].
    apply Z.eqb_eq.
    assert (Hd : Z.pos (digits2_pos (Z.to_pos q)) <= prec)
      by (apply digits2_pos_le; rewrite Z2Pos.id by lia; assumption).
    unfold fexp.
    destruct (Z.eq_dec E (emin prec emax)) as [He|He]; [lia|].
    assert (prec <= Z.pos (digits2_pos (Z.to_pos q)))
      by (apply digits2_pos_ge; rewrite Z2Pos.id by lia; apply Hn; lia).
    lia.
  - destruct (Z.leb_spec (E + 1) (emax - prec)) as [B1|B1]; [|reflexivity].
    cbn [nonneg_valid negb andb]. unfold bounded, canonical_mantissa.
    apply andb_true_intro; split; [|apply Z.leb_le; assumption].
    apply Z.eqb_eq. rewrite digits2_pow2 by lia. unfold fexp. lia.
Qed.

Lemma binary_round_aux_range (m : positive) (e : Z) :
  enough_digits prec emax m e ->
  let E := fexp prec emax (Z.pos (digits2_pos m) + e) in
  let q := rne (Z.pos m) (E - e) in
  0 <= q <= 2 ^ prec /\ emin prec emax <= E /\
  (emin prec emax < E -> 2 ^ (prec - 1) <= q).
Proof.
  intros Hen. cbv zeta. unfold enough_digits in Hen.
  set (E := fexp prec emax (Z.pos (digits2_pos m) + e)) in *.
  destruct (digits2_pos_bounds m) as (Hlo & Hhi).
  split; [split|split].
  - apply rne_nonneg; lia.
  - apply rne_upper; try lia.
    eapply Z.lt_le_trans; [exact Hhi|].
    apply Z.pow_le_mono_r; [lia|]. unfold E, fexp. lia.
  - apply fexp_ge_emin.
  - intros HE. apply rne_lower; try lia.
    eapply Z.le_trans; [|exact Hlo].
    apply Z.pow_le_mono_r; [lia|]. unfold E, fexp in *. lia.
Qed.

Lemma vle_digits (m1 : positive) (e1 : Z) (m2 : positive) (e2 : Z) :
  vle m1 e1 m2 e2 ->
  Z.pos (digits2_pos m1) + e1 <= Z.pos (digits2_pos m2) + e2.
Proof.
  unfold vle. intros H.
  destruct (digits2_pos_bounds m1) as (Hlo1 & _).
  destruct (digits2_pos_bounds m2) as (_ & Hhi2).
  set (e0 := Z.min e1 e2) in *.
  assert (Ha : 0 <= e1 - e0) by (unfold e0; lia).
  assert (Hb : 0 <= e2 - e0) by (unfold e0; lia).
  assert (Hpa : 0 < 2 ^ (e1 - e0)) by (apply Z.pow_pos_nonneg; lia).
  assert (Hpb : 0 < 2 ^ (e2 - e0)) by (apply Z.pow_pos_nonneg; lia).
  assert (Hlt : 2 ^ (Z.pos (digits2_pos m1) - 1 + (e1 - e0))
                < 2 ^ (Z.pos (digits2_pos m2) + (e2 - e0))).
  { rewrite !Z.pow_add_r by lia. nia. }
  apply Z.pow_lt_mono_r_iff in Hlt; lia.
Qed.

Lemma vle_scale (m1 : positive) (e1 : Z) (m2 : positive) (e2 E : Z) :
  vle m1 e1 m2 e2 -> e1 <= E -> e2 <= E ->
  Z.pos m1 * 2 ^ (E - e2) <= Z.pos m2 * 2 ^ (E - e1).
Proof.
  unfold vle. intros H H1 H2.
  set (e0 := Z.min e1 e2) in *.
  set (c := E - Z.max e1 e2).
  assert (Hc : 0 <= c) by (unfold c; lia).
  replace (E - e2) with (e1 - e0 + c) by (unfold c, e0; lia).
  replace (E - e1) with (e2 - e0 + c) by (unfold c, e0; lia).
  rewrite !Z.pow_add_r by (unfold e0; lia).
  assert (0 < 2 ^ c) by (apply Z.pow_pos_nonneg; lia).
  nia.
Qed.

Lemma binary_round_aux_mono (m1 : positive) (e1 : Z) (m2 : positive) (e2 : Z) :
  enough_digits prec emax m1 e1 -> enough_digits prec emax m2 e2 ->
  vle m1 e1 m2 e2 ->
  SFleb (binary_round_aux prec emax false (Z.pos m1) e1 loc_Exact)
        (binary_round_aux prec emax false (Z.pos m2) e2 loc_Exact) = true.
Proof.
  intros En1 En2 Hv.
  rewrite !binary_round_aux_spec by assumption.
  destruct (binary_round_aux_range m1 e1 En1) as (Hq1 & HE1 & Hn1).
  destruct (binary_round_aux_range m2 e2 En2) as (Hq2 & HE2 & Hn2).
  apply build_mono; try assumption.
  pose proof (vle_digits _ _ _ _ Hv) as Hd.
  pose proof (fexp_mono prec emax _ _ Hd) as HE.
  unfold enough_digits in En1, En2.
  destruct (Z.eq_dec (fexp prec emax (Z.pos (digits2_pos m1) + e1))
                     (fexp prec emax (Z.pos (digits2_pos m2) + e2)))
    as [Heq|Hne].
  - left. split; [assumption|].
    apply rne_mono; try lia.
    rewrite <- Heq. apply vle_scale; try assumption. lia.
  - right. split; [lia|]. apply Hn2. lia.
Qed.

Lemma binary_round_aux_nonneg_valid (m : positive) (e : Z) :
  enough_digits prec emax m e ->
  nonneg_valid prec emax
    (binary_round_aux prec emax false (Z.pos m) e loc_Exact) = true.
Proof.
  intros En. rewrite binary_round_aux_spec by assumption.
  destruct (binary_round_aux_range m e En) as (Hq & HE & Hn).
  apply build_nonneg_valid; assumption.
Qed.

End RoundingMonotone.

Lemma vle_low (m1 : positive) (e1 : Z) (m2 : positive) (e2 E : Z) :
  E <= e1 -> E <= e2 ->
  (vle m1 e1 m2 e2 <->
   Z.pos m1 * 2 ^ (e1 - E) <= Z.pos m2 * 2 ^ (e2 - E)).
Proof.
  intros H1 H2. unfold vle. set (e0 := Z.min e1 e2).
  set (c := e0 - E). assert (Hc : 0 <= c) by (unfold c, e0; lia).
  replace (e1 - E) with (e1 - e0 + c) by (unfold c; lia).
  replace (e2 - E) with (e2 - e0 + c) by (unfold c; lia).
  rewrite !Z.pow_add_r by (unfold e0; lia).
  assert (Hpc : 0 < 2 ^ c) by (apply Z.pow_pos_nonneg; lia).
  split; intros Hv; nia.
Qed.

Lemma pos_iter_xO (m d : positive) :
  Z.pos (Pos.iter xO m d) = Z.pos m * 2 ^ Z.pos d.
Proof.
  change (Pos.iter xO m d) with (shift_pos d m).
  rewrite shift_pos_correct. change (Z.pow_pos 2 d) with (2 ^ Z.pos d). lia.
Qed.

Lemma digits2_pos_shift (m m' : positive) (k : Z) :
  0 <= k -> Z.pos m' = Z.pos m * 2 ^ k ->
  Z.pos (digits2_pos m') = Z.pos (digits2_pos m) + k.
Proof.
  intros Hk Hm. destruct (digits2_pos_bounds m) as (Hlo & Hhi).
  assert (Hp : 0 < 2 ^ k) by (apply Z.pow_pos_nonneg; lia).
  apply Z.le_antisymm.
  - apply digits2_pos_le. rewrite Hm, Z.pow_add_r by lia. nia.
  - apply digits2_pos_ge. rewrite Hm.
    replace (Z.pos (digits2_pos m) + k - 1)
      with (Z.pos (digits2_pos m) - 1 + k) by lia.
    rewrite Z.pow_add_r by lia. nia.
Qed.

Section RoundingStages.
Variables prec emax : Z.
Hypothesis Hprec : 0 < prec.
Hypothesis Hemax : prec < emax.

Lemma bounded_canonical (m : positive) (e : Z) :
  bounded prec emax m e = true ->
  Z.pos (digits2_pos m) <= prec /\ emin prec emax <= e /\
  (emin prec emax < e -> Z.pos (digits2_pos m) = prec).
Proof.
  unfold bounded, canonical_mantissa, fexp. intros H.
  apply andb_prop in H. destruct H as (H & _). apply Z.eqb_eq in H. lia.
Qed.

Lemma bounded_leb_vle (m1 : positive) (e1 : Z) (m2 : positive) (e2 : Z) :
  bounded prec emax m1 e1 = true -> bounded prec emax m2 e2 = true ->
  SFleb (S754_finite false m1 e1) (S754_finite false m2 e2) = true ->
  vle m1 e1 m2 e2.
Proof.
  intros B1 B2 H. apply SFleb_pos_finite in H.
  apply bounded_canonical in B1, B2.
  destruct B1 as (D1 & E1 & N1). destruct B2 as (D2 & E2 & N2).
  destruct (digits2_pos_bounds m1) as (_ & Hhi1).
  destruct (digits2_pos_bounds m2) as (Hlo2 & _).
  destruct (pow2_prec prec Hprec) as (Hp & Hp0).
  unfold vle. destruct H as [Hlt|(Heq & Hm)].
  - replace (Z.min e1 e2) with e1 by lia.
    rewrite Z.sub_diag, Z.pow_0_r.
    rewrite (N2 ltac:(lia)) in Hlo2.
    assert (Z.pos m1 < 2 ^ prec).
    { eapply Z.lt_le_trans; [exact Hhi1|]. apply Z.pow_le_mono_r; lia. }
    assert (2 ^ 1 <= 2 ^ (e2 - e1)) by (apply Z.pow_le_mono_r; lia).
    rewrite Z.pow_1_r in *. nia.
  - subst e2. rewrite Z.min_id, Z.sub_diag, Z.pow_0_r. lia.
Qed.

Lemma bounded_enough_mul (m1 : positive) (e1 : Z) (m2 : positive) (e2 : Z) :
  bounded prec emax m1 e1 = true -> bounded prec emax m2 e2 = true ->
  enough_digits prec emax (m1 * m2) (e1 + e2).
Proof.
  intros B1 B2. apply bounded_canonical in B1, B2.
  destruct B1 as (D1 & E1 & N1). destruct B2 as (D2 & E2 & N2).
  destruct (digits2_pos_bounds m1) as (Hlo1 & _).
  destruct (digits2_pos_bounds m2) as (Hlo2 & _).
  assert (Hd : Z.pos (digits2_pos m1) + Z.pos (digits2_pos m2) - 1
               <= Z.pos (digits2_pos (m1 * m2))).
  { apply digits2_pos_ge. rewrite Pos2Z.inj_mul.
    replace (Z.pos (digits2_pos m1) + Z.pos (digits2_pos m2) - 1 - 1)
      with ((Z.pos (digits2_pos m1) - 1) + (Z.pos (digits2_pos m2) - 1)) by lia.
    rewrite Z.pow_add_r by lia.
    assert (0 < 2 ^ (Z.pos (digits2_pos m1) - 1)) by (apply Z.pow_pos_nonneg; lia).
    assert (0 < 2 ^ (Z.pos (digits2_pos m2) - 1)) by (apply Z.pow_pos_nonneg; lia).
    nia. }
  unfold enough_digits, fexp. unfold emin in *. lia.
Qed.

Lemma vle_mul (mf : positive) (ef : Z) (m1 : positive) (e1 : Z)
  (m2 : positive) (e2 : Z) :
  vle m1 e1 m2 e2 -> vle (mf * m1) (ef + e1) (mf * m2) (ef + e2).
Proof.
  unfold vle. intros H. rewrite Z.add_min_distr_l.
  replace (ef + e1 - (ef + Z.min e1 e2)) with (e1 - Z.min e1 e2) by lia.
  replace (ef + e2 - (ef + Z.min e1 e2)) with (e2 - Z.min e1 e2) by lia.
  rewrite !Pos2Z.inj_mul. nia.
Qed.

Lemma SFmul_nonneg_valid (mf : positive) (ef : Z) (x : spec_float) :
  bounded prec emax mf ef = true -> nonneg_valid prec emax x = true ->
  nonneg_valid prec emax (SFmul prec emax (S754_finite false mf ef) x) = true.
Proof.
  intros Bf Hx. destruct x as [sx|sx| |sx m e]; cbn [SFmul xorb].
  - reflexivity.
  - exact Hx.
  - discriminate.
  - cbn [nonneg_valid] in Hx. apply andb_prop in Hx. destruct Hx as (Hs & Bx).
    destruct sx; [discriminate|]. cbn [xorb].
    apply binary_round_aux_nonneg_valid; try assumption.
    apply bounded_enough_mul; assumption.
Qed.

Lemma SFmul_mono (mf : positive) (ef : Z) (x y : spec_float) :
  bounded prec emax mf ef = true ->
  nonneg_valid prec emax x = true -> nonneg_valid prec emax y = true ->
  SFleb x y = true ->
  SFleb (SFmul prec emax (S754_finite false mf ef) x)
        (SFmul prec emax (S754_finite false mf ef) y) = true.
Proof.
  intros Bf Hx Hy Hle.
  pose proof (SFmul_nonneg_valid mf ef y Bf Hy) as Vy.
  destruct x as [sx|sx| |sx mx ex].
  - cbn [SFmul]. apply (SFleb_zero_l prec emax). exact Vy.
  - destruct sx; [discriminate|].
    destruct y as [sy|sy| |sy my ey]; simpl in Hle; try discriminate.
    destruct sy; [discriminate|]. reflexivity.
  - discriminate.
  - cbn [nonneg_valid] in Hx. apply andb_prop in Hx. destruct Hx as (Hs & Bx).
    destruct sx; [discriminate|].
    destruct y as [sy|sy| |sy my ey]; simpl in Hle; try discriminate.
    + destruct sy; [discriminate|].
      cbn [SFmul xorb] in *. apply (SFleb_inf_r prec emax).
      apply binary_round_aux_nonneg_valid; try assumption.
      apply bounded_enough_mul; assumption.
    + cbn [nonneg_valid] in Hy. apply andb_prop in Hy. destruct Hy as (Hsy & By).
      destruct sy; [discriminate|]. cbn [SFmul xorb].
      apply binary_round_aux_mono; try assumption;
        try (apply bounded_enough_mul; assumption).
      apply vle_mul. apply bounded_leb_vle; assumption.
Qed.

(** [binary_round] first aligns the mantissa, keeping the value. *)
Lemma shl_align_fexp (m : positive) (e : Z) :
  exists mz ez,
    shl_align m e (fexp prec emax (Z.pos (digits2_pos m) + e)) = (mz, ez) /\
    ez <= e /\ Z.pos mz = Z.pos m * 2 ^ (e - ez) /\
    enough_digits prec emax mz ez.
Proof.
  unfold shl_align.
  set (E := fexp prec emax (Z.pos (digits2_pos m) + e)).
  destruct (E - e) as [|d|d] eqn:Hd.
  - exists m, e. rewrite Z.sub_diag, Z.pow_0_r.
    repeat split; try lia. unfold enough_digits. fold E. lia.
  - exists m, e. rewrite Z.sub_diag, Z.pow_0_r.
    repeat split; try lia. unfold enough_digits. fold E. lia.
  - exists (Pos.iter xO m d), E.
    assert (He : e - E = Z.pos d) by lia.
    split; [reflexivity|]. split; [lia|].
    split; [rewrite He; apply pos_iter_xO|].
    unfold enough_digits.
    rewrite (digits2_pos_shift m (Pos.iter xO m d) (Z.pos d));
      [|lia|apply pos_iter_xO].
    replace (Z.pos (digits2_pos m) + Z.pos d + E)
      with (Z.pos (digits2_pos m) + e) by lia.
    fold E. lia.
Qed.

Lemma binary_round_nonneg_valid (m : positive) (e : Z) :
  nonneg_valid prec emax (binary_round prec emax false m e) = true.
Proof.
  unfold binary_round.
  destruct (shl_align_fexp m e) as (mz & ez & -> & _ & _ & En).
  apply binary_round_aux_nonneg_valid; assumption.
Qed.

Lemma binary_round_mono (m1 : positive) (e1 : Z) (m2 : positive) (e2 : Z) :
  vle m1 e1 m2 e2 ->
  SFleb (binary_round prec emax false m1 e1)
        (binary_round prec emax false m2 e2) = true.
Proof.
  intros Hv. unfold binary_round.
  destruct (shl_align_fexp m1 e1) as (mz1 & ez1 & -> & L1 & V1 & En1).
  destruct (shl_align_fexp m2 e2) as (mz2 & ez2 & -> & L2 & V2 & En2).
  apply binary_round_aux_mono; try assumption.
  set (E := Z.min ez1 ez2).
  apply (vle_low _ _ _ _ E); [unfold E; lia|unfold E; lia|].
  apply (vle_low _ _ _ _ E) in Hv; [|unfold E; lia|unfold E; lia].
  rewrite V1, V2.
  rewrite <- !Z.mul_assoc, <- !Z.pow_add_r by (unfold E; lia).
  replace (e1 - ez1 + (ez1 - E)) with (e1 - E) by lia.
  replace (e2 - ez2 + (ez2 - E)) with (e2 - E) by lia.
  exact Hv.
Qed.

End RoundingStages.

Lemma nonneg_finite_valid (prec emax : Z) (x : spec_float) :
  nonneg_finite prec emax x = true -> nonneg_valid prec emax x = true.
Proof. destruct x; simpl; auto; discriminate. Qed.

Section RoundingFinite.
Variables prec emax : Z.
Hypothesis Hprec : 0 < prec.
Hypothesis Hemax : prec < emax.

Lemma binary_round_finite (m : positive) (e : Z) :
  Z.pos (digits2_pos m) + e <= emax - 1 ->
  nonneg_finite prec emax (binary_round prec emax false m e) = true.
Proof.
  intros Hd.
  pose proof (binary_round_nonneg_valid prec emax Hprec m e) as Hv.
  unfold binary_round in *.
  destruct (shl_align_fexp prec emax m e) as (mz & ez & Heq & L & V & En).
  rewrite Heq in *.
  rewrite (binary_round_aux_spec prec emax Hprec) in * by assumption.
  assert (Hdz : Z.pos (digits2_pos mz) + ez = Z.pos (digits2_pos m) + e).
  { rewrite (digits2_pos_shift m mz (e - ez)); [lia|lia|assumption]. }
  rewrite Hdz in *.
  set (E := fexp prec emax (Z.pos (digits2_pos m) + e)) in *.
  assert (HE : E + 1 <= emax - prec) by (unfold E, fexp, emin; lia).
  unfold build in *.
  destruct (rne (Z.pos mz) (E - ez) =? 0); [reflexivity|].
  destruct (rne (Z.pos mz) (E - ez) <? 2 ^ prec).
  - destruct (Z.leb_spec E (emax - prec)); [exact Hv|lia].
  - destruct (Z.leb_spec (E + 1) (emax - prec)); [exact Hv|lia].
Qed.

End RoundingFinite.

Lemma F32_prec : 0 < F32.prec. Proof. reflexivity. Qed.
Lemma F32_emax : F32.prec < F32.emax. Proof. reflexivity. Qed.
Lemma F64_prec : 0 < F64.prec. Proof. reflexivity. Qed.
Lemma F64_emax : F64.prec < F64.emax. Proof. reflexivity. Qed.

Lemma F64_of_Z_nonneg_finite (a : Z) :
  0 <= a <= INT64_MAX ->
  nonneg_finite F64.prec F64.emax (F64.of_Z a) = true.
Proof.
  intros Ha. unfold F64.of_Z, binary_normalize.
  destruct a as [|p|p]; [reflexivity| |lia].
  apply (binary_round_finite F64.prec F64.emax F64_prec F64_emax).
  assert (Z.pos (digits2_pos p) <= 63).
  { apply digits2_pos_le. unfold INT64_MAX in Ha. lia. }
  unfold F64.emax. lia.
Qed.

Lemma F64_of_Z_mono (a b : Z) :
  0 <= a <= b -> SFleb (F64.of_Z a) (F64.of_Z b) = true.
Proof.
  intros H. unfold F64.of_Z, binary_normalize.
  destruct a as [|p|p]; [|destruct b as [|q|q]|]; try lia.
  - apply (SFleb_zero_l F64.prec F64.emax).
    destruct b as [|q|q]; [reflexivity| |lia].
    apply (binary_round_nonneg_valid F64.prec F64.emax F64_prec).
  - apply (binary_round_mono F64.prec F64.emax F64_prec).
    unfold vle. rewrite Z.min_id, Z.sub_diag, Z.pow_0_r. lia.
Qed.

Lemma narrow_nonneg_valid (x : double) :
  nonneg_valid F64.prec F64.emax x = true ->
  nonneg_valid F32.prec F32.emax (narrow x) = true.
Proof.
  destruct x as [sx|sx| |sx m e]; cbn [narrow nonneg_valid]; auto.
  intros H. apply andb_prop in H. destruct H as (Hs & _).
  destruct sx; [discriminate|].
  apply (binary_round_nonneg_valid F32.prec F32.emax F32_prec).
Qed.

Lemma narrow_mono (x y : double) :
  nonneg_valid F64.prec F64.emax x = true ->
  nonneg_valid F64.prec F64.emax y = true ->
  SFleb x y = true -> SFleb (narrow x) (narrow y) = true.
Proof.
  intros Hx Hy Hle.
  pose proof (narrow_nonneg_valid y Hy) as Vy.
  pose proof (narrow_nonneg_valid x Hx) as Vx.
  destruct x as [sx|sx| |sx mx ex].
  - apply (SFleb_zero_l F32.prec F32.emax). exact Vy.
  - destruct sx; [discriminate|].
    destruct y as [sy|sy| |sy my ey]; simpl in Hle; try discriminate.
    destruct sy; [discriminate|]. reflexivity.
  - discriminate.
  - cbn [nonneg_valid] in Hx. apply andb_prop in Hx. destruct Hx as (Hs & Bx).
    destruct sx; [discriminate|].
    destruct y as [sy|sy| |sy my ey]; simpl in Hle; try discriminate.
    + destruct sy; [discriminate|].
      apply (SFleb_inf_r F32.prec F32.emax). exact Vx.
    + cbn [nonneg_valid] in Hy. apply andb_prop in Hy. destruct Hy as (Hsy & By).
      destruct sy; [discriminate|]. cbn [narrow].
      apply (binary_round_mono F32.prec F32.emax F32_prec).
      apply (bounded_leb_vle F64.prec F64.emax F64_prec); assumption.
Qed.

(** The width of [a] columns, as a sample, is at most the width of
    [b >= a] columns. *)
Lemma width_mono (fs : double) (a b : Z) :
  nonneg_finite F64.prec F64.emax fs = true ->
  0 <= a <= b -> b <= INT64_MAX ->
  SFleb (narrow (F64.mul fs (F64.of_Z a))) (narrow (F64.mul fs (F64.of_Z b)))
    = true.
Proof.
  intros Hfs Hab Hb.
  pose proof (F64_of_Z_nonneg_finite a ltac:(lia)) as Fa.
  pose proof (F64_of_Z_nonneg_finite b ltac:(lia)) as Fb.
  pose proof (F64_of_Z_mono a b Hab) as Hle.
  destruct fs as [sf|sf| |sf mf ef]; try discriminate.
  - assert (Hz : forall x, nonneg_finite F64.prec F64.emax x = true ->
                   exists s, narrow (F64.mul (S754_zero sf) x) = S754_zero s).
    { intros x Hx. destruct x as [sx|sx| |sx m e]; try discriminate;
        eexists; reflexivity. }
    destruct (Hz _ Fa) as (s1 & ->). destruct (Hz _ Fb) as (s2 & ->).
    reflexivity.
  - cbn [nonneg_finite] in Hfs. apply andb_prop in Hfs.
    destruct Hfs as (Hs & Bf). destruct sf; [discriminate|].
    apply narrow_mono.
    + apply (SFmul_nonneg_valid F64.prec F64.emax F64_prec F64_emax);
        [assumption|apply nonneg_finite_valid; assumption].
    + apply (SFmul_nonneg_valid F64.prec F64.emax F64_prec F64_emax);
        [assumption|apply nonneg_finite_valid; assumption].
    + apply (SFmul_mono F64.prec F64.emax F64_prec F64_emax);
        try assumption; apply nonneg_finite_valid; assumption.
Qed.

(** ** Signed values: addition and rounding to an integer *)

Lemma SFcompare_opp (x y : spec_float) :
  SFcompare (SFopp y) (SFopp x) = SFcompare x y.
Proof.
  destruct x as [sx|sx| |sx mx ex], y as [sy|sy| |sy my ey]; simpl;
    try reflexivity;
    try (destruct sx; reflexivity); try (destruct sy; reflexivity);
    try (destruct sx, sy; reflexivity).
  pose proof (Pos.compare_cont_antisym mx my Eq) as Hp. simpl in Hp.
  destruct sx, sy; simpl; try reflexivity;
    rewrite (Z.compare_antisym ex ey);
    destruct (ex ?= ey); simpl; try reflexivity;
    rewrite <- Hp; destruct (Pos.compare_cont Eq mx my); reflexivity.
Qed.

Lemma SFleb_opp (x y : spec_float) :
  SFleb (SFopp y) (SFopp x) = SFleb x y.
Proof. unfold SFleb. rewrite SFcompare_opp. reflexivity. Qed.

Lemma SFleb_refl_finite (s : bool) (m : positive) (e : Z) :
  SFleb (S754_finite s m e) (S754_finite s m e) = true.
Proof.
  unfold SFleb, SFcompare. rewrite Z.compare_refl.
  change (Pos.compare_cont Eq m m) with (Pos.compare m m).
  rewrite Pos.compare_refl. destruct s; reflexivity.
Qed.

(** A negative or zero value is below a non-negative one. *)
Lemma SFleb_neg_pos (prec emax : Z) (x y : spec_float) :
  nonneg_valid prec emax x = true -> nonneg_valid prec emax y = true ->
  SFleb (SFopp x) y = true.
Proof.
  destruct x as [sx|sx| |sx mx ex], y as [sy|sy| |sy my ey]; simpl;
    intros Hx Hy; try discriminate; try reflexivity;
    try (destruct sx; try discriminate; destruct sy; try discriminate; reflexivity);
    try (destruct sx; try discriminate; reflexivity);
    try (destruct sy; try discriminate; reflexivity).
Qed.

Section Signed.
Variables prec emax : Z.
Hypothesis Hprec : 0 < prec.
Hypothesis Hemax : prec < emax.

Lemma build_opp (q E : Z) :
  build prec emax true q E = SFopp (build prec emax false q E).
Proof.
  unfold build.
  destruct (q =? 0); [reflexivity|].
  destruct (q <? 2 ^ prec).
  - destruct (E <=? emax - prec); reflexivity.
  - destruct (E + 1 <=? emax - prec); reflexivity.
Qed.

Lemma binary_round_opp (m : positive) (e : Z) :
  binary_round prec emax true m e = SFopp (binary_round prec emax false m e).
Proof.
  unfold binary_round.
  destruct (shl_align_fexp prec emax m e) as (mz & ez & -> & _ & _ & En).
  rewrite !(binary_round_aux_spec prec emax Hprec) by assumption.
  apply build_opp.
Qed.

(** Rounding is monotone on signed mantissas: [z1 * 2^e1 <= z2 * 2^e2]
    is written at a common exponent [E0]. *)
Lemma binary_normalize_mono (z1 e1 z2 e2 E0 : Z) (s1 s2 : bool) :
  E0 <= e1 -> E0 <= e2 ->
  z1 * 2 ^ (e1 - E0) <= z2 * 2 ^ (e2 - E0) ->
  SFleb (binary_normalize prec emax z1 e1 s1)
        (binary_normalize prec emax z2 e2 s2) = true.
Proof.
  intros H1 H2 Hle.
  assert (P1 : 0 < 2 ^ (e1 - E0)) by (apply Z.pow_pos_nonneg; lia).
  assert (P2 : 0 < 2 ^ (e2 - E0)) by (apply Z.pow_pos_nonneg; lia).
  unfold binary_normalize.
  destruct z1 as [|p1|p1], z2 as [|p2|p2]; try (exfalso; nia).
  - reflexivity.
  - apply (SFleb_zero_l prec emax).
    apply binary_round_nonneg_valid; assumption.
  - apply binary_round_mono; [assumption|].
    apply (vle_low _ _ _ _ E0); assumption.
  - rewrite binary_round_opp.
    apply (SFleb_neg_pos prec emax); [|reflexivity].
    apply binary_round_nonneg_valid; assumption.
  - rewrite binary_round_opp.
    apply (SFleb_neg_pos prec emax);
      apply binary_round_nonneg_valid; assumption.
  - rewrite !binary_round_opp, SFleb_opp.
    apply binary_round_mono; [assumption|].
    apply (vle_low _ _ _ _ E0); try assumption.
    change (Z.neg p1) with (- Z.pos p1) in Hle.
    change (Z.neg p2) with (- Z.pos p2) in Hle. lia.
Qed.

(** A value in canonical form is its own rounding. *)
Lemma binary_round_canonical (s : bool) (m : positive) (e : Z) :
  bounded prec emax m e = true ->
  binary_round prec emax s m e = S754_finite s m e.
Proof.
  intros B. pose proof B as B'. unfold bounded in B'.
  apply andb_prop in B'. destruct B' as (Hc & He).
  unfold canonical_mantissa in Hc. apply Z.eqb_eq in Hc. apply Z.leb_le in He.
  destruct (bounded_canonical prec emax m e B) as (Hd & _ & _).
  unfold binary_round, shl_align. rewrite Hc, Z.sub_diag.
  rewrite (binary_round_aux_spec prec emax Hprec)
    by (unfold enough_digits; lia).
  rewrite Hc, Z.sub_diag, rne_0. unfold build.
  destruct (digits2_pos_bounds m) as (_ & Hhi).
  assert (Z.pos m < 2 ^ prec).
  { eapply Z.lt_le_trans; [exact Hhi|]. apply Z.pow_le_mono_r; lia. }
  destruct (Z.eqb_spec (Z.pos m) 0); [lia|].
  destruct (Z.ltb_spec (Z.pos m) (2 ^ prec)); [|lia].
  destruct (Z.leb_spec e (emax - prec)); [|lia].
  reflexivity.
Qed.

End Signed.

Lemma cond_Zopp_mul (s : bool) (a c : Z) :
  cond_Zopp s a * c = cond_Zopp s (a * c).
Proof. destruct s; simpl; lia. Qed.

Lemma pow2_split (e ez E0 : Z) :
  E0 <= ez -> ez <= e -> 2 ^ (e - ez) * 2 ^ (ez - E0) = 2 ^ (e - E0).
Proof.
  intros H1 H2. rewrite <- Z.pow_add_r by lia. f_equal. lia.
Qed.

Lemma shl_align_fst (m : positive) (e ez : Z) :
  ez <= e -> Z.pos (fst (shl_align m e ez)) = Z.pos m * 2 ^ (e - ez).
Proof.
  intros H. unfold shl_align.
  destruct (ez - e) as [|d|d] eqn:Hd; cbn [fst].
  - replace (e - ez) with 0 by lia. lia.
  - lia.
  - replace (e - ez) with (Z.pos d) by lia. apply pos_iter_xO.
Qed.

Lemma nonneg_valid_valid_binary (prec emax : Z) (x : spec_float) :
  nonneg_valid prec emax x = true -> valid_binary prec emax x = true.
Proof.
  destruct x as [s|s| |s m e]; simpl; auto.
  intros H. apply andb_prop in H. tauto.
Qed.

Lemma valid_binary_opp (prec emax : Z) (x : spec_float) :
  valid_binary prec emax (SFopp x) = valid_binary prec emax x.
Proof. destruct x; reflexivity. Qed.

Lemma finite_valid_valid_binary (prec emax : Z) (x : spec_float) :
  finite_valid prec emax x = true -> valid_binary prec emax x = true.
Proof. destruct x; simpl; auto. Qed.

Lemma nonneg_finite_finite_valid (prec emax : Z) (x : spec_float) :
  nonneg_finite prec emax x = true -> finite_valid prec emax x = true.
Proof.
  destruct x as [s|s| |s m e]; simpl; auto.
  intros H. apply andb_prop in H. tauto.
Qed.

Section Addition.
Variables prec emax : Z.
Hypothesis Hprec : 0 < prec.
Hypothesis Hemax : prec < emax.

Lemma binary_normalize_valid (z e : Z) (s : bool) :
  valid_binary prec emax (binary_normalize prec emax z e s) = true.
Proof.
  unfold binary_normalize. destruct z as [|p|p]; [reflexivity| |].
  - apply nonneg_valid_valid_binary.
    apply binary_round_nonneg_valid; assumption.
  - rewrite (binary_round_opp prec emax Hprec), valid_binary_opp.
    apply nonneg_valid_valid_binary.
    apply binary_round_nonneg_valid; assumption.
Qed.

Lemma SFadd_finite (s1 : bool) (m1 : positive) (e1 : Z)
  (s2 : bool) (m2 : positive) (e2 : Z) :
  SFadd prec emax (S754_finite s1 m1 e1) (S754_finite s2 m2 e2) =
  binary_normalize prec emax
    (cond_Zopp s1 (Z.pos m1 * 2 ^ (e1 - Z.min e1 e2)) +
     cond_Zopp s2 (Z.pos m2 * 2 ^ (e2 - Z.min e1 e2)))
    (Z.min e1 e2) false.
Proof.
  cbn [SFadd]. rewrite !shl_align_fst by lia. reflexivity.
Qed.

Lemma SFadd_valid (x y : spec_float) :
  valid_binary prec emax x = true -> valid_binary prec emax y = true ->
  valid_binary prec emax (SFadd prec emax x y) = true.
Proof.
  intros Hx Hy.
  destruct x as [sx|sx| |sx mx ex], y as [sy|sy| |sy my ey];
    try reflexivity; try assumption;
    try (cbn [SFadd]; destruct sx, sy; reflexivity).
  rewrite SFadd_finite. apply binary_normalize_valid.
Qed.

Lemma SFadd_mono_l (x1 x2 b : spec_float) :
  nonneg_finite prec emax x1 = true -> nonneg_finite prec emax x2 = true ->
  finite_valid prec emax b = true ->
  SFleb x1 x2 = true ->
  SFleb (SFadd prec emax x1 b) (SFadd prec emax x2 b) = true.
Proof.
  intros H1 H2 Hb Hle.
  destruct b as [sb|sb| |sb mb eb]; try discriminate.
  - (* zero *)
    destruct x1 as [s1|s1| |s1 m1 e1]; try discriminate;
      destruct x2 as [s2|s2| |s2 m2 e2]; try discriminate.
    + cbn [SFadd]. destruct s1, s2, sb; reflexivity.
    + cbn [SFadd].
      destruct s1, sb; apply (SFleb_zero_l prec emax);
        apply nonneg_finite_valid; exact H2.
    + cbn [nonneg_finite] in H1. apply andb_prop in H1.
      destruct H1 as (Hs & _). destruct s1; discriminate.
    + cbn [SFadd]. exact Hle.
  - (* finite *)
    cbn [finite_valid] in Hb.
    pose proof (binary_round_canonical prec emax Hprec sb mb eb Hb) as Hid.
    assert (Hbn : S754_finite sb mb eb
                  = binary_normalize prec emax (cond_Zopp sb (Z.pos mb)) eb false).
    { unfold binary_normalize. destruct sb; simpl; symmetry; exact Hid. }
    destruct x1 as [s1|s1| |s1 m1 e1]; try discriminate;
      destruct x2 as [s2|s2| |s2 m2 e2]; try discriminate.
    + cbn [SFadd]. apply SFleb_refl_finite.
    + cbn [nonneg_finite] in H2. apply andb_prop in H2.
      destruct H2 as (Hs2 & B2). destruct s2; [discriminate|].
      rewrite SFadd_finite.
      change (SFadd prec emax (S754_zero s1) (S754_finite sb mb eb))
        with (S754_finite sb mb eb).
      rewrite Hbn at 1.
      set (E0 := Z.min e2 eb).
      apply (binary_normalize_mono prec emax Hprec Hemax _ _ _ _ E0);
        [unfold E0; lia|lia|].
      rewrite Z.sub_diag, Z.pow_0_r, Z.mul_1_r.
      rewrite cond_Zopp_mul. cbn [cond_Zopp].
      assert (0 < 2 ^ (e2 - E0)) by (apply Z.pow_pos_nonneg; unfold E0; lia).
      assert (0 < 2 ^ (eb - E0)) by (apply Z.pow_pos_nonneg; unfold E0; lia).
      destruct sb; cbn [cond_Zopp]; nia.
    + cbn [nonneg_finite] in H1. apply andb_prop in H1.
      destruct H1 as (Hs & _). destruct s1; discriminate.
    + cbn [nonneg_finite] in H1, H2.
      apply andb_prop in H1. destruct H1 as (Hs1 & B1).
      apply andb_prop in H2. destruct H2 as (Hs2 & B2).
      destruct s1; [discriminate|]. destruct s2; [discriminate|].
      rewrite !SFadd_finite. cbn [cond_Zopp].
      set (E0 := Z.min (Z.min e1 eb) (Z.min e2 eb)).
      apply (binary_normalize_mono prec emax Hprec Hemax _ _ _ _ E0);
        [unfold E0; lia|unfold E0; lia|].
      rewrite !Z.mul_add_distr_r, !cond_Zopp_mul.
      rewrite <- !Z.mul_assoc.
      rewrite !pow2_split by (unfold E0; lia).
      pose proof (bounded_leb_vle prec emax Hprec _ _ _ _ B1 B2 Hle) as Hv.
      apply (vle_low _ _ _ _ E0) in Hv; [|unfold E0; lia|unfold E0; lia].
      lia.
Qed.

End Addition.

Lemma round_mag_scaled (m : positive) (e K : Z) :
  1 <= K -> - e <= K ->
  round_mag m e = (Z.pos m * 2 ^ (e + K) + 2 ^ (K - 1)) / 2 ^ K.
Proof.
  intros HK HeK. unfold round_mag.
  assert (PK : 0 < 2 ^ K) by (apply Z.pow_pos_nonneg; lia).
  assert (PK1 : 0 < 2 ^ (K - 1)) by (apply Z.pow_pos_nonneg; lia).
  assert (Hhalf : 2 ^ K = 2 * 2 ^ (K - 1)).
  { replace K with (Z.succ (K - 1)) at 1 by lia.
    rewrite Z.pow_succ_r by lia. reflexivity. }
  destruct (Z.leb_spec 0 e) as [He|He].
  - rewrite Z.pow_add_r by lia. rewrite Z.mul_assoc.
    rewrite Z.div_add_l by lia. rewrite Z.div_small by lia. lia.
  - set (k := - e). assert (Hk : 1 <= k <= K) by (unfold k; lia).
    replace (e + K) with (K - k) by (unfold k; lia).
    replace (2 ^ K) with (2 ^ k * 2 ^ (K - k))
      by (rewrite <- Z.pow_add_r by lia; f_equal; lia).
    replace (2 ^ (K - 1)) with (2 ^ (k - 1) * 2 ^ (K - k))
      by (rewrite <- Z.pow_add_r by lia; f_equal; lia).
    rewrite <- Z.mul_add_distr_r.
    rewrite Z.div_mul_cancel_r;
      [reflexivity|apply Z.pow_nonzero; lia|apply Z.pow_nonzero; lia].
Qed.

Lemma round_mag_nonneg (m : positive) (e : Z) : 0 <= round_mag m e.
Proof.
  unfold round_mag. destruct (Z.leb_spec 0 e).
  - assert (0 < 2 ^ e) by (apply Z.pow_pos_nonneg; lia). nia.
  - apply Z.div_pos; [|apply Z.pow_pos_nonneg; lia].
    assert (0 < 2 ^ (- e - 1)) by (apply Z.pow_pos_nonneg; lia). lia.
Qed.

Lemma round_mag_mono (m1 : positive) (e1 : Z) (m2 : positive) (e2 : Z) :
  vle m1 e1 m2 e2 -> round_mag m1 e1 <= round_mag m2 e2.
Proof.
  intros Hv. set (K := Z.max 1 (Z.max (- e1) (- e2))).
  rewrite (round_mag_scaled m1 e1 K), (round_mag_scaled m2 e2 K)
    by (unfold K; lia).
  apply Z.div_le_mono; [apply Z.pow_pos_nonneg; unfold K; lia|].
  apply (vle_low _ _ _ _ (- K)) in Hv; [|unfold K; lia|unfold K; lia].
  replace (e1 + K) with (e1 - - K) by lia.
  replace (e2 + K) with (e2 - - K) by lia. lia.
Qed.

Lemma round_mag_le (m : positive) (e : Z) : e < 0 -> round_mag m e <= Z.pos m.
Proof.
  intros He. unfold round_mag. destruct (Z.leb_spec 0 e); [lia|].
  assert (Hp : 0 < 2 ^ (- e - 1)) by (apply Z.pow_pos_nonneg; lia).
  assert (Hh : 2 ^ (- e) = 2 * 2 ^ (- e - 1)).
  { replace (- e) with (Z.succ (- e - 1)) at 1 by lia.
    rewrite Z.pow_succ_r by lia. reflexivity. }
  apply Z.div_le_upper_bound; [lia|]. rewrite Hh. nia.
Qed.

Section RoundInt.
Variables prec emax : Z.
Hypothesis Hprec : 0 < prec.
Hypothesis Hemax : prec < emax.

(** A small integer is converted exactly. *)
Lemma binary_round_exact (s : bool) (p : positive) :
  Z.pos p < 2 ^ prec ->
  exists mz E,
    binary_round prec emax s p 0 = S754_finite s mz E /\
    E <= 0 /\ Z.pos mz = Z.pos p * 2 ^ (- E).
Proof.
  intros Hp.
  assert (Hd : Z.pos (digits2_pos p) <= prec) by (apply digits2_pos_le; assumption).
  set (E := fexp prec emax (Z.pos (digits2_pos p) + 0)).
  assert (HE : E <= 0) by (unfold E, fexp, emin; lia).
  assert (HEmin : emin prec emax <= E) by (unfold E, fexp; lia).
  unfold binary_round. fold E.
  assert (Hsh : exists mz, shl_align p 0 E = (mz, E) /\
                           Z.pos mz = Z.pos p * 2 ^ (- E)).
  { unfold shl_align. destruct (E - 0) as [|d|d] eqn:Hd0; try lia.
    - exists p. assert (E = 0) by lia. subst E. rewrite H.
      split; [reflexivity|]. simpl. lia.
    - exists (Pos.iter xO p d). split; [reflexivity|].
      rewrite pos_iter_xO. f_equal. f_equal. lia. }
  destruct Hsh as (mz & -> & Hmz).
  assert (Hdz : Z.pos (digits2_pos mz) = Z.pos (digits2_pos p) + - E)
    by (apply digits2_pos_shift; [lia|assumption]).
  assert (HEz : fexp prec emax (Z.pos (digits2_pos mz) + E) = E).
  { rewrite Hdz. unfold E. f_equal. lia. }
  rewrite (binary_round_aux_spec prec emax Hprec)
    by (unfold enough_digits; lia).
  rewrite HEz, Z.sub_diag, rne_0. unfold build.
  destruct (digits2_pos_bounds mz) as (_ & Hhi).
  assert (Z.pos mz < 2 ^ prec).
  { eapply Z.lt_le_trans; [exact Hhi|]. apply Z.pow_le_mono_r; [lia|].
    rewrite Hdz. unfold E, fexp. lia. }
  destruct (Z.eqb_spec (Z.pos mz) 0); [lia|].
  destruct (Z.ltb_spec (Z.pos mz) (2 ^ prec)); [|lia].
  destruct (Z.leb_spec E (emax - prec)); [|lia].
  exists mz, E. auto.
Qed.

Lemma trunc_binary_normalize (s : bool) (n : Z) :
  0 <= n < 2 ^ prec ->
  trunc (binary_normalize prec emax (cond_Zopp s n) 0 s)
    = Some (cond_Zopp s n).
Proof.
  intros Hn. destruct n as [|p|p]; [destruct s; reflexivity| |lia].
  assert (Hb : binary_normalize prec emax (cond_Zopp s (Z.pos p)) 0 s
               = binary_round prec emax s p 0) by (destruct s; reflexivity).
  rewrite Hb.
  destruct (binary_round_exact s p ltac:(lia)) as (mz & E & -> & HE & Hmz).
  unfold trunc. rewrite Hmz.
  destruct (Z.leb_spec 0 E).
  - replace E with 0 by lia. simpl. f_equal. f_equal. lia.
  - rewrite Z.div_mul by (apply Z.pow_nonzero; lia). reflexivity.
Qed.

End RoundInt.

Lemma SFmul_comm (prec emax : Z) (x y : spec_float) :
  SFmul prec emax x y = SFmul prec emax y x.
Proof.
  destruct x as [sx|sx| |sx mx ex], y as [sy|sy| |sy my ey]; cbn [SFmul];
    rewrite ?(xorb_comm sx sy); try reflexivity.
  rewrite (Pos.mul_comm mx my), (Z.add_comm ex ey). reflexivity.
Qed.

Section RoundIntMono.
Variables prec emax : Z.
Hypothesis Hprec : 0 < prec.
Hypothesis Hemax : prec < emax.

Lemma round_int_mono (x y : spec_float) :
  finite_valid prec emax x = true -> finite_valid prec emax y = true ->
  SFleb x y = true -> round_int x <= round_int y.
Proof.
  intros Hx Hy Hle.
  destruct x as [sx|sx| |sx mx ex]; try discriminate;
    destruct y as [sy|sy| |sy my ey]; try discriminate;
    cbn [round_int finite_valid] in *.
  - destruct sy; [discriminate|]. cbn [cond_Zopp].
    apply round_mag_nonneg.
  - destruct sx; [|discriminate]. cbn [cond_Zopp].
    pose proof (round_mag_nonneg mx ex). lia.
  - pose proof (round_mag_nonneg mx ex). pose proof (round_mag_nonneg my ey).
    destruct sx, sy; cbn [cond_Zopp]; try lia.
    + change (S754_finite true mx ex) with (SFopp (S754_finite false mx ex)) in Hle.
      change (S754_finite true my ey) with (SFopp (S754_finite false my ey)) in Hle.
      rewrite SFleb_opp in Hle.
      pose proof (bounded_leb_vle prec emax Hprec _ _ _ _ Hy Hx Hle) as Hv.
      apply round_mag_mono in Hv. lia.
    + discriminate.
    + pose proof (bounded_leb_vle prec emax Hprec _ _ _ _ Hx Hy Hle) as Hv.
      apply round_mag_mono in Hv. lia.
Qed.

Lemma binary_normalize_Z_mono (a b : Z) :
  a <= b ->
  SFleb (binary_normalize prec emax a 0 false)
        (binary_normalize prec emax b 0 false) = true.
Proof.
  intros H. apply (binary_normalize_mono prec emax Hprec Hemax _ _ _ _ 0);
    try lia.
Qed.

Lemma binary_normalize_Z_finite (a : Z) :
  0 <= a < 2 ^ (emax - 1) ->
  nonneg_finite prec emax (binary_normalize prec emax a 0 false) = true.
Proof.
  intros Ha. unfold binary_normalize. destruct a as [|p|p]; [reflexivity| |lia].
  apply (binary_round_finite prec emax Hprec Hemax).
  assert (Z.pos (digits2_pos p) <= emax - 1) by (apply digits2_pos_le; lia).
  lia.
Qed.

(** Multiplying non-negative values by a non-negative finite factor. *)
Lemma SFmul_mono_r (d x y : spec_float) :
  nonneg_finite prec emax d = true ->
  nonneg_finite prec emax x = true -> nonneg_finite prec emax y = true ->
  SFleb x y = true ->
  SFleb (SFmul prec emax x d) (SFmul prec emax y d) = true /\
  nonneg_valid prec emax (SFmul prec emax x d) = true /\
  nonneg_valid prec emax (SFmul prec emax y d) = true.
Proof.
  intros Hd Hx Hy Hle.
  rewrite (SFmul_comm prec emax x d), (SFmul_comm prec emax y d).
  destruct d as [sd|sd| |sd md ed]; try discriminate.
  - assert (Hz : forall z, nonneg_finite prec emax z = true ->
                   exists s, SFmul prec emax (S754_zero sd) z = S754_zero s).
    { intros z Hzf. destruct z as [sz|sz| |sz m e]; try discriminate;
        eexists; reflexivity. }
    destruct (Hz _ Hx) as (s1 & ->). destruct (Hz _ Hy) as (s2 & ->).
    repeat split; reflexivity.
  - cbn [nonneg_finite] in Hd. apply andb_prop in Hd.
    destruct Hd as (Hs & Bd). destruct sd; [discriminate|].
    split; [|split].
    + apply (SFmul_mono prec emax Hprec Hemax); try assumption;
        apply nonneg_finite_valid; assumption.
    + apply (SFmul_nonneg_valid prec emax Hprec Hemax);
        [assumption|apply nonneg_finite_valid; assumption].
    + apply (SFmul_nonneg_valid prec emax Hprec Hemax);
        [assumption|apply nonneg_finite_valid; assumption].
Qed.

End RoundIntMono.

Lemma trunc_round (x : float) :
  finite_valid F32.prec F32.emax x = true ->
  trunc (round x) = Some (round_int x).
Proof.
  intros Hx. destruct x as [s|s| |s m e]; try discriminate.
  - reflexivity.
  - cbn [finite_valid] in Hx. unfold round, round_int, round_mag.
    destruct (Z.leb_spec 0 e) as [He|He].
    + unfold trunc. destruct (Z.leb_spec 0 e); [reflexivity|lia].
    + apply (trunc_binary_normalize F32.prec F32.emax F32_prec F32_emax).
      pose proof (round_mag_nonneg m e) as Hn.
      pose proof (round_mag_le m e He) as Hm.
      unfold round_mag in Hn, Hm.
      destruct (Z.leb_spec 0 e); [lia|].
      destruct (bounded_canonical F32.prec F32.emax m e Hx) as (Hd & _).
      destruct (digits2_pos_bounds m) as (_ & Hhi).
      assert (Z.pos m < 2 ^ F32.prec).
      { eapply Z.lt_le_trans; [exact Hhi|].
        apply Z.pow_le_mono_r; [lia|assumption]. }
      lia.
Qed.

Lemma to_int64_round_int (x : float) (a : Z) :
  valid_binary F32.prec F32.emax x = true ->
  to_int64 (round x) = Some a ->
  finite_valid F32.prec F32.emax x = true /\ a = round_int x.
Proof.
  intros Hv H.
  assert (Hf : finite_valid F32.prec F32.emax x = true).
  { destruct x as [s|s| |s m e]; try discriminate; try reflexivity.
    exact Hv. }
  split; [assumption|].
  unfold to_int64 in H. rewrite (trunc_round x Hf) in H. cbn [bind] in H.
  destruct (in_int64 (round_int x)); [|discriminate].
  inversion H; reflexivity.
Qed.

(** Offsets do not decrease along the rows. *)
Lemma row_offset_mono (dur base : float) (i j a b : Z) :
  nonneg_finite F32.prec F32.emax dur = true ->
  finite_valid F32.prec F32.emax base = true ->
  0 <= i <= j -> j <= INT64_MAX ->
  to_int64 (round (F32.add (F32.mul (F32.of_Z i) dur) base)) = Some a ->
  to_int64 (round (F32.add (F32.mul (F32.of_Z j) dur) base)) = Some b ->
  a <= b.
Proof.
  intros Hdur Hbase Hij Hj Ha Hb.
  assert (Hbig : INT64_MAX < 2 ^ (F32.emax - 1)) by reflexivity.
  pose proof (binary_normalize_Z_finite F32.prec F32.emax F32_prec F32_emax
                i ltac:(lia)) as Fi.
  pose proof (binary_normalize_Z_finite F32.prec F32.emax F32_prec F32_emax
                j ltac:(lia)) as Fj.
  pose proof (binary_normalize_Z_mono F32.prec F32.emax F32_prec F32_emax
                i j ltac:(lia)) as Hle.
  fold (F32.of_Z i) in Fi, Hle. fold (F32.of_Z j) in Fj, Hle.
  destruct (SFmul_mono_r F32.prec F32.emax F32_prec F32_emax dur
              (F32.of_Z i) (F32.of_Z j) Hdur Fi Fj Hle) as (Hm & Vi & Vj).
  fold (F32.mul (F32.of_Z i) dur) in Hm, Vi.
  fold (F32.mul (F32.of_Z j) dur) in Hm, Vj.
  set (Pi := F32.mul (F32.of_Z i) dur) in *.
  set (Pj := F32.mul (F32.of_Z j) dur) in *.
  assert (Hfin : forall P c, nonneg_valid F32.prec F32.emax P = true ->
            to_int64 (round (F32.add P base)) = Some c ->
            nonneg_finite F32.prec F32.emax P = true).
  { intros P c VP HP.
    destruct P as [s|s| |s m e]; try discriminate; try reflexivity;
      [|exact VP].
    exfalso. destruct s; [discriminate|].
    destruct base as [sb|sb| |sb mb eb]; discriminate. }
  pose proof (Hfin Pi a Vi Ha) as FPi. pose proof (Hfin Pj b Vj Hb) as FPj.
  pose proof (SFadd_mono_l F32.prec F32.emax F32_prec F32_emax Pi Pj base
                FPi FPj Hbase Hm) as Hq.
  fold (F32.add Pi base) in Hq. fold (F32.add Pj base) in Hq.
  assert (VQ : forall P, nonneg_finite F32.prec F32.emax P = true ->
            valid_binary F32.prec F32.emax (F32.add P base) = true).
  { intros P FP. apply (SFadd_valid F32.prec F32.emax F32_prec).
    - apply finite_valid_valid_binary, nonneg_finite_finite_valid, FP.
    - apply finite_valid_valid_binary, Hbase. }
  destruct (to_int64_round_int _ _ (VQ Pi FPi) Ha) as (FQi & ->).
  destruct (to_int64_round_int _ _ (VQ Pj FPj) Hb) as (FQj & ->).
  apply (round_int_mono F32.prec F32.emax F32_prec); assumption.
Qed.

(** ** Inversion of the error monad *)

Lemma bind_Some {A B : Type} (m : option A) (k : A -> option B) (b : B) :
  bind m k = Some b <-> exists a, m = Some a /\ k a = Some b.
Proof.
  destruct m as [a|]; simpl; split.
  - intros H; exists a; auto.
  - intros (a' & Ha & Hk); inversion Ha; subst; assumption.
  - discriminate.
  - intros (a' & Ha & _); discriminate.
Qed.

Ltac inv_bind H :=
  repeat match type of H with
    | bind _ _ = Some _ =>
        let a := fresh "a" in
        let Ha := fresh "Ha" in
        apply bind_Some in H; destruct H as (a & Ha & H)
    | Some _ = Some _ => inversion H; subst; clear H
    end.

(** ** The scan of one row *)

Lemma scan_step_eq (data : list float) (base xc dx cl cr : Z) (c' : Z * Z) :
  scan_step data base xc dx (cl, cr) = Some c' ->
  c' = (if occupied_at data base (xc - dx) then Z.max cl (xc - dx) else cl,
        if occupied_at data base (xc + dx) then Z.min cr (xc + dx) else cr).
Proof.
  unfold scan_step, occupied_at, occupied, ber_max. intros H.
  destruct (read data base (xc - dx)) as [v1|]; [simpl in H|discriminate].
  destruct (read data base (xc + dx)) as [v2|]; [simpl in H|discriminate].
  inversion H; reflexivity.
Qed.

Lemma scan_step_total (data : list float) (base xc dx : Z) (c : Z * Z) :
  read data base (xc - dx) <> None -> read data base (xc + dx) <> None ->
  scan_step data base xc dx c <> None.
Proof.
  unfold scan_step. destruct c as [cl cr]. intros H1 H2.
  destruct (read data base (xc - dx)); [simpl|congruence].
  destruct (read data base (xc + dx)); [simpl|congruence].
  discriminate.
Qed.

Lemma scan_loop_spec (data : list float) (base xc : Z) :
  forall (n : nat) (dx cl cr cl' cr' : Z),
    scan_loop data base xc n dx (cl, cr) = Some (cl', cr') ->
    ((cl' = cl \/
      exists k, 0 <= k < Z.of_nat n /\ cl' = xc - (dx + k) /\
                occupied_at data base cl' = true) /\
     cl <= cl' /\
     (forall k, 0 <= k < Z.of_nat n ->
                occupied_at data base (xc - (dx + k)) = true ->
                xc - (dx + k) <= cl')) /\
    ((cr' = cr \/
      exists k, 0 <= k < Z.of_nat n /\ cr' = xc + (dx + k) /\
                occupied_at data base cr' = true) /\
     cr' <= cr /\
     (forall k, 0 <= k < Z.of_nat n ->
                occupied_at data base (xc + (dx + k)) = true ->
                cr' <= xc + (dx + k))).
Proof.
  induction n as [|n IH]; intros dx cl cr cl' cr' H.
  - simpl in H. inversion H; subst.
    repeat split; auto; try lia; intros; lia.
  - cbn [scan_loop] in H. inv_bind H. destruct a as [cl1 cr1].
    apply scan_step_eq in Ha. inversion Ha as [[Hcl1 Hcr1]]; clear Ha.
    apply IH in H. destruct H as ((Hl1 & Hl2 & Hl3) & (Hr1 & Hr2 & Hr3)).
    assert (Hcl : cl <= cl1)
      by (rewrite Hcl1; destruct (occupied_at data base (xc - dx)); lia).
    assert (Hcr : cr1 <= cr)
      by (rewrite Hcr1; destruct (occupied_at data base (xc + dx)); lia).
    split; repeat split.
    + destruct Hl1 as [Hl1|(k & Hk & Hl1 & Ho)].
      * destruct (occupied_at data base (xc - dx)) eqn:E; [|left; congruence].
        destruct (Z.max_spec cl (xc - dx)) as [[_ Hm]|[_ Hm]];
          rewrite Hm in Hcl1; [|left; congruence].
        right. exists 0. rewrite Z.add_0_r.
        repeat split; try lia. replace cl' with (xc - dx) by lia. exact E.
      * right. exists (k + 1).
        repeat split; try lia. assumption.
    + lia.
    + intros k Hk Ho.
      destruct (Z.eq_dec k 0) as [->|Hne].
      * rewrite Z.add_0_r in *. rewrite Ho in Hcl1. lia.
      * specialize (Hl3 (k - 1)).
        replace (dx + 1 + (k - 1)) with (dx + k) in Hl3 by lia.
        apply Hl3; [lia|assumption].
    + destruct Hr1 as [Hr1|(k & Hk & Hr1 & Ho)].
      * destruct (occupied_at data base (xc + dx)) eqn:E; [|left; congruence].
        destruct (Z.min_spec cr (xc + dx)) as [[_ Hm]|[_ Hm]];
          rewrite Hm in Hcr1; [left; congruence|].
        right. exists 0. rewrite Z.add_0_r.
        repeat split; try lia. replace cr' with (xc + dx) by lia. exact E.
      * right. exists (k + 1).
        repeat split; try lia. assumption.
    + lia.
    + intros k Hk Ho.
      destruct (Z.eq_dec k 0) as [->|Hne].
      * rewrite Z.add_0_r in *. rewrite Ho in Hcr1. lia.
      * specialize (Hr3 (k - 1)).
        replace (dx + 1 + (k - 1)) with (dx + k) in Hr3 by lia.
        apply Hr3; [lia|assumption].
Qed.

Lemma scan_loop_total (data : list float) (base xc : Z) :
  forall (n : nat) (dx : Z) (c : Z * Z),
    (forall k, 0 <= k < Z.of_nat n ->
               read data base (xc - (dx + k)) <> None /\
               read data base (xc + (dx + k)) <> None) ->
    scan_loop data base xc n dx c <> None.
Proof.
  induction n as [|n IH]; intros dx c Hr.
  - simpl. discriminate.
  - cbn [scan_loop].
    destruct (scan_step data base xc dx c) as [c'|] eqn:E.
    + simpl. apply IH. intros k Hk.
      replace (dx + 1 + k) with (dx + (k + 1)) by lia. apply Hr. lia.
    + exfalso. revert E. apply scan_step_total.
      * specialize (Hr 0). replace (dx + 0) with dx in Hr by lia.
        apply Hr. lia.
      * specialize (Hr 0). replace (dx + 0) with dx in Hr by lia.
        apply Hr. lia.
Qed.

(** ** Well-formed rasters *)

Section ValidEye.
Variable din : EyeWaveform.
Hypothesis Hvalid : valid_eye din.

Lemma valid_eye_width : int64_of_size_t (GetWidth din) = GetWidth din.
Proof.
  destruct Hvalid as (Hw & Hh & Hsz & _). unfold int64_of_size_t.
  destruct (Z.leb_spec (GetWidth din) INT64_MAX) as [_|Hgt]; [reflexivity|].
  exfalso. nia.
Qed.

Lemma valid_eye_xcenter :
  xcenter din = GetWidth din / 2 /\
  0 <= xcenter din /\ 2 * xcenter din <= GetWidth din /\
  GetWidth din <= 2 * xcenter din + 1.
Proof.
  destruct Hvalid as (Hw & _). unfold xcenter. rewrite valid_eye_width.
  rewrite Z.quot_div_nonneg by lia.
  pose proof (Z.div_mod (GetWidth din) 2) as Hdm.
  pose proof (Z.mod_pos_bound (GetWidth din) 2) as Hmb.
  lia.
Qed.

Lemma valid_eye_row_base (i : Z) :
  0 <= i < GetHeight din ->
  wrap_size_t (i * int64_of_size_t (GetWidth din)) = i * GetWidth din.
Proof.
  intros Hi. destruct Hvalid as (Hw & Hh & Hsz & _).
  rewrite valid_eye_width. unfold wrap_size_t. apply Z.mod_small.
  unfold INT64_MAX in Hsz. split; [nia|].
  assert (i * GetWidth din < GetWidth din * GetHeight din) by nia.
  lia.
Qed.

Lemma valid_eye_read (i x : Z) :
  0 <= i < GetHeight din -> 0 <= x < GetWidth din ->
  read (GetData din) (i * GetWidth din) x <> None.
Proof.
  intros Hi Hx. destruct Hvalid as (Hw & Hh & Hsz & Hlen). unfold read.
  destruct (Z.ltb_spec (i * GetWidth din + x) 0) as [Hneg|_]; [nia|].
  rewrite nth_error_None. nia.
Qed.

Lemma scan_row_total (i : Z) :
  0 <= i < GetHeight din -> scan_row din i <> None.
Proof.
  intros Hi. unfold scan_row.
  destruct valid_eye_xcenter as (_ & Hx0 & Hx1 & Hx2).
  destruct Hvalid as (Hw & Hh & Hsz & _).
  rewrite valid_eye_row_base by assumption.
  fold (xcenter din). rewrite valid_eye_width.
  unfold sub_int64, in_int64, INT64_MIN.
  destruct (Z.leb_spec (- 2 ^ 63) (GetWidth din - 1)) as [_|Hlt]; [|lia].
  destruct (Z.leb_spec (GetWidth din - 1) INT64_MAX) as [_|Hgt]; [|nia].
  simpl. apply scan_loop_total. intros k Hk. rewrite Z2Nat.id in Hk by lia.
  split; apply valid_eye_read; auto; lia.
Qed.

Lemma scan_row_spec (i cl cr : Z) :
  0 <= i < GetHeight din -> scan_row din i = Some (cl, cr) ->
  is_cleft din i cl /\ is_cright din i cr /\
  0 <= cl <= xcenter din /\ xcenter din <= cr <= GetWidth din - 1 /\
  (1 <= GetWidth din -> cl <= cr).
Proof.
  intros Hi H. unfold scan_row in H.
  destruct valid_eye_xcenter as (_ & Hx0 & Hx1 & Hx2).
  rewrite valid_eye_row_base in H by assumption.
  fold (xcenter din) in H. rewrite valid_eye_width in H.
  inv_bind H. unfold sub_int64 in Ha.
  destruct (in_int64 (GetWidth din - 1)); [|discriminate].
  inversion Ha; subst a; clear Ha.
  apply scan_loop_spec in H. rewrite Z2Nat.id in H by lia.
  destruct H as ((Hl1 & Hl2 & Hl3) & (Hr1 & Hr2 & Hr3)).
  unfold is_cleft, is_cright, column_occupied.
  assert (Hcl : 0 <= cl <= xcenter din)
    by (destruct Hl1 as [->|(k & Hk & -> & _)]; lia).
  assert (Hcr : xcenter din <= cr <= GetWidth din - 1).
  { destruct Hr1 as [->|(k & Hk & -> & _)]; [|lia].
    destruct Hvalid as (Hw & _). lia. }
  repeat split; try lia.
  - destruct Hl1 as [->|(k & Hk & -> & Ho)]; [left; reflexivity|right].
    split; [lia|assumption].
  - intros x Hx Ho. specialize (Hl3 (xcenter din - x)).
    replace (xcenter din - (0 + (xcenter din - x))) with x in Hl3 by lia.
    apply Hl3; [lia|assumption].
  - destruct Hr1 as [->|(k & Hk & -> & Ho)]; [left; reflexivity|right].
    split; [lia|assumption].
  - intros x Hx Ho. specialize (Hr3 (x - xcenter din)).
    replace (xcenter din + (0 + (x - xcenter din))) with x in Hr3 by lia.
    apply Hr3; [lia|assumption].
Qed.
End ValidEye.

(** ** The loop over the rows *)

Lemma after_rows_nil (st : LoopState) : after_rows st [] = st.
Proof.
  destruct st as [fl fr [ts offs durs smps]]. unfold after_rows; simpl.
  rewrite !app_nil_r. reflexivity.
Qed.

Lemma after_rows_cons (st : LoopState) (r : RowResult) (rs : list RowResult) :
  after_rows (after_rows st [r]) rs = after_rows st (r :: rs).
Proof.
  unfold after_rows; simpl. rewrite <- !app_assoc. reflexivity.
Qed.

Lemma row_body_eq (vrange : float) (din : EyeWaveform) (i : Z) (st : LoopState) :
  row_body vrange din i st =
  (r <- row_result vrange din i ;; Some (after_rows st [r])).
Proof.
  unfold row_body, row_result.
  destruct (scan_row din i) as [c|]; [simpl|reflexivity].
  destruct (row_value din c) as [v|]; [simpl|reflexivity].
  destruct (row_offset vrange din i) as [off|]; [simpl|reflexivity].
  destruct (row_duration vrange din) as [dur|]; reflexivity.
Qed.

Lemma rows_loop_eq (vrange : float) (din : EyeWaveform) :
  forall (n : nat) (i : Z) (st : LoopState),
    rows_loop vrange din n i st =
    (rs <- rows_results vrange din n i ;; Some (after_rows st rs)).
Proof.
  induction n as [|n IH]; intros i st.
  - simpl. rewrite after_rows_nil. reflexivity.
  - cbn [rows_loop rows_results]. rewrite row_body_eq.
    destruct (row_result vrange din i) as [r|]; [simpl|reflexivity].
    rewrite IH.
    destruct (rows_results vrange din n (i + 1)) as [rs|]; [simpl|reflexivity].
    rewrite after_rows_cons. reflexivity.
Qed.

Lemma rows_results_length (vrange : float) (din : EyeWaveform) :
  forall (n : nat) (i : Z) (rs : list RowResult),
    rows_results vrange din n i = Some rs -> length rs = n.
Proof.
  induction n as [|n IH]; intros i rs H.
  - inversion H. reflexivity.
  - cbn [rows_results] in H. inv_bind H. simpl. f_equal. eauto.
Qed.

Lemma rows_results_nth (vrange : float) (din : EyeWaveform) :
  forall (n : nat) (i : Z) (rs : list RowResult),
    rows_results vrange din n i = Some rs ->
    forall (k : nat) (r : RowResult),
      nth_error rs k = Some r ->
      row_result vrange din (i + Z.of_nat k) = Some r.
Proof.
  induction n as [|n IH]; intros i rs H k r Hk.
  - inversion H; subst. destruct k; discriminate.
  - cbn [rows_results] in H. inv_bind H.
    destruct k as [|k]; simpl in Hk.
    + inversion Hk; subst. rewrite Z.add_0_r. assumption.
    + replace (i + Z.of_nat (S k)) with (i + 1 + Z.of_nat k) by lia.
      eapply IH; eassumption.
Qed.

Lemma rows_results_total (vrange : float) (din : EyeWaveform) :
  forall (n : nat) (i : Z),
    (forall k, 0 <= k < Z.of_nat n -> row_result vrange din (i + k) <> None) ->
    rows_results vrange din n i <> None.
Proof.
  induction n as [|n IH]; intros i Hr.
  - discriminate.
  - cbn [rows_results].
    destruct (row_result vrange din i) as [r|] eqn:E.
    + simpl.
      destruct (rows_results vrange din n (i + 1)) as [rs|] eqn:E';
        [discriminate|].
      exfalso. revert E'. apply IH. intros k Hk.
      replace (i + 1 + k) with (i + (k + 1)) by lia. apply Hr. lia.
    + exfalso. specialize (Hr 0). rewrite Z.add_0_r in Hr.
      apply Hr; [lia|assumption].
Qed.

(** ** Running minimum and maximum *)

Lemma fold_min_spec (l : list Z) :
  forall a, fold_left Z.min l a <= a /\
            (forall z, In z l -> fold_left Z.min l a <= z) /\
            (fold_left Z.min l a = a \/ In (fold_left Z.min l a) l).
Proof.
  induction l as [|x l IH]; intros a; simpl.
  - repeat split; try lia; try tauto.
  - destruct (IH (Z.min a x)) as (H1 & H2 & H3). repeat split.
    + lia.
    + intros z [<-|Hz]; [lia|auto].
    + destruct H3 as [H3|H3]; [|right; right; assumption].
      destruct (Z.min_spec a x) as [[_ Hm]|[_ Hm]].
      * left; lia.
      * right; left; lia.
Qed.

Lemma fold_max_spec (l : list Z) :
  forall a, a <= fold_left Z.max l a /\
            (forall z, In z l -> z <= fold_left Z.max l a) /\
            (fold_left Z.max l a = a \/ In (fold_left Z.max l a) l).
Proof.
  induction l as [|x l IH]; intros a; simpl.
  - repeat split; try lia; try tauto.
  - destruct (IH (Z.max a x)) as (H1 & H2 & H3). repeat split.
    + lia.
    + intros z [<-|Hz]; [lia|auto].
    + destruct H3 as [H3|H3]; [|right; right; assumption].
      destruct (Z.max_spec a x) as [[_ Hm]|[_ Hm]].
      * right; left; lia.
      * left; lia.
Qed.

Lemma fold_min_is_min (l : list Z) (a : Z) :
  l <> [] -> (forall z, In z l -> z <= a) -> is_min (fold_left Z.min l a) l.
Proof.
  intros Hne Hle. destruct (fold_min_spec l a) as (H1 & H2 & H3).
  split; [|assumption].
  destruct H3 as [H3|H3]; [|assumption].
  destruct l as [|x l]; [congruence|].
  assert (Hx : x = fold_left Z.min (x :: l) a).
  { specialize (H2 x (or_introl eq_refl)).
    specialize (Hle x (or_introl eq_refl)). lia. }
  rewrite <- Hx. left; reflexivity.
Qed.

Lemma fold_max_is_max (l : list Z) (a : Z) :
  l <> [] -> (forall z, In z l -> a <= z) -> is_max (fold_left Z.max l a) l.
Proof.
  intros Hne Hle. destruct (fold_max_spec l a) as (H1 & H2 & H3).
  split; [|assumption].
  destruct H3 as [H3|H3]; [|assumption].
  destruct l as [|x l]; [congruence|].
  assert (Hx : x = fold_left Z.max (x :: l) a).
  { specialize (H2 x (or_introl eq_refl)).
    specialize (Hle x (or_introl eq_refl)). lia. }
  rewrite <- Hx. left; reflexivity.
Qed.

(** ** Row indices *)

Lemma to_size_t_range (x : spec_float) (b : Z) :
  to_size_t x = Some b -> 0 <= b <= SIZE_MAX.
Proof.
  unfold to_size_t. intros H. inv_bind H.
  destruct (Z.leb_spec 0 a); destruct (Z.leb_spec a SIZE_MAX);
    simpl in H; try discriminate.
  inversion H; subst. lia.
Qed.

Lemma bin_of_voltage_range (vrange : float) (din : EyeWaveform) (v : float)
  (b : Z) :
  bin_of_voltage vrange din v = Some b ->
  0 <= b <= wrap_size_t (GetHeight din - 1).
Proof.
  unfold bin_of_voltage. intros H. inv_bind H.
  apply to_size_t_range in Ha.
  assert (0 <= wrap_size_t (GetHeight din - 1)).
  { unfold wrap_size_t. apply Z.mod_pos_bound. reflexivity. }
  lia.
Qed.

Lemma bins_range (f : EyeWidthMeasurement) (din : EyeWaveform) (s e : Z) :
  valid_eye din -> bins f din = Some (s, e) ->
  0 <= s < GetHeight din /\ 0 <= e < GetHeight din.
Proof.
  intros (Hw & Hh & Hsz & _) H. unfold bins in H.
  destruct (order_voltages (m_startname f) (m_endname f)) as [vs ve].
  inv_bind H. apply bin_of_voltage_range in Ha, Ha0.
  assert (Hwrap : wrap_size_t (GetHeight din - 1) = GetHeight din - 1).
  { unfold wrap_size_t. apply Z.mod_small. unfold INT64_MAX in Hsz.
    split; [lia|]. nia. }
  rewrite Hwrap in *. lia.
Qed.

(** ** Refresh as a function of the rows' results *)

Lemma Refresh_inv (t : ScalarType) (f : EyeWidthMeasurement) (din : EyeWaveform) (out : Streams) :
  valid_eye din -> GetInputWaveform f = Some din ->
  Refresh t true f = Some out ->
  exists s e rs,
    bins f din = Some (s, e) /\ 0 <= s <= e /\ e < GetHeight din /\
    rows_results (GetVoltageRange f) din (Z.to_nat (e + 1 - s)) s = Some rs /\
    rs <> [] /\
    widthslice out =
      Some {| m_timescale := 1; m_offsets := map r_offset rs;
              m_durations := map r_duration rs;
              m_samples := map r_value rs |} /\
    minwidth out =
      to_m_value t
        (F64.mul (fs_per_pixel din)
           (F64.of_Z (fold_left Z.max (map r_cright rs) INT64_MIN -
                      fold_left Z.min (map r_cleft rs) INT64_MAX))).
Proof.
  intros Hv Hin H. unfold Refresh in H. simpl negb in H. cbv iota in H.
  rewrite Hin in H. simpl bind in H.
  destruct (bins f din) as [[s e]|] eqn:Hb; [simpl in H|discriminate].
  destruct (bins_range _ _ _ _ Hv Hb) as (Hs & He).
  unfold for_rows in H.
  destruct (e =? SIZE_MAX); [discriminate|].
  rewrite rows_loop_eq in H.
  destruct (rows_results (GetVoltageRange f) din (Z.to_nat (e + 1 - s)) s)
    as [rs|] eqn:Hrs; [simpl in H|discriminate].
  unfold sub_int64 in H.
  match type of H with
  | bind (if in_int64 ?d then _ else _) _ = _ =>
      destruct (in_int64 d) eqn:Hd; [simpl in H|discriminate]
  end.
  assert (Hne : rs <> []).
  { intros ->. simpl in Hd. vm_compute in Hd. discriminate. }
  assert (Hlen := rows_results_length _ _ _ _ _ Hrs).
  assert (Hse : s <= e).
  { destruct rs as [|r rs]; [congruence|]. simpl in Hlen. lia. }
  exists s, e, rs. inversion H; subst out; clear H. simpl.
  repeat split; auto; lia.
Qed.

(** For a well-formed raster the loop has a result as soon as the row
    indices and the converted offsets and duration are defined. *)
Lemma Refresh_total (t : ScalarType) (f : EyeWidthMeasurement) (din : EyeWaveform) (s e : Z) :
  valid_eye din -> GetInputWaveform f = Some din ->
  bins f din = Some (s, e) -> s <= e ->
  row_duration (GetVoltageRange f) din <> None ->
  (forall i, s <= i <= e -> row_offset (GetVoltageRange f) din i <> None) ->
  Refresh t true f <> None.
Proof.
  intros Hv Hin Hb Hse Hdur Hoff.
  destruct (bins_range _ _ _ _ Hv Hb) as (Hs & He).
  assert (Hrow : forall i, s <= i <= e ->
                   exists r, row_result (GetVoltageRange f) din i = Some r /\
                             0 <= r_cleft r <= r_cright r /\
                             r_cright r <= GetWidth din - 1).
  { intros i Hi. unfold row_result.
    destruct (scan_row din i) as [[cl cr]|] eqn:Hsc;
      [|exfalso; revert Hsc; apply scan_row_total; auto; lia].
    destruct (scan_row_spec din Hv i cl cr) as (_ & _ & Hcl & Hcr & Hle);
      [lia|assumption|].
    destruct Hv as (Hw & Hh & Hsz & _).
    assert (Hval : row_value din (cl, cr) <> None).
    { unfold row_value, sub_int64, in_int64, INT64_MIN. simpl fst; simpl snd.
      destruct (Z.leb_spec (- 2 ^ 63) (cr - cl)); [|lia].
      destruct (Z.leb_spec (cr - cl) INT64_MAX); [discriminate|nia]. }
    cbn [bind].
    destruct (row_value din (cl, cr)) as [v|]; [cbn [bind]|congruence].
    specialize (Hoff i Hi).
    destruct (row_offset (GetVoltageRange f) din i) as [off|];
      [cbn [bind]|congruence].
    destruct (row_duration (GetVoltageRange f) din) as [dur|];
      [cbn [bind]|congruence].
    eexists; split; [reflexivity|]. simpl. lia. }
  unfold Refresh. simpl negb. cbv iota. rewrite Hin. simpl bind.
  rewrite Hb. simpl. unfold for_rows.
  destruct (Z.eqb_spec e SIZE_MAX) as [->|_].
  { destruct Hv as (Hw & Hh & Hsz & _). unfold SIZE_MAX in He.
    unfold INT64_MAX in Hsz. nia. }
  rewrite rows_loop_eq.
  destruct (rows_results (GetVoltageRange f) din (Z.to_nat (e + 1 - s)) s)
    as [rs|] eqn:Hrs.
  - simpl. unfold sub_int64.
    match goal with
    | |- bind (if in_int64 ?d then _ else _) _ <> _ =>
        assert (Hd : in_int64 d = true); [|rewrite Hd; discriminate]
    end.
    assert (Hlen := rows_results_length _ _ _ _ _ Hrs).
    assert (Hall : forall r, In r rs ->
                     0 <= r_cleft r <= r_cright r /\
                     r_cright r <= GetWidth din - 1).
    { intros r Hr. apply In_nth_error in Hr. destruct Hr as (k & Hk).
      pose proof (rows_results_nth _ _ _ _ _ Hrs k r Hk) as Hrk.
      assert (Hkn : (k < length rs)%nat)
        by (apply nth_error_Some; congruence).
      destruct (Hrow (s + Z.of_nat k)) as (r' & Hr' & Hb'); [lia|].
      congruence. }
    destruct rs as [|r0 rs0] eqn:Ers; [simpl in Hlen; lia|].
    rewrite <- Ers in *.
    assert (Hne : rs <> []) by congruence.
    destruct (fold_min_is_min (map r_cleft rs) INT64_MAX) as (Hmin & _).
    { rewrite Ers; discriminate. }
    { intros z Hz. apply in_map_iff in Hz. destruct Hz as (r & <- & Hr).
      apply Hall in Hr. destruct Hv as (Hw & Hh & Hsz & _). nia. }
    destruct (fold_max_is_max (map r_cright rs) INT64_MIN) as (Hmax & _).
    { rewrite Ers; discriminate. }
    { intros z Hz. apply in_map_iff in Hz. destruct Hz as (r & <- & Hr).
      apply Hall in Hr. unfold INT64_MIN. lia. }
    apply in_map_iff in Hmin. destruct Hmin as (r1 & Hr1 & Hin1).
    apply in_map_iff in Hmax. destruct Hmax as (r2 & Hr2 & Hin2).
    rewrite <- Hr1, <- Hr2.
    apply Hall in Hin1. apply Hall in Hin2.
    destruct Hv as (Hw & Hh & Hsz & _).
    unfold in_int64, INT64_MIN.
    apply andb_true_intro; split; apply Z.leb_le; unfold INT64_MAX in *; nia.
  - exfalso. revert Hrs. apply rows_results_total. intros k Hk.
    destruct (Hrow (s + k)) as (r & Hr & _); [lia|]. congruence.
Qed.

Lemma row_result_inv (vrange : float) (din : EyeWaveform) (i : Z)
  (r : RowResult) :
  row_result vrange din i = Some r ->
  scan_row din i = Some (r_cleft r, r_cright r) /\
  r_value r = narrow (F64.mul (fs_per_pixel din)
                        (F64.of_Z (r_cright r - r_cleft r))) /\
  row_offset vrange din i = Some (r_offset r) /\
  row_duration vrange din = Some (r_duration r).
Proof.
  unfold row_result. intros H. inv_bind H. destruct a as [cl cr].
  unfold row_value, sub_int64 in Ha0. simpl fst in *. simpl snd in *.
  destruct (in_int64 (cr - cl)); [|discriminate].
  simpl in Ha0. inversion Ha0; subst. simpl. auto.
Qed.

Lemma fs_per_pixel_spec (din : EyeWaveform) :
  valid_eye din -> fs_per_pixel din = time_per_column_spec din.
Proof.
  intros Hv. unfold fs_per_pixel, time_per_column_spec, width_fs.
  rewrite valid_eye_width by assumption. reflexivity.
Qed.

(** ** Input validation *)

(** C7: [ValidateChannel] is a total boolean function; it answers [false]
    for a descriptor whose channel is null, and [true] exactly when the
    channel is not null, the input index is 0 and the stream is an eye
    raster; every other case (another index, another kind) is [false]. *)
Theorem ValidateChannel_spec (i : Z) (stream : StreamDescriptor) :
  (m_channel stream = None -> ValidateChannel i stream = false) /\
  (ValidateChannel i stream = true <->
   m_channel stream <> None /\ i = 0 /\
   GetType stream = Some STREAM_TYPE_EYE) /\
  (ValidateChannel i stream = false <->
   m_channel stream = None \/ i <> 0 \/
   GetType stream <> Some STREAM_TYPE_EYE).
Proof.
  unfold ValidateChannel.
  destruct (m_channel stream) as [c|] eqn:Hc.
  - assert (Hty : is_type (GetType stream) STREAM_TYPE_EYE = true <->
                  GetType stream = Some STREAM_TYPE_EYE).
    { destruct (GetType stream) as [[]|]; simpl; split;
        intros H; try reflexivity; try discriminate. }
    destruct (Z.eqb_spec i 0) as [Hi|Hi];
      destruct (is_type (GetType stream) STREAM_TYPE_EYE) eqn:Ht; simpl;
      try (assert (Hy : GetType stream = Some STREAM_TYPE_EYE)
             by (apply Hty; reflexivity));
      try (assert (Hn : GetType stream <> Some STREAM_TYPE_EYE)
             by (intros Hy; apply Hty in Hy; discriminate));
      intuition (try discriminate; try congruence).
  - intuition (try discriminate; try congruence).
Qed.

(** ** Invalid input *)

(** C6: when [VerifyAllInputsOK] answers [false], [Refresh] returns
    normally with a null waveform on stream 0 and NaN on stream 1,
    whatever the filter's input and parameters are: nothing of them is
    read. *)
Theorem Refresh_invalid_input (t : ScalarType) (f : EyeWidthMeasurement) :
  Refresh t false f = Some {| widthslice := None; minwidth := NAN |}.
Proof. reflexivity. Qed.

(** ** Order of the two thresholds *)

Lemma SFcompare_swap (a b : spec_float) :
  SFcompare b a = option_map CompOpp (SFcompare a b).
Proof.
  destruct a as [sa|sa| |sa ma ea], b as [sb|sb| |sb mb eb]; simpl;
    try reflexivity;
    try (destruct sa; reflexivity); try (destruct sb; reflexivity);
    try (destruct sa, sb; reflexivity).
  pose proof (Pos.compare_cont_antisym ma mb Eq) as Hp. simpl in Hp.
  destruct sa, sb; simpl; try reflexivity;
    rewrite (Z.compare_antisym ea eb);
    destruct (ea ?= eb); simpl; try reflexivity;
    rewrite <- Hp;
    destruct (Pos.compare_cont Eq ma mb); reflexivity.
Qed.

Lemma SFcompare_Eq (a b : spec_float) :
  SFcompare a b = Some Eq ->
  a = b \/ exists s1 s2, a = S754_zero s1 /\ b = S754_zero s2.
Proof.
  destruct a as [sa|sa| |sa ma ea], b as [sb|sb| |sb mb eb]; simpl;
    intros H; try discriminate.
  - right; eauto.
  - destruct sb; discriminate.
  - destruct sb; discriminate.
  - destruct sa; discriminate.
  - left. destruct sa, sb; try discriminate; reflexivity.
  - destruct sa; discriminate.
  - destruct sa; discriminate.
  - destruct sb; discriminate.
  - left.
    destruct sa, sb; try discriminate;
      destruct (ea ?= eb) eqn:He; try discriminate;
      apply Z.compare_eq in He; subst eb;
      destruct (Pos.compare_cont Eq ma mb) eqn:Hm; try discriminate;
      apply Pos.compare_eq in Hm; subst mb; reflexivity.
Qed.

Lemma SFcompare_None (a b : spec_float) :
  SFcompare a b = None -> a = S754_nan \/ b = S754_nan.
Proof.
  destruct a as [sa|sa| |sa ma ea], b as [sb|sb| |sb mb eb]; simpl;
    intros H; auto; try discriminate;
    try (destruct sa; discriminate); try (destruct sb; discriminate).
Qed.

Lemma bin_of_voltage_nan (vrange : float) (din : EyeWaveform) :
  bin_of_voltage vrange din S754_nan = None.
Proof. reflexivity. Qed.

(** The sign of a zero threshold does not reach the row index. *)
Lemma bin_of_voltage_zero (vrange : float) (din : EyeWaveform) (s1 s2 : bool) :
  bin_of_voltage vrange din (S754_zero s1) =
  bin_of_voltage vrange din (S754_zero s2).
Proof.
  unfold bin_of_voltage.
  generalize (volts_at_bottom vrange din) (volts_per_row vrange din).
  intros bot vpr. unfold F32.sub, F32.div.
  destruct bot as [sb|sb| |sb mb eb]; try reflexivity.
  destruct vpr as [sv|sv| |sv mv ev]; destruct s1, s2, sb;
    try reflexivity; destruct sv; reflexivity.
Qed.

Lemma bins_swap (f : EyeWidthMeasurement) (din : EyeWaveform) :
  bins (swap_voltages f) din = bins f din.
Proof.
  unfold bins, order_voltages, F32.gt, SFltb. simpl.
  set (a := m_startname f). set (b := m_endname f).
  set (B := bin_of_voltage (GetVoltageRange f) din).
  rewrite (SFcompare_swap a b).
  destruct (SFcompare a b) as [[| |]|] eqn:Hc; simpl; try reflexivity.
  - apply SFcompare_Eq in Hc. destruct Hc as [->|(s1 & s2 & Ha & Hb)].
    + reflexivity.
    + rewrite Ha, Hb. unfold B.
      rewrite (bin_of_voltage_zero _ _ s2 s1). reflexivity.
  - apply SFcompare_None in Hc. destruct Hc as [Hc|Hc]; rewrite Hc.
    + unfold B at 2 3. rewrite bin_of_voltage_nan. simpl.
      destruct (B b); reflexivity.
    + unfold B at 1 4. rewrite bin_of_voltage_nan. simpl.
      destruct (B a); reflexivity.
Qed.

(** C8: exchanging the Start Voltage and End Voltage parameters leaves
    both outputs of [Refresh] (the sparse waveform and the scalar)
    unchanged, and likewise whether there is a result at all. *)
Theorem Refresh_swap_voltages (t : ScalarType) (ok : bool) (f : EyeWidthMeasurement) :
  Refresh t ok (swap_voltages f) = Refresh t ok f.
Proof.
  unfold Refresh. destruct ok; [|reflexivity]. simpl negb. cbv iota.
  change (GetInputWaveform (swap_voltages f)) with (GetInputWaveform f).
  change (GetVoltageRange (swap_voltages f)) with (GetVoltageRange f).
  destruct (GetInputWaveform f) as [din|]; [simpl bind|reflexivity].
  rewrite bins_swap. reflexivity.
Qed.

(** ** The successful path *)

(** Everything a successful [Refresh] on a well-formed raster establishes,
    row by row. *)
Lemma Refresh_rows (t : ScalarType) (f : EyeWidthMeasurement) (din : EyeWaveform) (out : Streams) :
  valid_eye din -> GetInputWaveform f = Some din ->
  Refresh t true f = Some out ->
  exists s e rs,
    bins f din = Some (s, e) /\ 0 <= s <= e /\ e < GetHeight din /\
    Z.of_nat (length rs) = e - s + 1 /\
    (forall k r, nth_error rs k = Some r ->
       scan_row din (s + Z.of_nat k) = Some (r_cleft r, r_cright r) /\
       r_value r = narrow (F64.mul (time_per_column_spec din)
                             (F64.of_Z (r_cright r - r_cleft r))) /\
       row_offset (GetVoltageRange f) din (s + Z.of_nat k) = Some (r_offset r) /\
       row_duration (GetVoltageRange f) din = Some (r_duration r)) /\
    widthslice out =
      Some {| m_timescale := 1; m_offsets := map r_offset rs;
              m_durations := map r_duration rs;
              m_samples := map r_value rs |} /\
    exists FL FR,
      is_min FL (map r_cleft rs) /\ is_max FR (map r_cright rs) /\
      minwidth out =
      to_m_value t (F64.mul (time_per_column_spec din) (F64.of_Z (FR - FL))).
Proof.
  intros Hv Hin H.
  destruct (Refresh_inv t f din out Hv Hin H)
    as (s & e & rs & Hb & Hse & He & Hrs & Hne & Hws & Hmw).
  assert (Hlen := rows_results_length _ _ _ _ _ Hrs).
  assert (Hrow : forall k r, nth_error rs k = Some r ->
            scan_row din (s + Z.of_nat k) = Some (r_cleft r, r_cright r) /\
            r_value r = narrow (F64.mul (time_per_column_spec din)
                                  (F64.of_Z (r_cright r - r_cleft r))) /\
            row_offset (GetVoltageRange f) din (s + Z.of_nat k)
              = Some (r_offset r) /\
            row_duration (GetVoltageRange f) din = Some (r_duration r)).
  { intros k r Hk.
    pose proof (rows_results_nth _ _ _ _ _ Hrs k r Hk) as Hr.
    apply row_result_inv in Hr. rewrite <- (fs_per_pixel_spec din Hv).
    exact Hr. }
  assert (Hbnd : forall r, In r rs ->
            0 <= r_cleft r <= xcenter din /\
            xcenter din <= r_cright r <= GetWidth din - 1).
  { intros r Hr. apply In_nth_error in Hr. destruct Hr as (k & Hk).
    assert (Hkn : (k < length rs)%nat) by (apply nth_error_Some; congruence).
    destruct (Hrow k r Hk) as (Hsc & _).
    apply (scan_row_spec din Hv) in Hsc; [tauto|lia]. }
  exists s, e, rs.
  split; [assumption|]. split; [lia|]. split; [lia|]. split; [lia|].
  split; [exact Hrow|]. split; [assumption|].
  exists (fold_left Z.min (map r_cleft rs) INT64_MAX),
         (fold_left Z.max (map r_cright rs) INT64_MIN).
  destruct (valid_eye_xcenter din Hv) as (_ & Hx0 & Hx1 & Hx2).
  assert (Hmap : forall g : RowResult -> Z, map g rs <> []).
  { intros g. destruct rs; [congruence|discriminate]. }
  split; [|split].
  - apply fold_min_is_min; [apply Hmap|].
    intros z Hz. apply in_map_iff in Hz. destruct Hz as (r & <- & Hr).
    apply Hbnd in Hr. destruct Hv as (Hw & Hh & Hsz & _). nia.
  - apply fold_max_is_max; [apply Hmap|].
    intros z Hz. apply in_map_iff in Hz. destruct Hz as (r & <- & Hr).
    apply Hbnd in Hr. unfold INT64_MIN. lia.
  - rewrite Hmw. do 2 f_equal. apply fs_per_pixel_spec. assumption.
Qed.

Lemma valid_eye_demo : valid_eye eye_demo.
Proof. unfold valid_eye; vm_compute; repeat split; discriminate. Defined.

Lemma valid_eye_closed : valid_eye eye_closed.
Proof. unfold valid_eye; vm_compute; repeat split; discriminate. Defined.

Lemma Refresh_demo : Refresh SCALAR_FLOAT true filter_demo = Some streams_demo.
Proof. vm_compute. reflexivity. Defined.

Lemma Refresh_closed : Refresh SCALAR_FLOAT true filter_closed = Some streams_closed.
Proof. vm_compute. reflexivity. Defined.

(** ** Width of one row *)

(** C1, as the code has it: for a well-formed raster and every scanned row
    [i] of [start_bin .. end_bin], the sample of row [i] is
    [(cright - cleft) * time_per_column] narrowed to single precision, where
    time_per_column is [2 * m_uiWidth / GetWidth], a column is occupied when
    its value exceeds [FLT_EPSILON], [cleft] is the rightmost occupied column
    among columns 1 to the center column, the center included (column 0 when
    none is occupied), and [cright] is the leftmost occupied column among the
    center column and those right of it that the scan reaches (the last
    column when none is occupied). *)
Theorem row_width_formula (t : ScalarType) (f : EyeWidthMeasurement) (din : EyeWaveform)
  (out : Streams) (cap : SparseAnalogWaveform) (s e i : Z) :
  valid_eye din -> GetInputWaveform f = Some din ->
  Refresh t true f = Some out -> widthslice out = Some cap ->
  bins f din = Some (s, e) -> s <= i <= e ->
  exists cleft cright,
    is_cleft din i cleft /\ is_cright din i cright /\
    nth_error (m_samples cap) (Z.to_nat (i - s)) =
      Some (narrow (F64.mul (time_per_column_spec din)
                      (F64.of_Z (cright - cleft)))).
Proof.
  intros Hv Hin H Hcap Hb Hi.
  destruct (Refresh_rows t f din out Hv Hin H)
    as (s' & e' & rs & Hb' & Hse & He & Hlen & Hrow & Hws & _).
  rewrite Hb in Hb'. inversion Hb'; subst s' e'; clear Hb'.
  rewrite Hcap in Hws. inversion Hws; subst cap; clear Hws. simpl.
  destruct (nth_error rs (Z.to_nat (i - s))) as [r|] eqn:Hr.
  - destruct (Hrow _ _ Hr) as (Hsc & Hval & _).
    rewrite Z2Nat.id in Hsc by lia.
    replace (s + (i - s)) with i in Hsc by lia.
    destruct (scan_row_spec din Hv i _ _ ltac:(lia) Hsc) as (Hl & Hrt & _).
    exists (r_cleft r), (r_cright r). split; [assumption|].
    split; [assumption|].
    rewrite (map_nth_error _ _ _ Hr). rewrite Hval. reflexivity.
  - apply nth_error_None in Hr. lia.
Qed.

Lemma row_width_formula_witness :
  exists cleft cright,
    is_cleft eye_demo 1 cleft /\ is_cright eye_demo 1 cright /\
    nth_error (m_samples cap_demo) (Z.to_nat (1 - 0)) =
      Some (narrow (F64.mul (time_per_column_spec eye_demo)
                      (F64.of_Z (cright - cleft)))).
Proof.
  apply (row_width_formula SCALAR_FLOAT filter_demo eye_demo streams_demo cap_demo 0 1 1).
  - exact valid_eye_demo.
  - reflexivity.
  - exact Refresh_demo.
  - reflexivity.
  - vm_compute. reflexivity.
  - lia.
Defined.

(** C1 as stated fails: with a hit in the center column the scan stops
    both edges there and the row is 0 fs wide, whereas the edges taken
    strictly left and strictly right of the center are columns 0 and 3,
    750000 fs apart. *)
Lemma row_width_center_hit :
  valid_eye eye_center_hit /\
  bins filter_center_hit eye_center_hit = Some (0, 1) /\
  scan_row eye_center_hit 0 = Some (2, 2) /\
  samples_of (Refresh SCALAR_FLOAT true filter_center_hit) = Some [zero; zero] /\
  closure_left_spec eye_center_hit 0 = 0 /\
  closure_right_spec eye_center_hit 0 = 3 /\
  row_width_spec eye_center_hit 0 = F32.of_Z 750000 /\
  row_width_spec eye_center_hit 0 <> zero.
Proof.
  split; [unfold valid_eye; vm_compute; repeat split; discriminate|].
  vm_compute. repeat split; discriminate.
Qed.

(** ** The scalar output *)



(** On [eye_demo] the two extremes come from different rows: the scalar
    spans 5 columns while the rows open by 3 and 4 columns. *)
Example minwidth_envelope_demo :
  scan_row eye_demo 0 = Some (2, 5) /\ scan_row eye_demo 1 = Some (0, 4) /\
  minwidth streams_demo =
    to_m_value SCALAR_FLOAT
      (F64.mul (time_per_column_spec eye_demo) (F64.of_Z (5 - 0))).
Proof. vm_compute. repeat split. Qed.

Lemma scalar_as_sample_m_value (t : ScalarType) (x : double) :
  scalar_as_sample t (to_m_value t x) = narrow x.
Proof. destruct t; reflexivity. Qed.

(** C10, as the code has it: after every successful [Refresh] on a
    well-formed raster whose time per column is zero or a positive finite
    number, at least one row is scanned and every sample of "widthslice" is
    at most the scalar "minwidth" taken at the samples' single precision:
    the scalar itself when [m_value] is a [float], the scalar rounded to
    [float] when it is a [double].  The accumulated [far_left] is at most
    every row's [cleft] and the accumulated [far_right] at least every
    row's [cright], and multiplying by the time per column and narrowing to
    single precision both keep the order. *)
Theorem minwidth_bounds_samples (t : ScalarType) (f : EyeWidthMeasurement)
  (din : EyeWaveform) (out : Streams) (cap : SparseAnalogWaveform) :
  valid_eye din ->
  nonneg_finite F64.prec F64.emax (fs_per_pixel din) = true ->
  GetInputWaveform f = Some din ->
  Refresh t true f = Some out -> widthslice out = Some cap ->
  m_samples cap <> [] /\
  forall v, In v (m_samples cap) ->
    SFleb v (scalar_as_sample t (minwidth out)) = true.
Proof.
  intros Hv Hfs Hin H Hcap.
  destruct (Refresh_rows t f din out Hv Hin H)
    as (s & e & rs & Hb & Hse & He & Hlen & Hrow & Hws & FL & FR & Hmin & Hmax & Hmw).
  rewrite Hcap in Hws. inversion Hws; subst cap; clear Hws. simpl.
  assert (Hbnd : forall r, In r rs ->
            0 <= r_cleft r <= r_cright r /\ r_cright r <= GetWidth din - 1).
  { intros r Hr. apply In_nth_error in Hr. destruct Hr as (k & Hk).
    assert (Hkn : (k < length rs)%nat) by (apply nth_error_Some; congruence).
    destruct (Hrow k r Hk) as (Hsc & _).
    destruct Hv as (Hw & Hv').
    apply (scan_row_spec din (conj Hw Hv')) in Hsc; [lia|lia]. }
  split.
  { destruct rs; [simpl in Hlen; lia|discriminate]. }
  intros v Hin_v. apply in_map_iff in Hin_v. destruct Hin_v as (r & <- & Hr).
  assert (Hval : r_value r = narrow (F64.mul (time_per_column_spec din)
                                       (F64.of_Z (r_cright r - r_cleft r)))).
  { apply In_nth_error in Hr. destruct Hr as (k & Hk).
    apply (Hrow k r Hk). }
  rewrite Hval, Hmw, scalar_as_sample_m_value.
  rewrite <- (fs_per_pixel_spec din Hv).
  destruct Hmin as (HFL & Hmin). destruct Hmax as (HFR & Hmax).
  specialize (Hmin (r_cleft r) (in_map r_cleft rs r Hr)).
  specialize (Hmax (r_cright r) (in_map r_cright rs r Hr)).
  apply in_map_iff in HFL. destruct HFL as (r1 & H1 & Hr1).
  apply in_map_iff in HFR. destruct HFR as (r2 & H2 & Hr2).
  pose proof (Hbnd r Hr) as Br.
  pose proof (Hbnd r1 Hr1) as B1. pose proof (Hbnd r2 Hr2) as B2.
  destruct Hv as (Hw & Hh & Hsz & _).
  apply width_mono; [assumption|lia|nia].
Qed.

Lemma minwidth_bounds_samples_witness :
  m_samples cap_demo <> [] /\
  forall v, In v (m_samples cap_demo) ->
    SFleb v (scalar_as_sample SCALAR_FLOAT (minwidth streams_demo)) = true.
Proof.
  apply (minwidth_bounds_samples SCALAR_FLOAT filter_demo eye_demo
           streams_demo cap_demo).
  - exact valid_eye_demo.
  - vm_compute. reflexivity.
  - reflexivity.
  - exact Refresh_demo.
  - reflexivity.
Defined.

(** C10 as stated fails in two ways.  With a unit interval of -500000 fs
    the time per column is negative and the order is reversed: the samples
    are -500000 fs and -666666.6875 fs, above a scalar of -833333.3125 fs
    (of either type).  And a scalar kept in double precision can lie below
    a sample that line 156 rounded up: on one empty row of three columns
    the sample is 666666.6875 fs and the scalar 666666.666... fs. *)
Lemma minwidth_below_sample :
  (valid_eye eye_negative_ui /\
   samples_of (Refresh SCALAR_FLOAT true filter_negative_ui)
     = Some [F32.of_Z (-500000); F32.lit (-10666667) (-4)] /\
   minwidth_of (Refresh SCALAR_FLOAT true filter_negative_ui)
     = Some (F32.lit (-13333333) (-4)) /\
   SFleb (F32.of_Z (-500000)) (F32.lit (-13333333) (-4)) = false /\
   SFleb (F32.lit (-10666667) (-4)) (F32.lit (-13333333) (-4)) = false /\
   samples_of (Refresh SCALAR_DOUBLE true filter_negative_ui)
     = Some [F32.of_Z (-500000); F32.lit (-10666667) (-4)] /\
   minwidth_of (Refresh SCALAR_DOUBLE true filter_negative_ui)
     = Some (F64.lit (-7158278826666666) (-33)) /\
   F64.leb (widen (F32.of_Z (-500000))) (F64.lit (-7158278826666666) (-33))
     = false) /\
  (valid_eye eye_thirds /\
   samples_of (Refresh SCALAR_DOUBLE true filter_thirds)
     = Some [F32.lit 10666667 (-4)] /\
   minwidth_of (Refresh SCALAR_DOUBLE true filter_thirds)
     = Some (F64.lit 5726623061333333 (-33)) /\
   F64.leb (widen (F32.lit 10666667 (-4))) (F64.lit 5726623061333333 (-33))
     = false).
Proof.
  split.
  - split; [unfold valid_eye; vm_compute; repeat split; discriminate|].
    vm_compute. repeat split.
  - split; [unfold valid_eye; vm_compute; repeat split; discriminate|].
    vm_compute. repeat split.
Qed.

(** The bound on [eye_demo]: samples of 500000 fs and 666666.6875 fs under
    a scalar of 833333.3125 fs. *)
Example minwidth_bounds_samples_demo :
  map (fun v => SFcompare v (minwidth streams_demo)) (m_samples cap_demo)
    = [Some Lt; Some Lt].
Proof. vm_compute. reflexivity. Qed.

(** Whatever the type of [m_value], the column span behind the scalar is
    at least the span behind every sample. *)
Lemma minwidth_span_covers_rows (t : ScalarType) (f : EyeWidthMeasurement)
  (din : EyeWaveform) (out : Streams) (cap : SparseAnalogWaveform) :
  valid_eye din -> GetInputWaveform f = Some din ->
  Refresh t true f = Some out -> widthslice out = Some cap ->
  exists s FL FR,
    minwidth out =
      to_m_value t (F64.mul (time_per_column_spec din) (F64.of_Z (FR - FL))) /\
    forall k v, nth_error (m_samples cap) k = Some v ->
      exists cleft cright,
        scan_row din (s + Z.of_nat k) = Some (cleft, cright) /\
        v = narrow (F64.mul (time_per_column_spec din)
                      (F64.of_Z (cright - cleft))) /\
        FL <= cleft /\ cright <= FR /\ cright - cleft <= FR - FL.
Proof.
  intros Hv Hin H Hcap.
  destruct (Refresh_rows t f din out Hv Hin H)
    as (s & e & rs & Hb & Hse & He & Hlen & Hrow & Hws & FL & FR & Hmin & Hmax & Hmw).
  rewrite Hcap in Hws. inversion Hws; subst cap; clear Hws. simpl.
  exists s, FL, FR. split; [assumption|].
  intros k v Hk. rewrite nth_error_map in Hk.
  destruct (nth_error rs k) as [r|] eqn:Hr; [|discriminate].
  simpl in Hk. inversion Hk; subst v; clear Hk.
  destruct (Hrow k r Hr) as (Hsc & Hval & _).
  exists (r_cleft r), (r_cright r).
  split; [assumption|]. split; [assumption|].
  apply nth_error_In in Hr.
  destruct Hmin as (_ & Hmin). destruct Hmax as (_ & Hmax).
  specialize (Hmin (r_cleft r) (in_map r_cleft rs r Hr)).
  specialize (Hmax (r_cright r) (in_map r_cright rs r Hr)).
  lia.
Qed.

(** A scalar kept in double precision need not dominate the samples, which
    are single precision: on one empty row of three columns the width, 2/3
    of 1000000 fs, is rounded up in the sample (666666.6875) and not in the
    scalar (666666.666...); narrowed like the sample, the scalar equals
    it. *)
Example minwidth_double_precision :
  samples_of (Refresh SCALAR_DOUBLE true filter_thirds)
    = Some [F32.lit 10666667 (-4)] /\
  minwidth_of (Refresh SCALAR_DOUBLE true filter_thirds)
    = Some (F64.lit 5726623061333333 (-33)) /\
  F64.leb (widen (F32.lit 10666667 (-4))) (F64.lit 5726623061333333 (-33))
    = false /\
  minwidth_of (Refresh SCALAR_FLOAT true filter_thirds)
    = Some (F32.lit 10666667 (-4)).
Proof. vm_compute. repeat split. Qed.

(** ** The sparse waveform *)

(** C5, as the code has it: for a well-formed raster, a successful
    [Refresh] emits exactly [end_bin - start_bin + 1] samples (offsets,
    durations and values alike), one per scanned row and in the order of
    the rows; the sample of row [i] has offset
    [round(i * duration_mv + base_mv)] and duration [round(duration_mv)].
    When the height of a row in millivolts is zero or a positive finite
    number and the bottom of the raster in millivolts is finite, the
    offsets do not decrease along the samples (neighbouring rows may share
    an offset). *)
Theorem widthslice_samples (t : ScalarType) (f : EyeWidthMeasurement) (din : EyeWaveform)
  (out : Streams) :
  valid_eye din -> GetInputWaveform f = Some din ->
  Refresh t true f = Some out ->
  exists s e cap,
    bins f din = Some (s, e) /\ widthslice out = Some cap /\
    Z.of_nat (length (m_samples cap)) = e - s + 1 /\
    Z.of_nat (length (m_offsets cap)) = e - s + 1 /\
    Z.of_nat (length (m_durations cap)) = e - s + 1 /\
    (forall i, s <= i <= e ->
      exists off dur,
        nth_error (m_offsets cap) (Z.to_nat (i - s)) = Some off /\
        nth_error (m_durations cap) (Z.to_nat (i - s)) = Some dur /\
        to_int64 (round (F32.add (F32.mul (F32.of_Z i)
                                    (duration_mv (GetVoltageRange f) din))
                                 (base_mv (GetVoltageRange f) din)))
          = Some off /\
        to_int64 (round (duration_mv (GetVoltageRange f) din)) = Some dur) /\
    (nonneg_finite F32.prec F32.emax (duration_mv (GetVoltageRange f) din)
       = true ->
     finite_valid F32.prec F32.emax (base_mv (GetVoltageRange f) din)
       = true ->
     non_decreasing (m_offsets cap)).
Proof.
  intros Hv Hin H.
  destruct (Refresh_rows t f din out Hv Hin H)
    as (s & e & rs & Hb & Hse & He & Hlen & Hrow & Hws & _).
  eexists s, e, _. split; [assumption|]. split; [exact Hws|]. simpl.
  rewrite !length_map. repeat (split; [assumption|]).
  split.
  - intros i Hi.
    destruct (nth_error rs (Z.to_nat (i - s))) as [r|] eqn:Hr.
    + destruct (Hrow _ _ Hr) as (_ & _ & Hoff & Hdur).
      rewrite Z2Nat.id in Hoff by lia.
      replace (s + (i - s)) with i in Hoff by lia.
      exists (r_offset r), (r_duration r).
      rewrite !nth_error_map, Hr. simpl. auto.
    + apply nth_error_None in Hr. lia.
  - intros Hdur Hbase j k a b Hjk Ha Hb'.
    rewrite nth_error_map in Ha, Hb'.
    destruct (nth_error rs j) as [rj|] eqn:Hj; [|discriminate].
    destruct (nth_error rs k) as [rk|] eqn:Hk; [|discriminate].
    simpl in Ha, Hb'. inversion Ha; inversion Hb'; subst a b.
    destruct (Hrow _ _ Hj) as (_ & _ & Hoj & _).
    destruct (Hrow _ _ Hk) as (_ & _ & Hok & _).
    assert (Hkn : (k < length rs)%nat) by (apply nth_error_Some; congruence).
    destruct Hv as (Hw & Hh & Hwh & _).
    apply (row_offset_mono _ _ (s + Z.of_nat j) (s + Z.of_nat k) _ _
             Hdur Hbase); [lia|nia|exact Hoj|exact Hok].
Qed.

Lemma widthslice_samples_witness :
  exists s e cap,
    bins filter_demo eye_demo = Some (s, e) /\
    widthslice streams_demo = Some cap /\
    Z.of_nat (length (m_samples cap)) = e - s + 1 /\
    Z.of_nat (length (m_offsets cap)) = e - s + 1 /\
    Z.of_nat (length (m_durations cap)) = e - s + 1 /\
    (forall i, s <= i <= e ->
      exists off dur,
        nth_error (m_offsets cap) (Z.to_nat (i - s)) = Some off /\
        nth_error (m_durations cap) (Z.to_nat (i - s)) = Some dur /\
        to_int64 (round (F32.add (F32.mul (F32.of_Z i)
                     (duration_mv (GetVoltageRange filter_demo) eye_demo))
                     (base_mv (GetVoltageRange filter_demo) eye_demo)))
          = Some off /\
        to_int64 (round (duration_mv (GetVoltageRange filter_demo) eye_demo))
          = Some dur) /\
    non_decreasing (m_offsets cap).
Proof.
  destruct (widthslice_samples SCALAR_FLOAT filter_demo eye_demo streams_demo
              valid_eye_demo eq_refl Refresh_demo)
    as (s & e & cap & Hb & Hw & Hs & Ho & Hd & Hrow & Hmono).
  exists s, e, cap. repeat (split; [assumption|]).
  apply Hmono; vm_compute; reflexivity.
Defined.

(** C5 as stated fails: with rows of 2^-11 V (0.48828125 mV) the four
    scanned rows get the offsets -1, 0, 0, 0, which are not strictly
    ordered. *)
Lemma widthslice_offsets_repeat :
  valid_eye eye_fine /\
  bins filter_fine eye_fine = Some (0, 3) /\
  offsets_of (Refresh SCALAR_FLOAT true filter_fine) = Some [-1; 0; 0; 0] /\
  ~ strictly_increasing [-1; 0; 0; 0].
Proof.
  split; [unfold valid_eye; vm_compute; repeat split; discriminate|].
  split; [vm_compute; reflexivity|]. split; [vm_compute; reflexivity|].
  intros Hs. specialize (Hs 1%nat 2%nat 0 0). simpl in Hs.
  assert (0 < 0) by (apply Hs; [lia|reflexivity|reflexivity]). lia.
Qed.

(** ** Rows that are closed except at the center *)

(** C9, as the code has it: on a well-formed raster at least three columns
    wide in which, in every scanned row, every column is occupied except
    the center one, the scan of every row ends with [cleft] one column left
    of the center and [cright] one column right of it, two columns apart,
    and the scalar is the time of two columns. *)
Theorem closed_rows_two_columns (t : ScalarType) (f : EyeWidthMeasurement) (din : EyeWaveform)
  (out : Streams) (s e : Z) :
  valid_eye din -> 3 <= GetWidth din ->
  GetInputWaveform f = Some din -> Refresh t true f = Some out ->
  bins f din = Some (s, e) ->
  (forall i x, s <= i <= e -> 0 <= x < GetWidth din ->
               column_occupied din i x = negb (x =? xcenter din)) ->
  (forall i, s <= i <= e ->
             scan_row din i = Some (xcenter din - 1, xcenter din + 1)) /\
  minwidth out =
    to_m_value t (F64.mul (time_per_column_spec din) (F64.of_Z 2)).
Proof.
  intros Hv Hw3 Hin H Hb Hocc.
  destruct (Refresh_rows t f din out Hv Hin H)
    as (s' & e' & rs & Hb' & Hse & He & Hlen & Hrow & _ & FL & FR & Hmin & Hmax & Hmw).
  rewrite Hb in Hb'. inversion Hb'; subst s' e'; clear Hb'.
  destruct (valid_eye_xcenter din Hv) as (_ & Hx0 & Hx1 & Hx2).
  assert (Hscan : forall i cl cr, s <= i <= e -> scan_row din i = Some (cl, cr) ->
                    cl = xcenter din - 1 /\ cr = xcenter din + 1).
  { intros i cl cr Hi Hsc.
    destruct (scan_row_spec din Hv i cl cr ltac:(lia) Hsc)
      as ((Hl1 & Hl2) & (Hr1 & Hr2) & Hcl & Hcr & _).
    assert (Hc : forall x, 0 <= x < GetWidth din ->
                   column_occupied din i x = true <-> x <> xcenter din).
    { intros x Hx. rewrite (Hocc i x Hi Hx).
      destruct (Z.eqb_spec x (xcenter din)); simpl; split;
        congruence || discriminate || auto. }
    split.
    - destruct (Z.eq_dec (xcenter din) 1) as [Hx1'|Hx1'].
      + destruct Hl1 as [->|(Hrg & Ho)]; [lia|].
        apply Hc in Ho; lia.
      + assert (xcenter din - 1 <= cl)
          by (apply Hl2; [lia|apply Hc; lia]).
        destruct Hl1 as [->|(Hrg & Ho)]; [lia|].
        apply Hc in Ho; lia.
    - destruct (Z.eq_dec (xcenter din) 1) as [Hx1'|Hx1'].
      + destruct Hr1 as [->|(Hrg & Ho)]; [lia|].
        apply Hc in Ho; lia.
      + assert (cr <= xcenter din + 1)
          by (apply Hr2; [lia|apply Hc; lia]).
        destruct Hr1 as [->|(Hrg & Ho)]; [lia|].
        apply Hc in Ho; lia. }
  assert (Hall : forall r, In r rs ->
                   r_cleft r = xcenter din - 1 /\ r_cright r = xcenter din + 1).
  { intros r Hr. apply In_nth_error in Hr. destruct Hr as (k & Hk).
    assert (Hkn : (k < length rs)%nat) by (apply nth_error_Some; congruence).
    destruct (Hrow k r Hk) as (Hsc & _).
    apply Hscan in Hsc; [assumption|lia]. }
  split.
  - intros i Hi.
    destruct (nth_error rs (Z.to_nat (i - s))) as [r|] eqn:Hr;
      [|apply nth_error_None in Hr; lia].
    destruct (Hrow _ _ Hr) as (Hsc & _).
    rewrite Z2Nat.id in Hsc by lia.
    replace (s + (i - s)) with i in Hsc by lia.
    destruct (Hall r (nth_error_In _ _ Hr)) as (<- & <-). assumption.
  - rewrite Hmw. do 3 f_equal.
    destruct Hmin as (Hmin & _). destruct Hmax as (Hmax & _).
    apply in_map_iff in Hmin. destruct Hmin as (r1 & <- & Hr1).
    apply in_map_iff in Hmax. destruct Hmax as (r2 & <- & Hr2).
    apply Hall in Hr1. apply Hall in Hr2. lia.
Qed.

Lemma closed_rows_two_columns_witness :
  (forall i, 0 <= i <= 1 ->
             scan_row eye_closed i
               = Some (xcenter eye_closed - 1, xcenter eye_closed + 1)) /\
  minwidth streams_closed
    = to_m_value SCALAR_FLOAT
        (F64.mul (time_per_column_spec eye_closed) (F64.of_Z 2)).
Proof.
  apply (closed_rows_two_columns SCALAR_FLOAT filter_closed eye_closed streams_closed 0 1).
  - exact valid_eye_closed.
  - simpl. lia.
  - reflexivity.
  - exact Refresh_closed.
  - vm_compute. reflexivity.
  - intros i x Hi Hx. simpl in Hx.
    assert (Hi' : i = 0 \/ i = 1) by lia.
    assert (Hx' : x = 0 \/ x = 1 \/ x = 2 \/ x = 3) by lia.
    destruct Hi' as [->| ->]; destruct Hx' as [->|[->|[->| ->]]];
      vm_compute; reflexivity.
Defined.

(** C9 as stated fails: with every column occupied except the center one
    (column 2 of 4), both rows end with [cleft = 1] and [cright = 3], two
    columns apart, and the scalar is 500000 fs, twice the 250000 fs of one
    column. *)
Lemma closed_rows_not_one_column :
  valid_eye eye_closed /\
  bins filter_closed eye_closed = Some (0, 1) /\
  map (column_occupied eye_closed 0) [0; 1; 2; 3] = [true; true; false; true] /\
  map (column_occupied eye_closed 1) [0; 1; 2; 3] = [true; true; false; true] /\
  scan_row eye_closed 0 = Some (1, 3) /\
  scan_row eye_closed 1 = Some (1, 3) /\
  minwidth_of (Refresh SCALAR_FLOAT true filter_closed) = Some (F32.of_Z 500000) /\
  minwidth_of (Refresh SCALAR_DOUBLE true filter_closed) = Some (F64.of_Z 500000) /\
  fs_per_pixel eye_closed = F64.of_Z 250000 /\
  to_m_value SCALAR_FLOAT (fs_per_pixel eye_closed) = F32.of_Z 250000 /\
  F32.of_Z 500000 <> F32.of_Z 250000 /\
  F64.of_Z 500000 <> F64.of_Z 250000.
Proof.
  split; [exact valid_eye_closed|].
  vm_compute. repeat split; discriminate.
Qed.

(** ** Thresholds below the raster *)

(** Scenario A: thresholds -0.5 V and 0.5 V on 64 rows of 31.25 mV select
    rows 16 to 48, in either order, and 33 samples are emitted. *)
Example bins_scenario_A :
  bins filter_scenario_A eye_scenario_A = Some (16, 48) /\
  bins (swap_voltages filter_scenario_A) eye_scenario_A = Some (16, 48) /\
  option_map (@length float)
    (samples_of (Refresh SCALAR_FLOAT true filter_scenario_A)) = Some 33%nat.
Proof. vm_compute. repeat split. Qed.

(** C4 at -2 V, one volt below the bottom of a raster of 64 rows spanning
    -1 V to 1 V: the rounded row number is -32, its conversion to [size_t]
    is not defined and the minimum with [GetHeight()-1] comes too late to
    yield row 0.  Above the top (7 V, row number 256) the minimum yields
    row 63. *)
Lemma bin_of_voltage_below_bottom :
  round (F32.div (F32.sub (F32.of_Z (-2))
                    (volts_at_bottom (F32.of_Z 2) eye_scenario_A))
                 (volts_per_row (F32.of_Z 2) eye_scenario_A))
    = F32.of_Z (-32) /\
  to_size_t (F32.of_Z (-32)) = None /\
  bin_of_voltage (F32.of_Z 2) eye_scenario_A (F32.of_Z (-2)) = None /\
  bin_of_voltage (F32.of_Z 2) eye_scenario_A (F32.of_Z (-2)) <> Some 0 /\
  bin_of_voltage (F32.of_Z 2) eye_scenario_A (F32.of_Z 7) = Some 63.
Proof. vm_compute. repeat split; discriminate. Qed.

(** C3 with a Start Voltage of -2 V and an End Voltage of 0.5 V on the
    same raster: no pair of row indices is computed, in either order of
    the two parameters, and [Refresh] has no defined result. *)
Lemma bins_start_below_bottom :
  valid_eye eye_scenario_A /\
  bins filter_below eye_scenario_A = None /\
  bins (swap_voltages filter_below) eye_scenario_A = None /\
  Refresh SCALAR_FLOAT true filter_below = None.
Proof.
  split; [unfold valid_eye; vm_compute; repeat split; discriminate|].
  vm_compute. repeat split.
Qed.

(** * Further properties *)

(** ** The scan stays inside the raster *)

Lemma scan_row_some (din : EyeWaveform) (i : Z) :
  valid_eye din -> 0 <= i < GetHeight din ->
  exists cl cr, scan_row din i = Some (cl, cr).
Proof.
  intros Hv Hi.
  destruct (scan_row din i) as [[cl cr]|] eqn:Hs.
  - exists cl, cr. reflexivity.
  - exfalso. revert Hs. apply scan_row_total; assumption.
Qed.

(** X1: for a well-formed raster and a row inside it, the scan of lines
    134-151 reads only inside the sample buffer, and it leaves
    [0 <= cleft <= xcenter <= cright <= w - 1]: the opening it reports never
    has a negative width and always contains the center column. *)
Theorem scan_row_in_bounds (din : EyeWaveform) (i : Z) :
  valid_eye din -> 0 <= i < GetHeight din ->
  exists cl cr,
    scan_row din i = Some (cl, cr) /\
    0 <= cl <= xcenter din /\ xcenter din <= cr <= GetWidth din - 1.
Proof.
  intros Hv Hi.
  destruct (scan_row_some din i Hv Hi) as (cl & cr & Hs).
  exists cl, cr. split; [assumption|].
  destruct (scan_row_spec din Hv i cl cr Hi Hs) as (_ & _ & Hl & Hr & _).
  split; assumption.
Qed.

Lemma scan_row_in_bounds_witness :
  exists cl cr,
    scan_row eye_demo 1 = Some (cl, cr) /\
    0 <= cl <= xcenter eye_demo /\
    xcenter eye_demo <= cr <= GetWidth eye_demo - 1.
Proof.
  apply (scan_row_in_bounds eye_demo 1 valid_eye_demo).
  simpl. lia.
Defined.

(** ** Rows that all open alike *)

Lemma singleton_min (x : Z) (l : list Z) :
  (forall z, In z l -> z = x) -> forall m, is_min m l -> m = x.
Proof. intros H m (Hin & _). auto. Qed.

Lemma singleton_max (x : Z) (l : list Z) :
  (forall z, In z l -> z = x) -> forall m, is_max m l -> m = x.
Proof. intros H m (Hin & _). auto. Qed.

(** When the scan finds the same edges in every scanned row, every sample
    is the width between these edges, and so is the scalar. *)
Lemma Refresh_uniform (t : ScalarType) (f : EyeWidthMeasurement)
  (din : EyeWaveform) (out : Streams) (cl cr : Z) :
  valid_eye din -> GetInputWaveform f = Some din ->
  Refresh t true f = Some out ->
  (forall s e i, bins f din = Some (s, e) -> s <= i <= e ->
                 scan_row din i = Some (cl, cr)) ->
  (exists cap, widthslice out = Some cap /\ m_samples cap <> [] /\
     forall v, In v (m_samples cap) ->
       v = narrow (F64.mul (fs_per_pixel din) (F64.of_Z (cr - cl)))) /\
  minwidth out = to_m_value t (F64.mul (fs_per_pixel din) (F64.of_Z (cr - cl))).
Proof.
  intros Hv Hin H Hrows.
  destruct (Refresh_rows t f din out Hv Hin H)
    as (s & e & rs & Hb & Hse & He & Hlen & Hrow & Hws & FL & FR & Hmin & Hmax & Hmw).
  rewrite (fs_per_pixel_spec din Hv).
  assert (Hall : forall r, In r rs -> r_cleft r = cl /\ r_cright r = cr /\
            r_value r = narrow (F64.mul (time_per_column_spec din)
                                  (F64.of_Z (cr - cl)))).
  { intros r Hr. apply In_nth_error in Hr. destruct Hr as (k & Hk).
    assert (Hkn : (k < length rs)%nat) by (apply nth_error_Some; congruence).
    destruct (Hrow k r Hk) as (Hsc & Hval & _).
    rewrite (Hrows s e (s + Z.of_nat k) Hb) in Hsc by lia.
    injection Hsc as Hc1 Hc2. rewrite <- Hc1, <- Hc2 in Hval.
    repeat split; auto. }
  split.
  - eexists. split; [exact Hws|]. simpl. split.
    + destruct rs; [simpl in Hlen; lia|discriminate].
    + intros v Hin'. apply in_map_iff in Hin'.
      destruct Hin' as (r & <- & Hr). apply Hall, Hr.
  - rewrite Hmw.
    assert (FL = cl).
    { apply (singleton_min cl (map r_cleft rs)); [|assumption].
      intros z Hz. apply in_map_iff in Hz. destruct Hz as (r & <- & Hr).
      apply Hall, Hr. }
    assert (FR = cr).
    { apply (singleton_max cr (map r_cright rs)); [|assumption].
      intros z Hz. apply in_map_iff in Hz. destruct Hz as (r & <- & Hr).
      apply Hall, Hr. }
    subst. reflexivity.
Qed.

Lemma SFmul_zero_r (prec emax : Z) (x : spec_float) :
  is_finite x = true ->
  is_zero (SFmul prec emax x (S754_zero false)) = true.
Proof. destruct x; try discriminate; reflexivity. Qed.

Lemma to_m_value_zero (t : ScalarType) (x : double) :
  is_zero x = true -> is_zero (to_m_value t x) = true.
Proof. destruct x; try discriminate. destruct t; reflexivity. Qed.

(** X2: when the center column is occupied in every scanned row and the
    time per column is finite, every sample of the waveform is zero and so
    is the scalar: the eye is reported as closed, whatever the other
    columns hold. *)
Theorem center_hits_give_zero_width (t : ScalarType) (f : EyeWidthMeasurement)
  (din : EyeWaveform) (out : Streams) :
  valid_eye din -> GetInputWaveform f = Some din ->
  is_finite (fs_per_pixel din) = true ->
  Refresh t true f = Some out ->
  (forall s e i, bins f din = Some (s, e) -> s <= i <= e ->
                 column_occupied din i (xcenter din) = true) ->
  (exists cap, widthslice out = Some cap /\ m_samples cap <> [] /\
     forall v, In v (m_samples cap) -> is_zero v = true) /\
  is_zero (minwidth out) = true.
Proof.
  intros Hv Hin Hfs H Hocc.
  destruct (Refresh_uniform t f din out (xcenter din) (xcenter din) Hv Hin H)
    as ((cap & Hws & Hne & Hs) & Hmw).
  { intros s e i Hb Hi.
    destruct (bins_range f din s e Hv Hb) as (Hs & He).
    destruct (scan_row_some din i Hv ltac:(lia)) as (cl & cr & Hsc).
    destruct (scan_row_spec din Hv i cl cr ltac:(lia) Hsc)
      as ((_ & Hl) & (_ & Hr) & Hcl & Hcr & _).
    specialize (Hocc s e i Hb Hi).
    destruct (valid_eye_xcenter din Hv) as (_ & Hx0 & Hx1 & Hx2).
    destruct (Z.eq_dec (xcenter din) 0) as [Hz|Hnz].
    - rewrite Hsc. f_equal. f_equal; lia.
    - specialize (Hl (xcenter din) ltac:(lia) Hocc).
      specialize (Hr (xcenter din) ltac:(lia) Hocc).
      rewrite Hsc. f_equal. f_equal; lia. }
  rewrite Z.sub_diag in Hs, Hmw.
  change (F64.of_Z 0) with (S754_zero false) in Hs, Hmw.
  pose proof (SFmul_zero_r F64.prec F64.emax _ Hfs) as Hz.
  fold (F64.mul (fs_per_pixel din) (S754_zero false)) in Hz.
  split.
  - exists cap. split; [assumption|]. split; [assumption|].
    intros v Hvin. rewrite (Hs v Hvin).
    apply (to_m_value_zero SCALAR_FLOAT), Hz.
  - rewrite Hmw. apply to_m_value_zero, Hz.
Qed.

Ltac two_rows Hb Hi :=
  vm_compute in Hb; injection Hb as <- <-;
  match type of Hi with
  | _ <= ?i <= _ =>
      let H := fresh in
      assert (H : i = 0 \/ i = 1) by lia; destruct H as [->| ->]
  end.

Lemma valid_eye_center_hit : valid_eye eye_center_hit.
Proof. unfold valid_eye; vm_compute; repeat split; discriminate. Defined.

Lemma center_hits_give_zero_width_witness :
  exists out,
    Refresh SCALAR_FLOAT true filter_center_hit = Some out /\
    (exists cap, widthslice out = Some cap /\ m_samples cap <> [] /\
       forall v, In v (m_samples cap) -> is_zero v = true) /\
    is_zero (minwidth out) = true.
Proof.
  eexists. split; [vm_compute; reflexivity|].
  apply (center_hits_give_zero_width SCALAR_FLOAT filter_center_hit
           eye_center_hit).
  - exact valid_eye_center_hit.
  - reflexivity.
  - reflexivity.
  - vm_compute; reflexivity.
  - intros s e i Hb Hi. two_rows Hb Hi; reflexivity.
Defined.

(** X3: when no column from 1 to [w - 1] is occupied in any scanned row,
    every sample and the scalar are the width of [w - 1] columns: an empty
    raster measures one column less than the two unit intervals the raster
    spans. *)
Theorem open_rows_span_all_but_one_column (t : ScalarType)
  (f : EyeWidthMeasurement) (din : EyeWaveform) (out : Streams) :
  valid_eye din -> GetInputWaveform f = Some din ->
  Refresh t true f = Some out ->
  (forall s e i x, bins f din = Some (s, e) -> s <= i <= e ->
                   1 <= x <= GetWidth din - 1 ->
                   column_occupied din i x = false) ->
  (exists cap, widthslice out = Some cap /\ m_samples cap <> [] /\
     forall v, In v (m_samples cap) ->
       v = narrow (F64.mul (fs_per_pixel din) (F64.of_Z (GetWidth din - 1)))) /\
  minwidth out =
    to_m_value t (F64.mul (fs_per_pixel din) (F64.of_Z (GetWidth din - 1))).
Proof.
  intros Hv Hin H Hfree.
  rewrite <- (Z.sub_0_r (GetWidth din - 1)).
  apply (Refresh_uniform t f din out 0 (GetWidth din - 1) Hv Hin H).
  intros s e i Hb Hi.
  destruct (bins_range f din s e Hv Hb) as (Hs & He).
  destruct (scan_row_some din i Hv ltac:(lia)) as (cl & cr & Hsc).
  destruct (scan_row_spec din Hv i cl cr ltac:(lia) Hsc)
    as ((Hl & _) & (Hr & _) & Hcl & Hcr & _).
  destruct (valid_eye_xcenter din Hv) as (_ & Hx0 & Hx1 & Hx2).
  assert (cl = 0).
  { destruct Hl as [Hl|(Hl & Ho)]; [assumption|].
    rewrite (Hfree s e i cl Hb Hi) in Ho by lia. discriminate. }
  assert (cr = GetWidth din - 1).
  { destruct Hr as [Hr|(Hr & Ho)]; [assumption|].
    rewrite (Hfree s e i cr Hb Hi) in Ho by lia. discriminate. }
  subst. assumption.
Qed.

Lemma valid_eye_thirds : valid_eye eye_thirds.
Proof. unfold valid_eye; vm_compute; repeat split; discriminate. Defined.

Lemma open_rows_span_all_but_one_column_witness :
  exists out,
    Refresh SCALAR_FLOAT true filter_thirds = Some out /\
    (exists cap, widthslice out = Some cap /\ m_samples cap <> [] /\
       forall v, In v (m_samples cap) ->
         v = narrow (F64.mul (fs_per_pixel eye_thirds)
                       (F64.of_Z (GetWidth eye_thirds - 1)))) /\
    minwidth out =
      to_m_value SCALAR_FLOAT
        (F64.mul (fs_per_pixel eye_thirds)
           (F64.of_Z (GetWidth eye_thirds - 1))).
Proof.
  eexists. split; [vm_compute; reflexivity|].
  apply (open_rows_span_all_but_one_column SCALAR_FLOAT filter_thirds
           eye_thirds).
  - exact valid_eye_thirds.
  - reflexivity.
  - vm_compute; reflexivity.
  - intros s e i x Hb Hi Hx. vm_compute in Hb. injection Hb as <- <-.
    assert (i = 0) by lia. subst i. simpl in Hx.
    assert (Hc : x = 1 \/ x = 2) by lia.
    destruct Hc as [->| ->]; reflexivity.
Defined.

(** ** Equal thresholds *)

Lemma bins_equal (f : EyeWidthMeasurement) (din : EyeWaveform) (s e : Z) :
  m_startname f = m_endname f -> bins f din = Some (s, e) -> s = e.
Proof.
  intros Heq H. unfold bins, order_voltages in H. rewrite Heq in H.
  destruct (F32.gt (m_endname f) (m_endname f)); inv_bind H; congruence.
Qed.

(** X4: with the Start and End Voltage equal (the constructor sets both
    to 0), a successful [Refresh] scans exactly one row: the waveform holds
    one sample, and a single-precision scalar is that sample. *)
Theorem equal_thresholds_one_sample (t : ScalarType) (f : EyeWidthMeasurement)
  (din : EyeWaveform) (out : Streams) :
  valid_eye din -> GetInputWaveform f = Some din ->
  m_startname f = m_endname f ->
  Refresh t true f = Some out ->
  exists off dur v,
    widthslice out =
      Some {| m_timescale := 1; m_offsets := [off]; m_durations := [dur];
              m_samples := [v] |} /\
    (t = SCALAR_FLOAT -> minwidth out = v).
Proof.
  intros Hv Hin Heq H.
  destruct (Refresh_rows t f din out Hv Hin H)
    as (s & e & rs & Hb & Hse & He & Hlen & Hrow & Hws & FL & FR & Hmin & Hmax & Hmw).
  pose proof (bins_equal f din s e Heq Hb) as Hs. subst e.
  destruct rs as [|r [|r' rs]]; simpl in Hlen; try lia.
  exists (r_offset r), (r_duration r), (r_value r).
  split; [exact Hws|]. intros ->.
  destruct (Hrow 0%nat r eq_refl) as (_ & Hval & _).
  rewrite Hmw, Hval. simpl.
  destruct Hmin as ([<-|[]] & _). destruct Hmax as ([<-|[]] & _).
  reflexivity.
Qed.

Lemma equal_thresholds_one_sample_witness :
  exists out,
    Refresh SCALAR_FLOAT true
      (filter_on eye_demo (F32.of_Z 2) (F32.of_Z 0) (F32.of_Z 0)) = Some out /\
    exists off dur v,
      widthslice out =
        Some {| m_timescale := 1; m_offsets := [off]; m_durations := [dur];
                m_samples := [v] |} /\
      (SCALAR_FLOAT = SCALAR_FLOAT -> minwidth out = v).
Proof.
  eexists. split; [vm_compute; reflexivity|].
  apply (equal_thresholds_one_sample SCALAR_FLOAT
           (filter_on eye_demo (F32.of_Z 2) (F32.of_Z 0) (F32.of_Z 0))
           eye_demo).
  - exact valid_eye_demo.
  - reflexivity.
  - reflexivity.
  - vm_compute; reflexivity.
Defined.

(** ** A scan without rows *)

(** X5: when the row indices come out with [end_bin < start_bin], the loop
    of lines 132-162 scans no row, [far_left] and [far_right] keep
    [INT64_MAX] and [INT64_MIN], and the subtraction of line 164 overflows:
    [Refresh] has no defined result. *)
Theorem empty_scan_overflows (t : ScalarType) (f : EyeWidthMeasurement)
  (din : EyeWaveform) (s e : Z) :
  GetInputWaveform f = Some din -> bins f din = Some (s, e) -> e < s ->
  Refresh t true f = None.
Proof.
  intros Hin Hb Hlt. unfold Refresh. simpl negb. cbv iota.
  rewrite Hin. cbn [bind]. rewrite Hb. cbn [bind]. unfold for_rows.
  destruct (e =? SIZE_MAX); [reflexivity|].
  replace (Z.to_nat (e + 1 - s)) with O by lia. reflexivity.
Qed.

(** A raster whose voltage range is given as -2 V: the row index falls as
    the voltage rises. *)
Lemma empty_scan_overflows_witness :
  bins (filter_on eye_demo (F32.of_Z (-2)) (F32.of_Z (-1)) (F32.of_Z 1))
       eye_demo = Some (1, 0) /\
  Refresh SCALAR_FLOAT true
    (filter_on eye_demo (F32.of_Z (-2)) (F32.of_Z (-1)) (F32.of_Z 1)) = None.
Proof.
  split; [vm_compute; reflexivity|].
  apply (empty_scan_overflows SCALAR_FLOAT _ eye_demo 1 0).
  - reflexivity.
  - vm_compute; reflexivity.
  - lia.
Defined.

(** ** Thresholds that are not finite *)

Lemma bin_of_voltage_not_finite (vrange : float) (din : EyeWaveform)
  (v : float) :
  is_finite v = false -> bin_of_voltage vrange din v = None.
Proof.
  unfold bin_of_voltage.
  generalize (volts_at_bottom vrange din) (volts_per_row vrange din).
  intros bot vpr Hv. unfold F32.sub, F32.div.
  destruct v as [s|s| |s m e]; try discriminate; [|reflexivity].
  destruct bot as [sb|sb| |sb mb eb]; try reflexivity;
    destruct vpr as [sv|sv| |sv mv ev]; try reflexivity;
    destruct s, sb; reflexivity.
Qed.

(** X6: when the Start Voltage or the End Voltage is a NaN or an infinity,
    the conversion of the row index to [size_t] (lines 117-118) is
    undefined whatever the raster and the voltage range are: [Refresh] has
    no defined result. *)
Theorem threshold_not_finite (t : ScalarType) (f : EyeWidthMeasurement) :
  is_finite (m_startname f) = false \/ is_finite (m_endname f) = false ->
  Refresh t true f = None.
Proof.
  intros H. unfold Refresh. simpl negb. cbv iota.
  destruct (GetInputWaveform f) as [din|]; [cbn [bind]|reflexivity].
  assert (Hb : bins f din = None); [|rewrite Hb; reflexivity].
  unfold bins, order_voltages.
  destruct (F32.gt (m_startname f) (m_endname f));
    destruct H as [H|H];
    rewrite (bin_of_voltage_not_finite _ _ _ H); cbn [bind];
    try reflexivity;
    match goal with
    | |- bind ?m _ = None => destruct m; reflexivity
    end.
Qed.

Lemma threshold_not_finite_witness :
  Refresh SCALAR_FLOAT true
    (filter_on eye_demo (F32.of_Z 2) (F32.of_Z (-1)) (S754_infinity false))
  = None.
Proof.
  apply threshold_not_finite. right. reflexivity.
Defined.

(** ** The order of the thresholds *)

(** X7: after lines 102-110 the two voltages are the two parameters, in
    one order or the other, and the first is never greater than the second
    (a NaN compares false and leaves the order as it is). *)
Theorem order_voltages_sorted (vstart vend : float) :
  (order_voltages vstart vend = (vstart, vend) \/
   order_voltages vstart vend = (vend, vstart)) /\
  F32.gt (fst (order_voltages vstart vend)) (snd (order_voltages vstart vend))
    = false.
Proof.
  unfold order_voltages.
  destruct (F32.gt vstart vend) eqn:Hgt; simpl.
  - split; [right; reflexivity|].
    unfold F32.gt, SFltb in *. rewrite (SFcompare_swap vend vstart).
    destruct (SFcompare vend vstart) as [[| |]|]; try discriminate.
    reflexivity.
  - split; [left; reflexivity|assumption].
Qed.

(** ** The filter's own streams *)

(** X8: neither of the two streams the constructor declares is accepted
    by [ValidateChannel], at any input index: an eye-width measurement
    cannot be fed from an eye-width measurement. *)
Theorem own_streams_rejected (i : Z) :
  ValidateChannel i {| m_channel := Some EyeWidthMeasurement_streams;
                       m_stream := 0 |} = false /\
  ValidateChannel i {| m_channel := Some EyeWidthMeasurement_streams;
                       m_stream := 1 |} = false.
Proof.
  unfold ValidateChannel. simpl. rewrite !andb_false_r. split; reflexivity.
Qed.

(** ** What the scan reads *)

Lemma scan_step_ext (d1 d2 : list float) (base xc dx : Z) (c : Z * Z) :
  read d1 base (xc - dx) <> None -> read d1 base (xc + dx) <> None ->
  read d2 base (xc - dx) <> None -> read d2 base (xc + dx) <> None ->
  occupied_at d1 base (xc - dx) = occupied_at d2 base (xc - dx) ->
  occupied_at d1 base (xc + dx) = occupied_at d2 base (xc + dx) ->
  scan_step d1 base xc dx c = scan_step d2 base xc dx c.
Proof.
  unfold scan_step, occupied_at, occupied. destruct c as [cl cr].
  intros H1 H2 H3 H4 Hl Hr.
  destruct (read d1 base (xc - dx)) as [a1|]; [|congruence].
  destruct (read d1 base (xc + dx)) as [b1|]; [|congruence].
  destruct (read d2 base (xc - dx)) as [a2|]; [|congruence].
  destruct (read d2 base (xc + dx)) as [b2|]; [|congruence].
  cbn [bind]. rewrite Hl, Hr. reflexivity.
Qed.

Lemma scan_loop_ext (d1 d2 : list float) (base xc : Z) :
  forall (n : nat) (dx : Z) (c : Z * Z),
    (forall k, 0 <= k < Z.of_nat n ->
       (read d1 base (xc - (dx + k)) <> None /\
        read d1 base (xc + (dx + k)) <> None) /\
       (read d2 base (xc - (dx + k)) <> None /\
        read d2 base (xc + (dx + k)) <> None) /\
       occupied_at d1 base (xc - (dx + k)) =
       occupied_at d2 base (xc - (dx + k)) /\
       occupied_at d1 base (xc + (dx + k)) =
       occupied_at d2 base (xc + (dx + k))) ->
    scan_loop d1 base xc n dx c = scan_loop d2 base xc n dx c.
Proof.
  induction n as [|n IH]; intros dx c H; [reflexivity|].
  cbn [scan_loop].
  assert (Hs : scan_step d1 base xc dx c = scan_step d2 base xc dx c).
  { destruct (H 0 ltac:(lia)) as ((A1 & A2) & (B1 & B2) & C1 & C2).
    rewrite Z.add_0_r in *. apply scan_step_ext; assumption. }
  rewrite Hs. destruct (scan_step d2 base xc dx c) as [c'|]; [|reflexivity].
  cbn [bind]. apply IH. intros k Hk.
  replace (dx + 1 + k) with (dx + (k + 1)) by lia. apply H. lia.
Qed.

Lemma valid_eye_with_data (din : EyeWaveform) (data : list float) :
  valid_eye din -> length data = length (GetData din) ->
  valid_eye (with_data din data).
Proof.
  unfold valid_eye. simpl. intros (Hw & Hh & Hsz & Hlen) Hd.
  rewrite Hd. auto.
Qed.

Lemma scan_row_ext (din : EyeWaveform) (data : list float) (i : Z) :
  valid_eye din -> length data = length (GetData din) ->
  0 <= i < GetHeight din ->
  (forall x, 1 <= x <= 2 * xcenter din - 1 ->
             column_occupied (with_data din data) i x =
             column_occupied din i x) ->
  scan_row (with_data din data) i = scan_row din i.
Proof.
  intros Hv Hd Hi Hocc.
  pose proof (valid_eye_with_data din data Hv Hd) as Hv'.
  destruct (valid_eye_xcenter din Hv) as (_ & Hx0 & Hx1 & Hx2).
  unfold scan_row. cbn [with_data GetWidth GetData].
  destruct (sub_int64 (int64_of_size_t (GetWidth din)) 1) as [cr|];
    [cbn [bind]|reflexivity].
  rewrite (valid_eye_row_base din Hv i Hi).
  fold (xcenter din).
  apply scan_loop_ext. intros k Hk. rewrite Z2Nat.id in Hk by lia.
  repeat split.
  - apply (valid_eye_read _ Hv'); simpl; [assumption|lia].
  - apply (valid_eye_read _ Hv'); simpl; [assumption|lia].
  - apply (valid_eye_read _ Hv); [assumption|lia].
  - apply (valid_eye_read _ Hv); [assumption|lia].
  - apply (Hocc (xcenter din - (0 + k))). lia.
  - apply (Hocc (xcenter din + (0 + k))). lia.
Qed.

Lemma rows_loop_ext (vrange : float) (din : EyeWaveform) (data : list float) :
  forall (n : nat) (i : Z) (st : LoopState),
    (forall k, 0 <= k < Z.of_nat n ->
       scan_row (with_data din data) (i + k) = scan_row din (i + k)) ->
    rows_loop vrange (with_data din data) n i st = rows_loop vrange din n i st.
Proof.
  induction n as [|n IH]; intros i st H; [reflexivity|].
  cbn [rows_loop].
  assert (Hb : row_body vrange (with_data din data) i st =
               row_body vrange din i st).
  { unfold row_body. specialize (H 0 ltac:(lia)). rewrite Z.add_0_r in H.
    rewrite H. reflexivity. }
  rewrite Hb. destruct (row_body vrange din i st) as [st'|]; [|reflexivity].
  cbn [bind]. apply IH. intros k Hk.
  replace (i + 1 + k) with (i + (k + 1)) by lia. apply H. lia.
Qed.

(** X9: [Refresh] looks at the raster only through the test
    [value > FLT_EPSILON], and only in columns 1 to [2 * xcenter - 1] of
    the rows from [start_bin] to [end_bin]: another sample buffer of the
    same size with the same occupied cells there gives the same outputs.
    Column 0 is never examined, nor is the last column of a raster of odd
    width, nor any row outside the band. *)
Theorem Refresh_reads_occupancy_only (t : ScalarType) (f : EyeWidthMeasurement)
  (din : EyeWaveform) (data : list float) (s e : Z) :
  valid_eye din -> GetInputWaveform f = Some din ->
  length data = length (GetData din) ->
  bins f din = Some (s, e) ->
  (forall i x, s <= i <= e -> 1 <= x <= 2 * xcenter din - 1 ->
               column_occupied (with_data din data) i x =
               column_occupied din i x) ->
  Refresh t true (with_input f (with_data din data)) = Refresh t true f.
Proof.
  intros Hv Hin Hd Hb Hocc.
  destruct (bins_range f din s e Hv Hb) as (Hs & He).
  unfold Refresh. simpl negb. cbv iota. rewrite Hin.
  cbn [with_input GetInputWaveform GetVoltageRange bind].
  change (bins (with_input f (with_data din data)) (with_data din data))
    with (bins f din).
  rewrite Hb. cbn [bind]. unfold for_rows.
  destruct (e =? SIZE_MAX); [reflexivity|].
  rewrite rows_loop_ext; [reflexivity|].
  intros k Hk. apply scan_row_ext; try assumption; [lia|].
  intros x Hx. apply Hocc; lia.
Qed.

(** The demonstration raster with its column 0 filled and the two hits
    made larger. *)
Lemma Refresh_reads_occupancy_only_witness :
  Refresh SCALAR_FLOAT true
    (with_input filter_demo
       (with_data eye_demo
          [one; zero; F32.of_Z 7; zero; zero; zero;
           one; zero; zero; zero; F32.of_Z 9; zero]))
  = Refresh SCALAR_FLOAT true filter_demo.
Proof.
  apply (Refresh_reads_occupancy_only SCALAR_FLOAT filter_demo eye_demo _ 0 1).
  - exact valid_eye_demo.
  - reflexivity.
  - reflexivity.
  - vm_compute; reflexivity.
  - intros i x Hi Hx.
    assert (Hc : i = 0 \/ i = 1) by lia.
    change (xcenter eye_demo) with 3 in Hx.
    assert (Hx' : x = 1 \/ x = 2 \/ x = 3 \/ x = 4 \/ x = 5) by lia.
    destruct Hc as [->| ->];
      destruct Hx' as [->|[->|[->|[->| ->]]]]; reflexivity.
Defined.

(** ** When Refresh has a result *)

(** X10: for a well-formed raster, [Refresh] has a defined result as soon
    as the two row indices are defined and ordered and the offsets and the
    duration convert to [int64_t]: no read leaves the sample buffer, the
    loops end and no integer operation overflows. *)
Theorem Refresh_defined (t : ScalarType) (f : EyeWidthMeasurement)
  (din : EyeWaveform) (s e : Z) :
  valid_eye din -> GetInputWaveform f = Some din ->
  bins f din = Some (s, e) -> s <= e ->
  row_duration (GetVoltageRange f) din <> None ->
  (forall i, s <= i <= e -> row_offset (GetVoltageRange f) din i <> None) ->
  exists out, Refresh t true f = Some out.
Proof.
  intros Hv Hin Hb Hse Hdur Hoff.
  destruct (Refresh t true f) as [out|] eqn:H; [exists out; reflexivity|].
  exfalso. revert H. apply (Refresh_total t f din s e); assumption.
Qed.

Lemma Refresh_defined_witness :
  exists out, Refresh SCALAR_DOUBLE true filter_demo = Some out.
Proof.
  apply (Refresh_defined SCALAR_DOUBLE filter_demo eye_demo 0 1).
  - exact valid_eye_demo.
  - reflexivity.
  - vm_compute; reflexivity.
  - lia.
  - vm_compute; discriminate.
  - intros i Hi. assert (Hc : i = 0 \/ i = 1) by lia.
    destruct Hc as [->| ->]; vm_compute; discriminate.
Defined.

(** ** A voltage range that is zero or not finite *)

Lemma F32_of_Z_positive (h : Z) :
  0 < h <= INT64_MAX ->
  exists m e, F32.of_Z h = S754_finite false m e.
Proof.
  intros Hh.
  assert (Hbig : INT64_MAX < 2 ^ (F32.emax - 1)) by reflexivity.
  pose proof (binary_normalize_Z_finite F32.prec F32.emax F32_prec F32_emax
                h ltac:(lia)) as Hf.
  pose proof (binary_normalize_Z_mono F32.prec F32.emax F32_prec F32_emax
                1 h ltac:(lia)) as Hle.
  fold (F32.of_Z h) in Hf, Hle.
  destruct (F32.of_Z h) as [s|s| |s m e]; try discriminate.
  destruct s; [discriminate|]. eauto.
Qed.

Lemma to_size_t_div_zero (x : float) (s : bool) :
  to_size_t (round (F32.div x (S754_zero s))) = None.
Proof. destruct x; reflexivity. Qed.

Lemma to_size_t_div_nan (x : float) :
  to_size_t (round (F32.div x S754_nan)) = None.
Proof. destruct x; reflexivity. Qed.

Lemma bin_of_voltage_bad_range (vrange : float) (din : EyeWaveform)
  (v : float) :
  valid_eye din ->
  is_zero vrange = true \/ is_finite vrange = false ->
  bin_of_voltage vrange din v = None.
Proof.
  intros (Hw & Hh & Hsz & _) Hr.
  destruct (F32_of_Z_positive (GetHeight din)) as (m & e & Hof).
  { split; [assumption|]. nia. }
  unfold bin_of_voltage, volts_per_row, volts_at_bottom. rewrite Hof.
  destruct vrange as [sv|sv| |sv mv ev].
  - change (F32.div (S754_zero sv) (S754_finite false m e))
      with (S754_zero (xorb sv false)).
    rewrite to_size_t_div_zero. reflexivity.
  - assert (Hnum : forall c : float,
              is_finite (F32.sub v (F32.sub c
                 (F32.div (S754_infinity sv) (F32.of_Z 2)))) = false).
    { intros c. destruct c as [sc|sc| |sc mc ec], v as [s|s| |s mv' ev'];
        destruct sv; try reflexivity;
        try (destruct sc; reflexivity); try (destruct s; reflexivity);
        try (destruct sc, s; reflexivity). }
    specialize (Hnum (GetCenterVoltage din)).
    destruct (F32.sub v (F32.sub (GetCenterVoltage din)
                (F32.div (S754_infinity sv) (F32.of_Z 2))));
      try discriminate; reflexivity.
  - change (F32.div S754_nan (S754_finite false m e)) with S754_nan.
    rewrite to_size_t_div_nan. reflexivity.
  - destruct Hr; discriminate.
Qed.

(** X11: when the voltage range of the input is zero, a NaN or an infinity,
    the quotient of line 117 is an infinity or a NaN and its conversion to
    [size_t] is undefined: [Refresh] has no defined result, whatever the
    thresholds are. *)
Theorem voltage_range_degenerate (t : ScalarType) (f : EyeWidthMeasurement)
  (din : EyeWaveform) :
  valid_eye din -> GetInputWaveform f = Some din ->
  is_zero (GetVoltageRange f) = true \/ is_finite (GetVoltageRange f) = false ->
  Refresh t true f = None.
Proof.
  intros Hv Hin Hr. unfold Refresh. simpl negb. cbv iota.
  rewrite Hin. cbn [bind].
  assert (Hb : bins f din = None); [|rewrite Hb; reflexivity].
  unfold bins. destruct (order_voltages (m_startname f) (m_endname f)).
  rewrite (bin_of_voltage_bad_range _ _ _ Hv Hr). reflexivity.
Qed.

Lemma voltage_range_degenerate_witness :
  Refresh SCALAR_FLOAT true
    (filter_on eye_demo (F32.of_Z 0) (F32.of_Z (-1)) (F32.of_Z 1)) = None.
Proof.
  apply (voltage_range_degenerate SCALAR_FLOAT _ eye_demo).
  - exact valid_eye_demo.
  - reflexivity.
  - left. reflexivity.
Defined.

(** ** Widths grow with the number of columns *)

Lemma span_products (fs : double) (a b : Z) :
  nonneg_finite F64.prec F64.emax fs = true ->
  0 <= a <= b -> b <= INT64_MAX ->
  SFleb (F64.mul fs (F64.of_Z a)) (F64.mul fs (F64.of_Z b)) = true /\
  nonneg_valid F64.prec F64.emax (F64.mul fs (F64.of_Z a)) = true /\
  nonneg_valid F64.prec F64.emax (F64.mul fs (F64.of_Z b)) = true.
Proof.
  intros Hfs Hab Hb. unfold F64.mul.
  rewrite (SFmul_comm F64.prec F64.emax fs (F64.of_Z a)),
          (SFmul_comm F64.prec F64.emax fs (F64.of_Z b)).
  apply (SFmul_mono_r F64.prec F64.emax F64_prec F64_emax); try assumption.
  - apply F64_of_Z_nonneg_finite. lia.
  - apply F64_of_Z_nonneg_finite. lia.
  - apply F64_of_Z_mono. lia.
Qed.

Lemma span_mono (t : ScalarType) (fs : double) (a b : Z) :
  nonneg_finite F64.prec F64.emax fs = true ->
  0 <= a <= b -> b <= INT64_MAX ->
  SFleb (to_m_value t (F64.mul fs (F64.of_Z a)))
        (to_m_value t (F64.mul fs (F64.of_Z b))) = true.
Proof.
  intros Hfs Hab Hb.
  destruct (span_products fs a b Hfs Hab Hb) as (Hle & Va & Vb).
  destruct t; cbn [to_m_value]; [|assumption].
  apply narrow_mono; assumption.
Qed.

(** X12: for a well-formed raster whose time per column is zero or a
    positive finite number, no sample of the waveform is negative or a NaN,
    and neither a sample nor the scalar exceeds the width of [w - 1]
    columns. *)
Theorem widths_within_raster (t : ScalarType) (f : EyeWidthMeasurement)
  (din : EyeWaveform) (out : Streams) :
  valid_eye din -> GetInputWaveform f = Some din ->
  nonneg_finite F64.prec F64.emax (fs_per_pixel din) = true ->
  Refresh t true f = Some out ->
  (exists cap, widthslice out = Some cap /\
     forall v, In v (m_samples cap) ->
       nonneg_valid F32.prec F32.emax v = true /\
       SFleb v (narrow (F64.mul (fs_per_pixel din)
                          (F64.of_Z (GetWidth din - 1)))) = true) /\
  SFleb (minwidth out)
        (to_m_value t (F64.mul (fs_per_pixel din)
                         (F64.of_Z (GetWidth din - 1)))) = true.
Proof.
  intros Hv Hin Hfs H.
  destruct (Refresh_rows t f din out Hv Hin H)
    as (s & e & rs & Hb & Hse & He & Hlen & Hrow & Hws & FL & FR & Hmin & Hmax & Hmw).
  rewrite (fs_per_pixel_spec din Hv) in *.
  assert (Hw : GetWidth din - 1 <= INT64_MAX)
    by (destruct Hv as (? & ? & ? & _); nia).
  assert (Hbnd : forall r, In r rs ->
            0 <= r_cleft r <= xcenter din /\
            xcenter din <= r_cright r <= GetWidth din - 1 /\
            r_value r = narrow (F64.mul (time_per_column_spec din)
                                  (F64.of_Z (r_cright r - r_cleft r)))).
  { intros r Hr. apply In_nth_error in Hr. destruct Hr as (k & Hk).
    assert (Hkn : (k < length rs)%nat) by (apply nth_error_Some; congruence).
    destruct (Hrow k r Hk) as (Hsc & Hval & _).
    apply (scan_row_spec din Hv) in Hsc; [tauto|lia]. }
  split.
  - eexists. split; [exact Hws|]. simpl. intros v Hin'.
    apply in_map_iff in Hin'. destruct Hin' as (r & <- & Hr).
    destruct (Hbnd r Hr) as (Hcl & Hcr & ->).
    destruct (span_products (time_per_column_spec din)
                (r_cright r - r_cleft r) (GetWidth din - 1) Hfs
                ltac:(lia) Hw) as (Hle & Va & Vb).
    split.
    + apply narrow_nonneg_valid, Va.
    + apply narrow_mono; assumption.
  - rewrite Hmw.
    destruct Hmin as (Hmin & _). destruct Hmax as (Hmax & _).
    apply in_map_iff in Hmin. destruct Hmin as (r1 & <- & Hr1).
    apply in_map_iff in Hmax. destruct Hmax as (r2 & <- & Hr2).
    destruct (Hbnd r1 Hr1) as (Hcl & _). destruct (Hbnd r2 Hr2) as (_ & Hcr & _).
    apply span_mono; [assumption|lia|assumption].
Qed.

Lemma widths_within_raster_witness :
  (exists cap, widthslice streams_demo = Some cap /\
     forall v, In v (m_samples cap) ->
       nonneg_valid F32.prec F32.emax v = true /\
       SFleb v (narrow (F64.mul (fs_per_pixel eye_demo)
                          (F64.of_Z (GetWidth eye_demo - 1)))) = true) /\
  SFleb (minwidth streams_demo)
        (to_m_value SCALAR_FLOAT
           (F64.mul (fs_per_pixel eye_demo)
              (F64.of_Z (GetWidth eye_demo - 1)))) = true.
Proof.
  apply (widths_within_raster SCALAR_FLOAT filter_demo eye_demo streams_demo).
  - exact valid_eye_demo.
  - reflexivity.
  - vm_compute; reflexivity.
  - exact Refresh_demo.
Defined.

(** ** A wider band of rows *)

(** X13: the scalar is an envelope over the scanned rows, so scanning more
    rows never makes it smaller: when the rows of one pair of thresholds
    include the rows of another, on the same raster, the scalar of the
    first is at least the scalar of the second. *)
Theorem wider_band_wider_scalar (t : ScalarType) (f1 f2 : EyeWidthMeasurement)
  (din : EyeWaveform) (out1 out2 : Streams) (s1 e1 s2 e2 : Z) :
  valid_eye din ->
  nonneg_finite F64.prec F64.emax (fs_per_pixel din) = true ->
  GetInputWaveform f1 = Some din -> GetInputWaveform f2 = Some din ->
  bins f1 din = Some (s1, e1) -> bins f2 din = Some (s2, e2) ->
  s2 <= s1 -> e1 <= e2 ->
  Refresh t true f1 = Some out1 -> Refresh t true f2 = Some out2 ->
  SFleb (minwidth out1) (minwidth out2) = true.
Proof.
  intros Hv Hfs Hin1 Hin2 Hb1 Hb2 Hs He H1 H2.
  destruct (Refresh_rows t f1 din out1 Hv Hin1 H1)
    as (s & e & rs1 & Hb & Hse1 & Heh1 & Hlen1 & Hrow1 & _ & FL1 & FR1
        & Hmin1 & Hmax1 & Hmw1).
  rewrite Hb1 in Hb. injection Hb as <- <-.
  destruct (Refresh_rows t f2 din out2 Hv Hin2 H2)
    as (s & e & rs2 & Hb & Hse2 & Heh2 & Hlen2 & Hrow2 & _ & FL2 & FR2
        & Hmin2 & Hmax2 & Hmw2).
  rewrite Hb2 in Hb. injection Hb as <- <-.
  rewrite Hmw1, Hmw2. rewrite <- (fs_per_pixel_spec din Hv).
  (* every row of the first band is a row of the second *)
  assert (Hsub : forall r1, In r1 rs1 ->
            exists r2, In r2 rs2 /\ r_cleft r2 = r_cleft r1 /\
                       r_cright r2 = r_cright r1 /\
                       0 <= r_cleft r1 <= xcenter din /\
                       xcenter din <= r_cright r1 <= GetWidth din - 1).
  { intros r1 Hr1. apply In_nth_error in Hr1. destruct Hr1 as (k & Hk).
    assert (Hkn : (k < length rs1)%nat) by (apply nth_error_Some; congruence).
    destruct (Hrow1 k r1 Hk) as (Hsc1 & _).
    destruct (nth_error rs2 (Z.to_nat (s1 + Z.of_nat k - s2))) as [r2|] eqn:Hk2.
    - destruct (Hrow2 _ r2 Hk2) as (Hsc2 & _).
      rewrite Z2Nat.id in Hsc2 by lia.
      replace (s2 + (s1 + Z.of_nat k - s2)) with (s1 + Z.of_nat k) in Hsc2
        by lia.
      rewrite Hsc1 in Hsc2. injection Hsc2 as Hc1 Hc2.
      exists r2. split; [eapply nth_error_In; eassumption|].
      split; [auto|]. split; [auto|].
      apply (scan_row_spec din Hv) in Hsc1; [tauto|lia].
    - apply nth_error_None in Hk2. lia. }
  destruct Hmin1 as (Hin_l1 & _). destruct Hmax1 as (Hin_r1 & _).
  apply in_map_iff in Hin_l1. destruct Hin_l1 as (ra & <- & Hra).
  apply in_map_iff in Hin_r1. destruct Hin_r1 as (rb & <- & Hrb).
  destruct (Hsub ra Hra) as (ra' & Hra' & Hla & _ & Hca & _).
  destruct (Hsub rb Hrb) as (rb' & Hrb' & _ & Hrb2 & _ & Hcb).
  destruct Hmin2 as (Hin_l2 & Hmin2). destruct Hmax2 as (Hin_r2 & Hmax2).
  assert (FL2 <= r_cleft ra).
  { rewrite <- Hla. apply Hmin2, in_map, Hra'. }
  assert (r_cright rb <= FR2).
  { rewrite <- Hrb2. apply Hmax2, in_map, Hrb'. }
  assert (FR2 - FL2 <= INT64_MAX).
  { apply in_map_iff in Hin_l2. destruct Hin_l2 as (rc & <- & Hrc).
    apply in_map_iff in Hin_r2. destruct Hin_r2 as (rd & <- & Hrd).
    apply In_nth_error in Hrc. destruct Hrc as (kc & Hkc).
    apply In_nth_error in Hrd. destruct Hrd as (kd & Hkd).
    assert ((kc < length rs2)%nat) by (apply nth_error_Some; congruence).
    assert ((kd < length rs2)%nat) by (apply nth_error_Some; congruence).
    destruct (Hrow2 kc rc Hkc) as (Hscc & _).
    destruct (Hrow2 kd rd Hkd) as (Hscd & _).
    apply (scan_row_spec din Hv) in Hscc; [|lia].
    apply (scan_row_spec din Hv) in Hscd; [|lia].
    destruct Hv as (? & ? & ? & _). nia. }
  apply span_mono; [assumption|lia|assumption].
Qed.

Lemma wider_band_wider_scalar_witness :
  exists out1,
    Refresh SCALAR_FLOAT true
      (filter_on eye_demo (F32.of_Z 2) (F32.of_Z 0) (F32.of_Z 0)) = Some out1 /\
    SFleb (minwidth out1) (minwidth streams_demo) = true.
Proof.
  eexists. split; [vm_compute; reflexivity|].
  apply (wider_band_wider_scalar SCALAR_FLOAT
           (filter_on eye_demo (F32.of_Z 2) (F32.of_Z 0) (F32.of_Z 0))
           filter_demo eye_demo _ streams_demo 1 1 0 1).
  - exact valid_eye_demo.
  - vm_compute; reflexivity.
  - reflexivity.
  - reflexivity.
  - vm_compute; reflexivity.
  - vm_compute; reflexivity.
  - lia.
  - lia.
  - vm_compute; reflexivity.
  - exact Refresh_demo.
Defined.

(** ** What counts as occupied *)

(** X14: the test [row[x] > ber_max] of lines 144 and 149 holds only for
    +infinity and for positive finite values: a cell that holds a NaN, a
    zero of either sign, a negative value or -infinity never counts as
    occupied. *)
Theorem occupied_positive (v : float) :
  occupied v = true -> is_positive v = true.
Proof.
  unfold occupied, ber_max, F32.gt, SFltb.
  change FLT_EPSILON with (S754_finite false 8388608 (-46)).
  destruct v as [s|s| |s m e]; cbn [SFcompare is_positive];
    try discriminate; destruct s; try discriminate; reflexivity.
Qed.

Lemma occupied_positive_witness : is_positive one = true.
Proof. apply occupied_positive. vm_compute. reflexivity. Defined.
